(** * Neos Fusion tools: the parsing-and-indexing engine

    A shallow embedding of the TypeScript sources
    [src/parser/prototypeParser.ts], [src/parser/propParser.ts],
    [src/index/prototypeIndex.ts], [src/index/propIndex.ts] and
    [src/index/workspaceIndex.ts], followed by the properties the
    specification states about them.

    Conventions of the embedding:
    - a JavaScript string is the list of its UTF-16 code units ([list N]);
      the regular expressions of the sources have no [u] flag, so they work
      on code units too;
    - an array is a list, [a[i]] is [a !! i] ([None] is [undefined]);
    - a [Map] is an association list in insertion order ([JsMap]);
    - a plain object used as a dictionary is [JsObject]: own properties in
      insertion order, reads that also see the members inherited from
      [Object.prototype];
    - a [vscode.Uri] is the string [uri.toString()] it is compared by. *)

From Stdlib Require Import String Ascii NArith Lia.
From stdpp Require Import base list numbers option.

Local Open Scope nat_scope.
Set Warnings "-register-all".

(** ** JavaScript strings *)

Abbreviation jsstring := (list N).

Module Js.

(** The string literal [s] as code units (for ASCII text). *)
Definition str (s : string) : jsstring :=
  map N_of_ascii (list_ascii_of_string s).

Definition ch (a : ascii) : N := N_of_ascii a.

Definition eqc (a b : N) : bool := N.eqb a b.

(** [\s] of ECMAScript: WhiteSpace and LineTerminator code points. *)
Definition is_ws (c : N) : bool :=
  (N.leb 9 c && N.leb c 13) || N.eqb c 32 || N.eqb c 160 || N.eqb c 5760
  || (N.leb 8192 c && N.leb c 8202) || N.eqb c 8232 || N.eqb c 8233
  || N.eqb c 8239 || N.eqb c 8287 || N.eqb c 12288 || N.eqb c 65279.

(** [.] of ECMAScript (no [s] flag): anything but a line terminator. *)
Definition is_dot (c : N) : bool :=
  negb (N.eqb c 10 || N.eqb c 13 || N.eqb c 8232 || N.eqb c 8233).

Definition is_digit (c : N) : bool := N.leb 48 c && N.leb c 57.
Definition is_upper (c : N) : bool := N.leb 65 c && N.leb c 90.
Definition is_lower (c : N) : bool := N.leb 97 c && N.leb c 122.
Definition is_alpha (c : N) : bool := is_upper c || is_lower c.

(** The longest prefix of [s] whose code units satisfy [p], and the rest:
    a greedy [p*]. *)
Fixpoint span (p : N -> bool) (s : jsstring) : jsstring * jsstring :=
  match s with
  | [] => ([], [])
  | c :: r => if p c then let '(a, b) := span p r in (c :: a, b) else ([], s)
  end.

(** [s] starts with [lit]: the rest of [s] after it. *)
Fixpoint strip_prefix (lit s : jsstring) : option jsstring :=
  match lit, s with
  | [], _ => Some s
  | _ :: _, [] => None
  | a :: lit', b :: s' => if eqc a b then strip_prefix lit' s' else None
  end.

Definition starts_with (lit s : jsstring) : bool :=
  match strip_prefix lit s with Some _ => true | None => false end.

(** [s.indexOf(needle)]: the first index at which [needle] occurs. *)
Fixpoint indexOf_from (needle s : jsstring) (i : nat) : option nat :=
  if starts_with needle s then Some i
  else match s with
       | [] => None
       | _ :: r => indexOf_from needle r (S i)
       end.

Definition indexOf (s needle : jsstring) : option nat := indexOf_from needle s 0.

(** [s.includes(needle)] *)
Definition includes (s needle : jsstring) : bool :=
  match indexOf s needle with Some _ => true | None => false end.

(** [s.slice(a, b)] for [0 <= a], [0 <= b] (empty when [b <= a]). *)
Definition slice (s : jsstring) (a b : nat) : jsstring := take (b - a) (drop a s).

(** [s.split(sep)] for a one-unit separator [sep]: never empty. *)
Fixpoint split_on (sep : N) (s : jsstring) : list jsstring :=
  match s with
  | [] => [[]]
  | c :: r =>
      match split_on sep r with
      | [] => [[]]
      | l :: ls => if eqc c sep then [] :: l :: ls else (c :: l) :: ls
      end
  end.

(** [s.split(/\r?\n/)]: a line ends at every [\n], and a [\r] right before
    it belongs to the separator. *)
Fixpoint split_lines (s : jsstring) : list jsstring :=
  match s with
  | [] => [[]]
  | c :: r =>
      match split_lines r with
      | [] => [[]]
      | l :: ls =>
          if eqc c 10 then [] :: l :: ls
          else if eqc c 13 && starts_with [10%N] r then l :: ls
          else (c :: l) :: ls
      end
  end.

(** [parts.join(sep)] *)
Fixpoint join (sep : jsstring) (parts : list jsstring) : jsstring :=
  match parts with
  | [] => []
  | [p] => p
  | p :: ps => p ++ sep ++ join sep ps
  end.

(** The loop [while ((match = re.exec(s)) !== null)] of a global regular
    expression [re] whose matches are never empty.  [m t] is the match of
    [re] anchored at the start of [t]: what it captures and the text after
    the match.  [s] is the text from offset [index] on and [skip] is
    [lastIndex - index], the code units the next search does not try.  Each
    match gives its capture, [match.index] and
    [match.index + match[0].length]. *)
Fixpoint exec_loop {A : Type} (m : jsstring -> option (A * jsstring))
    (s : jsstring) (index skip : nat) : list (A * nat * nat) :=
  match s with
  | [] => []
  | _ :: r =>
      match skip with
      | S k => exec_loop m r (S index) k
      | 0 =>
          match m s with
          | Some (cap, rest) =>
              let len := length s - length rest in
              (cap, index, index + len) :: exec_loop m r (S index) (len - 1)
          | None => exec_loop m r (S index) 0
          end
      end
  end.

(** The first match of a regular expression without [g] flag, searched
    from the left ([s.match(re)]). *)
Fixpoint search {A : Type} (m : jsstring -> option A) (s : jsstring) : option A :=
  match m s with
  | Some a => Some a
  | None => match s with
            | [] => None
            | _ :: r => search m r
            end
  end.

End Js.

(** ** [Map]: keys in insertion order *)

Module JsMap.
Section Defs.
Context {K V : Type} `{EqDecision K}.

Definition t := list (K * V).

Definition empty : t := [].

Fixpoint get (k : K) (m : t) : option V :=
  match m with
  | [] => None
  | (k', v) :: r => if decide (k = k') then Some v else get k r
  end.

Definition has (k : K) (m : t) : bool :=
  match get k m with Some _ => true | None => false end.

(** [m.set(k, v)]: an existing key keeps its place. *)
Fixpoint set (k : K) (v : V) (m : t) : t :=
  match m with
  | [] => [(k, v)]
  | (k', v') :: r => if decide (k = k') then (k, v) :: r else (k', v') :: set k v r
  end.

Fixpoint delete (k : K) (m : t) : t :=
  match m with
  | [] => []
  | (k', v') :: r => if decide (k = k') then delete k r else (k', v') :: delete k r
  end.

Definition keys (m : t) : list K := map fst m.

End Defs.
Arguments t : clear implicits.
End JsMap.

(** ** [Set]: elements in insertion order *)

Module JsSet.
Section Defs.
Context {A : Type} `{EqDecision A}.

Definition t := list A.
Definition empty : t := [].
Definition has (x : A) (s : t) : bool := bool_decide (x ∈ s).
Definition add (x : A) (s : t) : t := if has x s then s else s ++ [x].
Definition of_list (l : list A) : t := fold_left (fun s x => add x s) l empty.
(** [Array.from(s)] *)
Definition to_array (s : t) : list A := s.

End Defs.
Arguments t : clear implicits.
End JsSet.

(** The two prop sources of [PropDefinition.source]. *)
Inductive PropSource := styleguide | default.

#[global] Instance PropSource_eq_dec : EqDecision PropSource.
Proof. solve_decision. Defined.


(** ** src/parser/prototypeParser.ts *)

Module PrototypeParser.
Import Js.

Record PrototypeDeclaration := {
  name : jsstring;
  start : nat;
  end_ : nat
}.

(** The class [[A-Za-z0-9_.:-]]. *)
Definition is_name_char (c : N) : bool :=
  is_alpha c || is_digit c || eqc c (ch "_") || eqc c (ch ".")
  || eqc c (ch ":") || eqc c (ch "-").

(** [/prototype\s*\(\s*([A-Za-z0-9_.:-]+)\s*\)/] anchored at the start of
    [s]: the captured name and the text after the match.  White space, name
    characters and the two parentheses are pairwise disjoint classes, so
    each run can only be matched whole and the greedy reading is the only
    one. *)
Definition match_prototype (s : jsstring) : option (jsstring * jsstring) :=
  match strip_prefix (str "prototype") s with
  | None => None
  | Some r1 =>
      let '(_, r2) := span is_ws r1 in
      match strip_prefix (str "(") r2 with
      | None => None
      | Some r3 =>
          let '(_, r4) := span is_ws r3 in
          let '(nm, r5) := span is_name_char r4 in
          if length nm =? 0 then None
          else
            let '(_, r6) := span is_ws r5 in
            match strip_prefix (str ")") r6 with
            | None => None
            | Some r7 => Some (nm, r7)
            end
      end
  end.

Definition parsePrototypes (source : jsstring) : list PrototypeDeclaration :=
  map (fun '(nm, s, e) => {| name := nm; start := s; end_ := e |})
      (exec_loop match_prototype source 0 0).

End PrototypeParser.

(** ** src/index/prototypeIndex.ts *)

Module PrototypeIndex.
Import Js.

(** [vscode.Position] and [vscode.Range] *)
Record Position := { line : nat; character : nat }.
Record Range := { range_start : Position; range_end : Position }.

Record IndexedPrototype := {
  name : jsstring;
  uri : jsstring;
  range : Range
}.

Record t := {
  prototypes : JsMap.t jsstring IndexedPrototype;
  filePrototypes : JsMap.t jsstring (list jsstring)  (* uri -> prototype names *)
}.

Definition empty : t :=
  {| prototypes := JsMap.empty; filePrototypes := JsMap.empty |}.

(** [clear()] empties [prototypes] only. *)
Definition clear (idx : t) : t :=
  {| prototypes := JsMap.empty; filePrototypes := filePrototypes idx |}.

Definition offsetToPosition (source : jsstring) (offset : nat) : Position :=
  let before := slice source 0 offset in
  let lines := split_lines before in
  {| line := length lines - 1; character := length (List.last lines []) |}.

Definition indexDocument (u : jsstring) (source : jsstring) (idx : t) : t :=
  let declarations := PrototypeParser.parsePrototypes source in
  {| prototypes :=
       fold_left
         (fun m decl =>
            JsMap.set (PrototypeParser.name decl)
              {| name := PrototypeParser.name decl;
                 uri := u;
                 range :=
                   {| range_start := offsetToPosition source (PrototypeParser.start decl);
                      range_end := offsetToPosition source (PrototypeParser.end_ decl) |} |}
              m)
         declarations (prototypes idx);
     filePrototypes :=
       JsMap.set u (map PrototypeParser.name declarations) (filePrototypes idx) |}.

Definition removeByUri (u : jsstring) (idx : t) : t :=
  match JsMap.get u (filePrototypes idx) with
  | None => idx
  | Some names =>
      {| prototypes := fold_left (fun m nm => JsMap.delete nm m) names (prototypes idx);
         filePrototypes := JsMap.delete u (filePrototypes idx) |}
  end.

Definition getPrototypesFromDocument (u : jsstring) (idx : t) : list jsstring :=
  match JsMap.get u (filePrototypes idx) with
  | Some names => names
  | None => []
  end.

Definition get (nm : jsstring) (idx : t) : option IndexedPrototype :=
  JsMap.get nm (prototypes idx).

Definition getAllNames (idx : t) : list jsstring := JsMap.keys (prototypes idx).

End PrototypeIndex.

(** ** Plain objects used as dictionaries

    An object literal [{}] has [Object.prototype] as its prototype.  A read
    [o[k]] finds an own property first and an inherited member after; an
    assignment [o[k] = v] of a key that is not inherited creates or
    replaces an own property; [Object.entries(o)] lists own properties only:
    array-index keys in ascending numeric order, then the other keys in
    insertion order. *)

Module JsObject.
Import Js.
Section Defs.
Context {V : Type}.

Definition t := list (jsstring * V).

Definition empty : t := [].

(** The members every object inherits from [Object.prototype]; each is a
    function or, for [__proto__], the prototype object: all truthy. *)
Definition inherited_names : list jsstring :=
  map str
    ["constructor"; "hasOwnProperty"; "isPrototypeOf"; "propertyIsEnumerable";
     "toLocaleString"; "toString"; "valueOf"; "__proto__";
     "__defineGetter__"; "__defineSetter__"; "__lookupGetter__";
     "__lookupSetter__"]%string.

Definition inherited (k : jsstring) : bool := bool_decide (k ∈ inherited_names).

Fixpoint get_own (k : jsstring) (o : t) : option V :=
  match o with
  | [] => None
  | (k', v) :: r => if decide (k = k') then Some v else get_own k r
  end.

(** [if (o[k])] for an object whose own values are objects. *)
Definition truthy_at (k : jsstring) (o : t) : bool :=
  match get_own k o with
  | Some _ => true
  | None => inherited k
  end.

(** [o[k] = v] *)
Fixpoint set (k : jsstring) (v : V) (o : t) : t :=
  match o with
  | [] => [(k, v)]
  | (k', v') :: r => if decide (k = k') then (k, v) :: r else (k', v') :: set k v r
  end.

(** The own property [k] replaced by [f] of it. *)
Fixpoint alter (f : V -> V) (k : jsstring) (o : t) : t :=
  match o with
  | [] => []
  | (k', v') :: r => if decide (k = k') then (k', f v') :: r else (k', v') :: alter f k r
  end.

(** The number a string of decimal digits denotes. *)
Definition digits_value (k : jsstring) : N :=
  fold_left (fun acc c => (acc * 10 + (c - 48))%N) k 0%N.

(** An array index: a canonical decimal numeral below [2^32 - 1]. *)
Definition is_array_index (k : jsstring) : bool :=
  match k with
  | [] => false
  | c :: r =>
      forallb is_digit k
      && (negb (eqc c 48) || (length r =? 0))
      && N.ltb (digits_value k) 4294967295
  end.

Fixpoint insert_index (e : jsstring * V) (l : t) : t :=
  match l with
  | [] => [e]
  | e' :: r =>
      if N.ltb (digits_value (fst e)) (digits_value (fst e'))
      then e :: e' :: r
      else e' :: insert_index e r
  end.

(** [Object.entries(o)] *)
Definition entries (o : t) : list (jsstring * V) :=
  fold_left (fun acc e => insert_index e acc)
            (filter (fun e => is_array_index (fst e) = true) o) []
  ++ filter (fun e => is_array_index (fst e) = false) o.

End Defs.
Arguments t : clear implicits.
End JsObject.

(** ** src/parser/propParser.ts *)

Module PropParser.
Import Js.

Record PropDefinition := {
  prototypeName : jsstring;
  propPath : list jsstring;
  start : nat;
  end_ : nat;
  source : PropSource
}.

Record StyleguideWarning := {
  message : jsstring;
  line : nat;
  column : nat
}.

Record ParsedPropResult := {
  props : list PropDefinition;
  warnings : list StyleguideWarning
}.

Record PrototypeBlock := {
  name : jsstring;
  bodyStart : nat;
  bodyEnd : nat
}.

Record Position := { pos_line : nat; pos_column : nat }.

(** A node of the tree; a leaf has no [children] field. *)
Inductive StyleguideNode :=
| Node (position : Position) (children : option (JsObject.t StyleguideNode)).

Definition position (n : StyleguideNode) : Position :=
  match n with Node p _ => p end.

Definition children (n : StyleguideNode) : option (JsObject.t StyleguideNode) :=
  match n with Node _ c => c end.

Record StyleguidePropsTree := {
  tree_props : StyleguideNode;
  tree_warnings : list StyleguideWarning
}.

(** *** References into the tree

    [stack] and [current] hold references to nodes of the one tree under
    [root.props].  A node is stored under its parent when it is created and
    is never moved or replaced, so a reference is the key path from
    [root.props] down to the node. *)

Abbreviation noderef := (list jsstring).

Fixpoint node_at (path : noderef) (n : StyleguideNode) : option StyleguideNode :=
  match path with
  | [] => Some n
  | k :: path' =>
      match children n with
      | Some o =>
          match JsObject.get_own k o with
          | Some c => node_at path' c
          | None => None
          end
      | None => None
      end
  end.

(** The tree after the node at [path] was changed by [f]. *)
Fixpoint update_at (path : noderef) (f : StyleguideNode -> StyleguideNode)
    (n : StyleguideNode) : StyleguideNode :=
  match path with
  | [] => f n
  | k :: path' =>
      match n with
      | Node p (Some o) => Node p (Some (JsObject.alter (update_at path' f) k o))
      | Node p None => n
      end
  end.

(** [node.children ??= {}] *)
Definition ensure_children (n : StyleguideNode) : StyleguideNode :=
  match n with
  | Node p None => Node p (Some JsObject.empty)
  | _ => n
  end.

(** [node.children[key] = child] *)
Definition set_child (key : jsstring) (child : StyleguideNode)
    (n : StyleguideNode) : StyleguideNode :=
  match n with
  | Node p (Some o) => Node p (Some (JsObject.set key child o))
  | Node p None => Node p (Some (JsObject.set key child JsObject.empty))
  end.

Definition set_position (p : Position) (n : StyleguideNode) : StyleguideNode :=
  match n with Node _ c => Node p c end.

(** *** The regular expressions of [parseStyleguidePropsTree] *)

(** The class [[^\s={]]. *)
Definition is_key_char (c : N) : bool :=
  negb (is_ws c || eqc c (ch "=") || eqc c (ch "{")).

(** The test of the [props] line: from the start of the line white space
    (the indent, group 1), the word [props], white space and [{].  The
    result is the indent. *)
Definition match_props (ln : jsstring) : option jsstring :=
  let '(indent, r1) := span is_ws ln in
  match strip_prefix (str "props") r1 with
  | None => None
  | Some r2 =>
      let '(_, r3) := span is_ws r2 in
      if starts_with (str "{") r3 then Some indent else None
  end.

(** [/^\s*\}/] *)
Definition closeBlockRegex (ln : jsstring) : bool :=
  starts_with (str "}") (snd (span is_ws ln)).

(** [/^\s*@/] *)
Definition isDirectiveLine (ln : jsstring) : bool :=
  starts_with (str "@") (snd (span is_ws ln)).

(** [openBlockRegex]: from the start of the line white space (the indent,
    group 1), one or more of [[^\s={]] (the key, group 2), white space, an
    optional [=\s*[^{]+], white space and [{].  The indent
    and the key are whole runs (white space and key characters are
    disjoint, and neither [=] nor [{] is a key character).  After the key
    and white space comes either [{], or [=] and then at least one code
    unit other than [{] before the first [{]: [[^{]+] also takes white
    space, so [\s*] on both sides of it changes nothing. *)
Definition openBlockRegex (ln : jsstring) : option (jsstring * jsstring) :=
  let '(indent, r1) := span is_ws ln in
  let '(key, r2) := span is_key_char r1 in
  if length key =? 0 then None
  else
    let '(_, r3) := span is_ws r2 in
    match r3 with
    | [] => None
    | c :: r4 =>
        if eqc c (ch "{") then Some (indent, key)
        else if eqc c (ch "=") then
          let '(value, r5) := span (fun x => negb (eqc x (ch "{"))) r4 in
          if negb (length value =? 0) && starts_with (str "{") r5
          then Some (indent, key)
          else None
        else None
    end.

(** [.*\{] matches at the start of [s]: a [{] comes before the first line
    terminator. *)
Definition dot_star_brace (s : jsstring) : bool :=
  existsb (fun c => eqc c (ch "{")) (fst (span is_dot s)).

(** The test of a leaf line: indent and key as in [openBlockRegex], white
    space, [=], white space, and then no [.*\{] ahead.  The last [\s*]
    may stop after any number [k] of the white space that follows [=]; the
    expression matches when the lookahead holds at one of these places. *)
Definition leafRegex (ln : jsstring) : option (jsstring * jsstring) :=
  let '(indent, r1) := span is_ws ln in
  let '(key, r2) := span is_key_char r1 in
  if length key =? 0 then None
  else
    let '(_, r3) := span is_ws r2 in
    match strip_prefix (str "=") r3 with
    | None => None
    | Some r4 =>
        let '(w, r5) := span is_ws r4 in
        if existsb (fun k => negb (dot_star_brace (drop k w ++ r5)))
                   (seq 0 (S (length w)))
        then Some (indent, key)
        else None
    end.

(** [Duplicate prop "<key>" defined at the same level] *)
Definition duplicate_message (key : jsstring) : jsstring :=
  str "Duplicate prop " ++ [34%N] ++ key ++ [34%N]
  ++ str " defined at the same level".

(** *** [parseStyleguidePropsTree] *)

(** The variables the callback of [lines.forEach] closes over. *)
Record state := {
  inStyleguide : bool;
  inProps : bool;
  root_props : StyleguideNode;
  root_warnings : list StyleguideWarning;
  stack : list noderef;              (* the top is the last element *)
  current : option noderef;
  eelDepth : nat
}.

Definition init : state :=
  {| inStyleguide := false;
     inProps := false;
     root_props := Node {| pos_line := 0; pos_column := 0 |} (Some JsObject.empty);
     root_warnings := [];
     stack := [];
     current := None;
     eelDepth := 0 |}.

(** The loop over the code units of a line that tracks [$]{[...]} depth. *)
Fixpoint eel_scan (ln : jsstring) (depth : nat) : nat :=
  match ln with
  | [] => depth
  | c :: r =>
      if eqc c (ch "$") then
        match r with
        | c' :: r' =>
            if eqc c' (ch "{") then eel_scan r' (S depth)
            else eel_scan r depth
        | [] => depth
        end
      else if eqc c (ch "}") && (0 <? depth) then eel_scan r (depth - 1)
      else eel_scan r depth
  end.

(** A key declaration under [current]: [node] is stored under [key], unless
    [current.children[key]] is truthy already, which gives a warning at the
    position of [node].  [push] tells whether the new node becomes
    [current] (block) or not (leaf). *)
Definition declare (st : state) (cur : noderef) (key : jsstring)
    (node : StyleguideNode) (lineNumber : nat) (push : bool) : state :=
  let root1 := update_at cur ensure_children (root_props st) in
  let present :=
    match node_at cur root1 with
    | Some n =>
        match children n with
        | Some o => JsObject.truthy_at key o
        | None => false
        end
    | None => false
    end in
  if present then
    {| inStyleguide := inStyleguide st; inProps := inProps st;
       root_props := root1;
       root_warnings :=
         root_warnings st ++
         [{| message := duplicate_message key;
             line := lineNumber;
             column := pos_column (position node) |}];
       stack := stack st; current := current st; eelDepth := eelDepth st |}
  else
    {| inStyleguide := inStyleguide st; inProps := inProps st;
       root_props := update_at cur (set_child key node) root1;
       root_warnings := root_warnings st;
       stack := if push then stack st ++ [cur ++ [key]] else stack st;
       current := if push then Some (cur ++ [key]) else current st;
       eelDepth := eelDepth st |}.

(** The body of the callback of [lines.forEach], after the [eelDepth]
    loop. *)
Definition classify (st : state) (lineNumber : nat) (ln : jsstring) : state :=
  if negb (inStyleguide st) && includes ln (str "@styleguide") then
    {| inStyleguide := true; inProps := inProps st; root_props := root_props st;
       root_warnings := root_warnings st; stack := stack st;
       current := current st; eelDepth := eelDepth st |}
  else if inStyleguide st && negb (inProps st) then
    match match_props ln with
    | Some indent =>
        {| inStyleguide := inStyleguide st; inProps := true;
           root_props :=
             set_position {| pos_line := lineNumber; pos_column := length indent + 1 |}
                          (root_props st);
           root_warnings := root_warnings st;
           stack := stack st ++ [[]];
           current := Some [];
           eelDepth := eelDepth st |}
    | None => st
    end
  else
    match inProps st, current st with
    | true, Some cur =>
        if (eelDepth st =? 0) && closeBlockRegex ln then
          let stack' := removelast (stack st) in
          {| inStyleguide := inStyleguide st; inProps := inProps st;
             root_props := root_props st; root_warnings := root_warnings st;
             stack := stack';
             current := List.last (map Some stack') None;
             eelDepth := eelDepth st |}
        else
          match (if isDirectiveLine ln then None else openBlockRegex ln) with
          | Some (indent, key) =>
              let column :=
                match indexOf ln key with
                | Some keyStart => keyStart + 1
                | None => length indent + 1
                end in
              declare st cur key
                (Node {| pos_line := lineNumber; pos_column := column |}
                      (Some JsObject.empty))
                lineNumber true
          | None =>
              match (if isDirectiveLine ln then None else leafRegex ln) with
              | Some (_, key) =>
                  let column :=
                    match indexOf ln key with
                    | Some keyStart => keyStart + 1
                    | None => 1
                    end in
                  declare st cur key
                    (Node {| pos_line := lineNumber; pos_column := column |} None)
                    lineNumber false
              | None => st
              end
          end
    | _, _ => st
    end.

Definition step (st : state) (il : nat * jsstring) : state :=
  let '(index, ln) := il in
  let lineNumber := index + 1 in
  let st1 :=
    {| inStyleguide := inStyleguide st; inProps := inProps st;
       root_props := root_props st; root_warnings := root_warnings st;
       stack := stack st; current := current st;
       eelDepth := eel_scan ln (eelDepth st) |} in
  classify st1 lineNumber ln.

Definition parseStyleguidePropsTree (source : jsstring) : StyleguidePropsTree :=
  let lines := split_on 10 source in
  let st := fold_left step (zip (seq 0 (length lines)) lines) init in
  {| tree_props := root_props st; tree_warnings := root_warnings st |}.

(** *** [flattenStyleguideTree] *)

(** [lineOffsets]: the offset each line starts at, every line counted with
    one code unit for its line break. *)
Fixpoint line_offsets (lines : list jsstring) (acc : nat) : list nat :=
  match lines with
  | [] => []
  | l :: ls => acc :: line_offsets ls (acc + (length l + 1))
  end.

Section Flatten.
Variables (protoName : jsstring) (lineOffsets : list nat) (bodyOffset : nat).

(** What [walk(node, path)] pushes for [node] itself.  Every node that is
    emitted was created at a line of the body, so the table has its line;
    the last segment of a non-empty path exists. *)
Definition emit (node : StyleguideNode) (path : list jsstring)
    : list PropDefinition :=
  if 0 <? length path then
    let offset :=
      bodyOffset
      + match lineOffsets !! (pos_line (position node) - 1) with
        | Some o => o
        | None => 0 (* not reached *)
        end
      + pos_column (position node) - 1 in
    [{| prototypeName := protoName;
        propPath := path;
        start := offset;
        end_ := offset + length (List.last path []);
        source := styleguide |}]
  else [].

(** [walk(node, path)]: the definitions pushed to [results], in order.  The
    children are walked in the order of [Object.entries]; the order depends
    on the keys only, so the results of the children are computed first and
    ordered after. *)
Fixpoint walk (node : StyleguideNode) (path : list jsstring)
    : list PropDefinition :=
  match node with
  | Node _ ch =>
      emit node path ++
      match ch with
      | Some o =>
          concat
            (map snd
               (JsObject.entries
                  (map (fun kc : jsstring * StyleguideNode =>
                          (fst kc, walk (snd kc) (path ++ [fst kc])))
                       o)))
      | None => []
      end
  end.

End Flatten.

Definition flattenStyleguideTree (tree : StyleguidePropsTree)
    (protoName : jsstring) (document : jsstring) (bodyOffset : nat)
    : list PropDefinition :=
  let lines := split_lines document in
  walk protoName (line_offsets lines 0) bodyOffset (tree_props tree) [].

(** *** [parseDefaultProps] *)

(** The class [[A-Za-z0-9_.]]. *)
Definition is_path_char (c : N) : bool :=
  is_alpha c || is_digit c || eqc c (ch "_") || eqc c (ch ".").

Definition is_blank (c : N) : bool := eqc c 32 || eqc c 9.

(** "/^[ \t]*([A-Za-z_][A-Za-z0-9_.]*|[0-9]+)\s*=/": the whole match
    [match[0]] and the key [match[1]].  The first alternative needs a
    letter or [_] first and the second a digit, and blanks, key characters,
    white space and [=] are disjoint where they meet, so every run is
    matched whole. *)
Definition defaultRegex (ln : jsstring) : option (jsstring * jsstring) :=
  let '(indent, r1) := span is_blank ln in
  let key_rest :=
    match r1 with
    | c :: r =>
        if is_alpha c || eqc c (ch "_") then
          let '(k, r2) := span is_path_char r in Some (c :: k, r2)
        else if is_digit c then Some (span is_digit r1)
        else None
    | [] => None
    end in
  match key_rest with
  | None => None
  | Some (key, r2) =>
      let '(w, r3) := span is_ws r2 in
      if starts_with (str "=") r3
      then Some (indent ++ key ++ w ++ str "=", key)
      else None
  end.

(** The change of [depth] over the braces of a line. *)
Definition brace_delta (ln : jsstring) : Z :=
  fold_left
    (fun d c =>
       if eqc c (ch "{") then (d + 1)%Z
       else if eqc c (ch "}") then (d - 1)%Z
       else d)
    ln 0%Z.

(** One round of the loop over the lines: [(results, depth, currentOffset)]. *)
Definition default_step (protoName : jsstring) (bodyOffset : nat)
    (acc : list PropDefinition * Z * nat) (ln : jsstring)
    : list PropDefinition * Z * nat :=
  let '(results, depth, currentOffset) := acc in
  let lineLength := length ln + 1 in
  let results' :=
    match defaultRegex ln with
    | Some (m0, m1) =>
        if (depth =? 0)%Z then
          let start :=
            bodyOffset + currentOffset
            + match indexOf ln m1 with
              | Some i => i
              | None => 0 (* not reached: the key is part of the line *)
              end in
          results ++
          [{| prototypeName := protoName;
              propPath := split_on (ch ".") m1;
              start := start;
              end_ := start + length m0;
              source := default |}]
        else results
    | None => results
    end in
  (results', (depth + brace_delta ln)%Z, currentOffset + lineLength).

Definition parseDefaultProps (body : jsstring) (protoName : jsstring)
    (bodyOffset : nat) : list PropDefinition :=
  let lines := split_lines body in
  fst (fst (fold_left (default_step protoName bodyOffset) lines ([], 0%Z, 0))).

(** *** [findMatchingBrace] and [parsePrototypeBlocks] *)

(** The loop of [findMatchingBrace] from index [i] on, [s] being the source
    from there; [None] is [-1]. *)
Fixpoint findMatchingBrace_from (s : jsstring) (i : nat) (depth : Z) : option nat :=
  match s with
  | [] => None
  | c :: r =>
      if eqc c (ch "{") then findMatchingBrace_from r (S i) (depth + 1)%Z
      else if eqc c (ch "}") then
        if (depth - 1 =? 0)%Z then Some i
        else findMatchingBrace_from r (S i) (depth - 1)%Z
      else findMatchingBrace_from r (S i) depth
  end.

Definition findMatchingBrace (source : jsstring) (openBraceIndex : nat) : option nat :=
  findMatchingBrace_from (drop openBraceIndex source) openBraceIndex 0%Z.

(** "/prototype\s*\(\s*([A-Za-z0-9_.:-]+)\s*\)(?:\s*<[^{]*?)?\s*\{/"
    anchored at the start of [s]: the name and the text after the match.
    After the closing parenthesis and white space comes either [{], or [<]
    and then everything up to the first [{] ([[^{]] also takes white space,
    and the match must end at the first [{] whatever the lazy star
    takes). *)
Definition match_block (s : jsstring) : option (jsstring * jsstring) :=
  match PrototypeParser.match_prototype s with
  | None => None
  | Some (nm, r1) =>
      let '(_, r2) := span is_ws r1 in
      match r2 with
      | [] => None
      | c :: r3 =>
          if eqc c (ch "{") then Some (nm, r3)
          else if eqc c (ch "<") then
            let '(_, r4) := span (fun x => negb (eqc x (ch "{"))) r3 in
            match strip_prefix (str "{") r4 with
            | Some r5 => Some (nm, r5)
            | None => None
            end
          else None
      end
  end.

Definition parsePrototypeBlocks (source : jsstring) : list PrototypeBlock :=
  omap
    (fun '(nm, _, e) =>
       let bodyStart := e in
       match findMatchingBrace source (bodyStart - 1) with
       | None => None
       | Some bodyEnd =>
           Some {| name := nm; bodyStart := bodyStart; bodyEnd := bodyEnd |}
       end)
    (exec_loop match_block source 0 0).

(** *** [parsePropDefinitions] *)

Definition dotted (p : PropDefinition) : jsstring := join (str ".") (propPath p).

(** What one round of the loop over the prototype blocks pushes to
    [results]: the styleguide definitions, then the defaults whose dotted
    path no styleguide definition of this block has. *)
Definition block_props (source : jsstring) (proto : PrototypeBlock)
    (styleguideProps : list PropDefinition) : list PropDefinition :=
  let body := slice source (bodyStart proto) (bodyEnd proto) in
  let seen := JsSet.of_list (map dotted styleguideProps) in
  let defaults :=
    filter (fun p => JsSet.has (dotted p) seen = false)
           (parseDefaultProps body (name proto) (bodyStart proto)) in
  styleguideProps ++ defaults.

Definition block_step (source : jsstring) (acc : ParsedPropResult)
    (proto : PrototypeBlock) : ParsedPropResult :=
  let body := slice source (bodyStart proto) (bodyEnd proto) in
  let styleguideTree := parseStyleguidePropsTree body in
  let styleguideProps :=
    flattenStyleguideTree styleguideTree (name proto) body (bodyStart proto) in
  {| props := props acc ++ block_props source proto styleguideProps;
     warnings := warnings acc ++ tree_warnings styleguideTree |}.

Definition parsePropDefinitions (source : jsstring) : ParsedPropResult :=
  fold_left (block_step source) (parsePrototypeBlocks source)
            {| props := []; warnings := [] |}.

(** *** Content neutralization

    The four passes replace comments, string contents and expressions by
    spaces.  Each is a loop over an index with an inner loop for the part
    that is blanked; here the inner loop is a mode of the one recursion. *)

(** [neutralizeMultiLineComments]; [inside] tells whether the inner loop
    runs.  A comparison with [source[i + 1]] past the end fails. *)
Fixpoint multiLineComments (inside : bool) (s : jsstring) : jsstring :=
  match s with
  | [] => []
  | c :: r =>
      if inside then
        match r with
        | c' :: r' =>
            if eqc c (ch "*") && eqc c' (ch "/")
            then 32%N :: 32%N :: multiLineComments false r'
            else (if eqc c 10 then 10%N else 32%N) :: multiLineComments true r
        | [] => [if eqc c 10 then 10%N else 32%N]
        end
      else
        match r with
        | c' :: r' =>
            if eqc c (ch "/") && eqc c' (ch "*")
            then 32%N :: 32%N :: multiLineComments true r'
            else c :: multiLineComments false r
        | [] => [c]
        end
  end.

Definition neutralizeMultiLineComments (source : jsstring) : jsstring :=
  multiLineComments false source.

(** [neutralizeSingleLineComments]: the inner loop stops in front of the
    line break, which the outer loop copies. *)
Fixpoint singleLineComments (inside : bool) (s : jsstring) : jsstring :=
  match s with
  | [] => []
  | c :: r =>
      if inside then
        if eqc c 10 then c :: singleLineComments false r
        else 32%N :: singleLineComments true r
      else
        match r with
        | c' :: r' =>
            if eqc c (ch "/") && eqc c' (ch "/")
            then 32%N :: 32%N :: singleLineComments true r'
            else c :: singleLineComments false r
        | [] => [c]
        end
  end.

Definition neutralizeSingleLineComments (source : jsstring) : jsstring :=
  singleLineComments false source.

(** [neutralizeStrings]; [quote] is the quote of the string the inner loop
    is in.  A backslash takes the code unit after it along, when there is
    one. *)
Fixpoint strings (quote : option N) (s : jsstring) : jsstring :=
  match s with
  | [] => []
  | c :: r =>
      match quote with
      | None =>
          if eqc c 34 || eqc c 39 then c :: strings (Some c) r
          else c :: strings None r
      | Some q =>
          let otherwise :=
            if eqc c q then q :: strings None r
            else if eqc c 10 then 10%N :: strings (Some q) r
            else 32%N :: strings (Some q) r in
          if eqc c 92 then
            match r with
            | _ :: r' => 32%N :: 32%N :: strings (Some q) r'
            | [] => otherwise
            end
          else otherwise
      end
  end.

Definition neutralizeStrings (source : jsstring) : jsstring :=
  strings None source.

(** [neutralizeEel]; [depth] is the depth of the inner loop, [0] outside
    of it. *)
Fixpoint eel (depth : nat) (s : jsstring) : jsstring :=
  match s with
  | [] => []
  | c :: r =>
      match depth with
      | 0 =>
          match r with
          | c' :: r' =>
              if eqc c (ch "$") && eqc c' (ch "{")
              then 32%N :: 32%N :: eel 1 r'
              else c :: eel 0 r
          | [] => [c]
          end
      | S d =>
          if eqc c (ch "{") then 32%N :: eel (S (S d)) r
          else if eqc c (ch "}") then 32%N :: eel d r
          else if eqc c 10 then 10%N :: eel (S d) r
          else 32%N :: eel (S d) r
      end
  end.

Definition neutralizeEel (source : jsstring) : jsstring := eel 0 source.

Definition neutralizeContent (source : jsstring) : jsstring :=
  neutralizeEel
    (neutralizeStrings
       (neutralizeSingleLineComments
          (neutralizeMultiLineComments source))).

End PropParser.

(** ** src/index/propIndex.ts *)

Module PropIndex.

Record IndexedProp := {
  prototypeName : jsstring;
  propPath : list jsstring;
  start : nat;
  end_ : nat;
  source : PropSource;
  uri : jsstring
}.

(** [byPrototype]: prototype name to its entries, in append order. *)
Abbreviation t := (JsMap.t jsstring (list IndexedProp)).

Definition clear (idx : t) : t := JsMap.empty.

(** The list stored for a prototype name ([[]] when it has none). *)
Definition stored (idx : t) (protoName : jsstring) : list IndexedProp :=
  match JsMap.get protoName idx with
  | Some l => l
  | None => []
  end.

(** [indexPrototype]: the definitions of this prototype are appended to
    its list. *)
Definition indexPrototype (protoName : jsstring)
    (definitions : list PropParser.PropDefinition) (u : jsstring) (idx : t) : t :=
  let newProps :=
    map (fun d =>
           {| prototypeName := PropParser.prototypeName d;
              propPath := PropParser.propPath d;
              start := PropParser.start d;
              end_ := PropParser.end_ d;
              source := PropParser.source d;
              uri := u |})
        (filter (fun d => PropParser.prototypeName d = protoName) definitions) in
  let existing :=
    match JsMap.get protoName idx with
    | Some l => l
    | None => []
    end in
  JsMap.set protoName (existing ++ newProps) idx.

(** [removeByUri]: each prototype's list loses the entries of [u]; an
    emptied list drops its key. *)
Definition removeByUri (u : jsstring) (idx : t) : t :=
  fold_left
    (fun (m : t) '(prototypeName, props) =>
       let filtered := filter (fun p => uri p ≠ u) props in
       if length filtered =? 0 then JsMap.delete prototypeName m
       else if negb (length filtered =? length props)
            then JsMap.set prototypeName filtered m
            else m)
    idx idx.

(** [pathsEqual(a, b)] *)
Definition pathsEqual (a b : list jsstring) : bool :=
  if negb (length a =? length b) then false
  else forallb (fun i => bool_decide (a !! i = b !! i)) (seq 0 (length a)).

(** [isSuffix(full, candidate)]: the loop runs [i = 1 .. candidate.length]
    and compares from the right end. *)
Definition isSuffix (full candidate : list jsstring) : bool :=
  if length full <? length candidate then false
  else forallb
         (fun i => bool_decide (full !! (length full - i)
                                = candidate !! (length candidate - i)))
         (seq 1 (length candidate)).

(** The second loop of [resolve]: [(bestMatch, bestLength)] after one more
    entry. *)
Definition resolve_step (usagePath : list jsstring)
    (best : option IndexedProp * nat) (prop : IndexedProp)
    : option IndexedProp * nat :=
  if isSuffix usagePath (propPath prop)
  then if snd best <? length (propPath prop)
       then (Some prop, length (propPath prop))
       else best
  else best.

Definition resolve (idx : t) (prototypeName : jsstring)
    (usagePath : list jsstring) : option IndexedProp :=
  match JsMap.get prototypeName idx with
  | None => None
  | Some props =>
      if length props =? 0 then None
      else
        match find (fun prop => pathsEqual usagePath (propPath prop)) props with
        | Some prop => Some prop
        | None => fst (fold_left (resolve_step usagePath) props (None, 0))
        end
  end.

(** One round of the loop of [getChildren]. *)
Definition getChildren_step (usagePath : list jsstring)
    (result : JsSet.t jsstring) (prop : IndexedProp) : JsSet.t jsstring :=
  if length (propPath prop) <=? length usagePath then result
  else if forallb (fun i => bool_decide (propPath prop !! i = usagePath !! i))
            (seq 0 (length usagePath))
  then match propPath prop !! length usagePath with
       | Some child => JsSet.add child result
       | None => result (* not reached: the index is below the length *)
       end
  else result.

Definition getChildren (idx : t) (prototypeName : jsstring)
    (usagePath : list jsstring) : list jsstring :=
  match JsMap.get prototypeName idx with
  | None => []
  | Some props =>
      if length props =? 0 then []
      else JsSet.to_array (fold_left (getChildren_step usagePath) props JsSet.empty)
  end.

End PropIndex.

(** ** src/index/workspaceIndex.ts (the version with live re-indexing) *)

Module WorkspaceIndex.
Import Js.

(** The range of a diagnostic: either the host's
    [document.positionAt(start)] .. [document.positionAt(end)] of a
    definition, or the two positions built from a warning. *)
Inductive DiagnosticRange :=
| DefinitionRange (start end_ : nat)
| WarningRange (line character line' character' : nat).

(** A [vscode.Diagnostic] of severity [Warning]. *)
Record Diagnostic := {
  range : DiagnosticRange;
  message : jsstring
}.

Record t := {
  fusionFiles : list jsstring;
  prototypeIndex : PrototypeIndex.t;
  propIndex : PropIndex.t;
  filePrototypeMap : JsMap.t jsstring (list jsstring);
  filePropMap : JsMap.t jsstring (list PropParser.PropDefinition);
  diagnostics : JsMap.t jsstring (list Diagnostic)
}.

Definition empty : t :=
  {| fusionFiles := [];
     prototypeIndex := PrototypeIndex.empty;
     propIndex := JsMap.empty;
     filePrototypeMap := JsMap.empty;
     filePropMap := JsMap.empty;
     diagnostics := JsMap.empty |}.

Definition clear (st : t) : t :=
  {| fusionFiles := [];
     prototypeIndex := PrototypeIndex.clear (prototypeIndex st);
     propIndex := PropIndex.clear (propIndex st);
     filePrototypeMap := filePrototypeMap st;
     filePropMap := filePropMap st;
     diagnostics := JsMap.empty |}.

(** The quoted key of a warning message: the first match of the regular
    expression that takes a double quote, one or more code units other
    than a double quote, and a double quote. *)
Definition quoted_key (s : jsstring) : option jsstring :=
  match s with
  | c :: r =>
      if eqc c 34 then
        let '(k, r') := span (fun x => negb (eqc x 34)) r in
        if negb (length k =? 0) && starts_with [34%N] r' then Some k else None
      else None
  | [] => None
  end.

(** [matches.sort((a, b) => a.start - b.start)]: a stable sort; [d] comes
    from the left of the entries of [l]. *)
Fixpoint insert_by_start (d : PropParser.PropDefinition)
    (l : list PropParser.PropDefinition) : list PropParser.PropDefinition :=
  match l with
  | [] => [d]
  | d' :: r =>
      if PropParser.start d <=? PropParser.start d'
      then d :: d' :: r
      else d' :: insert_by_start d r
  end.

Definition sort_by_start (l : list PropParser.PropDefinition)
    : list PropParser.PropDefinition :=
  foldr insert_by_start [] l.

(** The diagnostic of one warning. *)
Definition diagnostic_of (propDefinitions : list PropParser.PropDefinition)
    (w : PropParser.StyleguideWarning) : Diagnostic :=
  let matchingDef :=
    match search quoted_key (PropParser.message w) with
    | Some warnedKey =>
        let matches :=
          sort_by_start
            (filter (fun def => List.last (map Some (PropParser.propPath def)) None
                                = Some warnedKey)
                    propDefinitions) in
        if 1 <? length matches then List.last (map Some matches) None
        else matches !! 0
    | None => None
    end in
  {| range :=
       match matchingDef with
       | Some def => DefinitionRange (PropParser.start def) (PropParser.end_ def)
       | None =>
           WarningRange (PropParser.line w - 1) (PropParser.column w - 1)
                        (PropParser.line w - 1) (PropParser.column w)
       end;
     message := PropParser.message w |}.

(** [byPrototype]: the definitions grouped by prototype name, the groups
    in the order their names first occur. *)
Definition group_by_prototype (propDefinitions : list PropParser.PropDefinition)
    : JsMap.t jsstring (list PropParser.PropDefinition) :=
  fold_left
    (fun m def =>
       let l := match JsMap.get (PropParser.prototypeName def) m with
                | Some l => l
                | None => []
                end in
       JsMap.set (PropParser.prototypeName def) (l ++ [def]) m)
    propDefinitions JsMap.empty.

Section Host.
(** [vscode.workspace.openTextDocument(uri)] and [getText()]: the text of
    the document, or [None] when the promise is rejected. *)
Variable openTextDocument : jsstring -> option jsstring.

(** [indexFusionFile(uri, sourceOverride, options)]: the boolean the
    promise resolves to and the state after.  [live] is the truth value of
    [options?.live].  A rejected [openTextDocument] is caught: the call
    gives [false] with the state as it is at that point. *)
Definition indexFusionFile (st : t) (u : jsstring)
    (sourceOverride : option jsstring) (live : bool) : bool * t :=
  let st1 :=
    if JsMap.has u (filePrototypeMap st) then
      {| fusionFiles := fusionFiles st;
         prototypeIndex := PrototypeIndex.removeByUri u (prototypeIndex st);
         propIndex := propIndex st;
         filePrototypeMap := JsMap.delete u (filePrototypeMap st);
         filePropMap := filePropMap st;
         diagnostics := diagnostics st |}
    else st in
  match (match sourceOverride with
         | Some s => Some s
         | None => openTextDocument u
         end) with
  | None => (false, st1)
  | Some source =>
      let pi := PrototypeIndex.indexDocument u source (prototypeIndex st1) in
      let prototypes := PrototypeIndex.getPrototypesFromDocument u pi in
      let st2 :=
        {| fusionFiles := fusionFiles st1;
           prototypeIndex := pi;
           propIndex := propIndex st1;
           filePrototypeMap := JsMap.set u prototypes (filePrototypeMap st1);
           filePropMap := filePropMap st1;
           diagnostics := diagnostics st1 |} in
      let parsed := PropParser.parsePropDefinitions source in
      let propDefinitions := PropParser.props parsed in
      if live && (length propDefinitions =? 0) then (false, st2)
      else
        let st3 :=
          if JsMap.has u (filePropMap st2) then
            {| fusionFiles := fusionFiles st2;
               prototypeIndex := prototypeIndex st2;
               propIndex := PropIndex.removeByUri u (propIndex st2);
               filePrototypeMap := filePrototypeMap st2;
               filePropMap := JsMap.delete u (filePropMap st2);
               diagnostics := JsMap.delete u (diagnostics st2) |}
          else st2 in
        match openTextDocument u with
        | None => (false, st3)
        | Some _ =>
            let byPrototype := group_by_prototype propDefinitions in
            (true,
             {| fusionFiles := fusionFiles st3;
                prototypeIndex := prototypeIndex st3;
                propIndex :=
                  fold_left
                    (fun idx '(protoName, defs) =>
                       PropIndex.indexPrototype protoName defs u idx)
                    byPrototype (propIndex st3);
                filePrototypeMap := filePrototypeMap st3;
                filePropMap :=
                  JsMap.set u (concat (map snd byPrototype)) (filePropMap st3);
                diagnostics :=
                  JsMap.set u
                    (map (diagnostic_of propDefinitions) (PropParser.warnings parsed))
                    (diagnostics st3) |})
        end
  end.

Definition reindexDocument (st : t) (u : jsstring) (source : jsstring)
    (live : bool) : bool * t :=
  indexFusionFile st u (Some source) live.

(** [initialize()]: [workspaceFiles] is what [findFiles] resolves to for the
    first workspace folder, or [None] when there are no workspace folders.
    The files are indexed in order, without override and without
    options. *)
Definition initialize (st : t) (workspaceFiles : option (list jsstring)) : t :=
  let st0 := clear st in
  match workspaceFiles with
  | None => st0
  | Some files =>
      fold_left
        (fun st file => snd (indexFusionFile st file None false))
        (fusionFiles st0 ++ files)
        {| fusionFiles := fusionFiles st0 ++ files;
           prototypeIndex := prototypeIndex st0;
           propIndex := propIndex st0;
           filePrototypeMap := filePrototypeMap st0;
           filePropMap := filePropMap st0;
           diagnostics := diagnostics st0 |}
  end.

End Host.

End WorkspaceIndex.

(** ** The prop providers (completion and go-to-definition)

    Both providers find the prototype a cursor is in with the same
    function. *)

Module Providers.
Import Js.

(** What a call gives: [document.lineAt] throws for a line the document
    does not have. *)
Inductive outcome :=
| Throws
| Returns (r : option jsstring).

(** The inner loop of [findEnclosingPrototype] over the code units in front
    of [endIndex], from the right. *)
Definition scan_braces (text : jsstring) (endIndex : nat) (depth : Z) : Z :=
  fold_left
    (fun d c =>
       if eqc c (ch "}") then (d + 1)%Z
       else if eqc c (ch "{") then (d - 1)%Z
       else d)
    (rev (take endIndex text)) depth.

(** The outer loop from [line] up to the first line. *)
Fixpoint scan_up (lines : list jsstring) (posLine posCharacter : nat)
    (line : nat) (depth : Z) : outcome :=
  match lines !! line with
  | None => Throws
  | Some text =>
      let endIndex := if line =? posLine then posCharacter else length text in
      let depth' := scan_braces text endIndex depth in
      match (if (depth' <? 0)%Z
             then search PrototypeParser.match_prototype text
             else None) with
      | Some (nm, _) => Returns (Some nm)
      | None =>
          match line with
          | 0 => Returns None
          | S l => scan_up lines posLine posCharacter l depth'
          end
      end
  end.

(** [findEnclosingPrototype(document, position)]; [lines] are the lines of
    the document. *)
Definition findEnclosingPrototype (lines : list jsstring)
    (posLine posCharacter : nat) : outcome :=
  scan_up lines posLine posCharacter posLine 0%Z.

End Providers.

(** * Vocabulary of the properties *)

(** The entry [indexPrototype] stores for a definition of the file [u]. *)
Definition as_indexed (u : jsstring) (d : PropParser.PropDefinition)
    : PropIndex.IndexedProp :=
  {| PropIndex.prototypeName := PropParser.prototypeName d;
     PropIndex.propPath := PropParser.propPath d;
     PropIndex.start := PropParser.start d;
     PropIndex.end_ := PropParser.end_ d;
     PropIndex.source := PropParser.source d;
     PropIndex.uri := u |}.

(** [b] is [a] or a space: what a neutralization pass may put in the place
    of [a]. *)
Definition kept_or_blank (a b : N) : Prop := b = a \/ b = 32%N.

(** [b] is [a], or a space in the place of something other than a line
    break. *)
Definition kept_or_blank_in_line (a b : N) : Prop :=
  b = a \/ (b = 32%N /\ a <> 10%N).

(** [s] has [a] at some index and [b] right after it. *)
Definition has_pair (a b : N) (s : jsstring) : Prop :=
  exists i, s !! i = Some a /\ s !! S i = Some b.


(** [text] is a declaration of [nm]: the word [prototype], a parenthesis
    pair and the name in it, with white space allowed where the regular
    expression allows it. *)
Definition declaration_text (text nm : jsstring) : Prop :=
  exists w1 w2 w3 : jsstring,
    Forall (fun c => Js.is_ws c = true) w1
    /\ Forall (fun c => Js.is_ws c = true) w2
    /\ Forall (fun c => Js.is_ws c = true) w3
    /\ text = Js.str "prototype" ++ w1 ++ Js.str "(" ++ w2 ++ nm ++ w3 ++ Js.str ")".

(** [x] is the element right after the prefix [usagePath] of [path]. *)
Definition child_of (usagePath path : list jsstring) (x : jsstring) : Prop :=
  length usagePath < length path
  /\ take (length usagePath) path = usagePath
  /\ path !! length usagePath = Some x.

(** Every stored entry has a non-empty [propPath]. *)
Definition paths_nonempty (idx : PropIndex.t) : Prop :=
  Forall (fun kv : jsstring * list PropIndex.IndexedProp =>
            Forall (fun e => PropIndex.propPath e <> []) kv.2) idx.

(** The orchestrator's [filePrototypeMap] and the [filePrototypes] of its
    Prototype Index record the same names for every file. *)
Definition names_in_sync (st : WorkspaceIndex.t) : Prop :=
  forall u, JsMap.get u (WorkspaceIndex.filePrototypeMap st)
            = JsMap.get u (PrototypeIndex.filePrototypes
                             (WorkspaceIndex.prototypeIndex st)).

(** At every node the keys of the children are pairwise different. *)
Inductive unique_keys : PropParser.StyleguideNode -> Prop :=
| unique_leaf p : unique_keys (PropParser.Node p None)
| unique_node p o :
    NoDup (map fst o) ->
    Forall (fun kc : jsstring * PropParser.StyleguideNode => unique_keys kc.2) o ->
    unique_keys (PropParser.Node p (Some o)).

(** The number of definitions with the path [path]. *)
Definition count_path (path : list jsstring)
    (l : list PropParser.PropDefinition) : nat :=
  length (filter (fun d => PropParser.propPath d = path) l).

(** The entry [indexDocument] stores for a declaration of the file [u]. *)
Definition as_prototype (u source : jsstring)
    (decl : PrototypeParser.PrototypeDeclaration) : PrototypeIndex.IndexedPrototype :=
  {| PrototypeIndex.name := PrototypeParser.name decl;
     PrototypeIndex.uri := u;
     PrototypeIndex.range :=
       {| PrototypeIndex.range_start :=
            PrototypeIndex.offsetToPosition source (PrototypeParser.start decl);
          PrototypeIndex.range_end :=
            PrototypeIndex.offsetToPosition source (PrototypeParser.end_ decl) |} |}.

(** The number of line feeds in [s]. *)
Definition line_feeds (s : jsstring) : nat :=
  length (filter (fun c => c = 10%N) s).

(** [k] closes the block that opens at [i]: [source] has a [}] at [k], and
    from [i] up to there as many [{] as [}]. *)
Definition closes (source : jsstring) (i k : nat) : Prop :=
  i <= k /\ source !! k = Some (Js.ch "}")
  /\ PropParser.brace_delta (Js.slice source i (S k)) = 0%Z.

(** The definition the default scanner records for a match of its pattern
    on line [n] of [lines]: [m0] is the whole match and [m1] the key. *)
Definition default_definition (protoName : jsstring) (bodyOffset : nat)
    (lines : list jsstring) (n : nat) (ln m0 m1 : jsstring)
    : PropParser.PropDefinition :=
  let start :=
    bodyOffset + (length (concat (take n lines)) + n)
    + match Js.indexOf ln m1 with Some i => i | None => 0 end in
  {| PropParser.prototypeName := protoName;
     PropParser.propPath := Js.split_on (Js.ch ".") m1;
     PropParser.start := start;
     PropParser.end_ := start + length m0;
     PropParser.source := default |}.

(** The definition [walk] pushes for [node] reached by the non-empty
    [path]. *)
Definition styleguide_definition (protoName : jsstring) (lineOffsets : list nat)
    (bodyOffset : nat) (node : PropParser.StyleguideNode) (path : list jsstring)
    : PropParser.PropDefinition :=
  let offset :=
    bodyOffset
    + match lineOffsets !! (PropParser.pos_line (PropParser.position node) - 1) with
      | Some o => o
      | None => 0
      end
    + PropParser.pos_column (PropParser.position node) - 1 in
  {| PropParser.prototypeName := protoName;
     PropParser.propPath := path;
     PropParser.start := offset;
     PropParser.end_ := offset + length (List.last path []);
     PropParser.source := styleguide |}.

(** [ln] declares [key]: it is no directive line and the block pattern or
    else the leaf pattern matches it with that key. *)
Definition declares_key (ln key : jsstring) : Prop :=
  PropParser.isDirectiveLine ln = false
  /\ ((exists indent, PropParser.openBlockRegex ln = Some (indent, key))
      \/ (exists indent, PropParser.leafRegex ln = Some (indent, key))).

(** The text [indexFusionFile] works on: the override, or else the text of
    the document. *)
Definition source_of (host : jsstring -> option jsstring) (u : jsstring)
    (sourceOverride : option jsstring) : option jsstring :=
  match sourceOverride with
  | Some s => Some s
  | None => host u
  end.

(** The states of the orchestrator: what the public methods make of the
    initial state, whatever the host answers. *)
Inductive reachable : WorkspaceIndex.t -> Prop :=
| reachable_empty : reachable WorkspaceIndex.empty
| reachable_clear st : reachable st -> reachable (WorkspaceIndex.clear st)
| reachable_initialize host st workspaceFiles :
    reachable st -> reachable (WorkspaceIndex.initialize host st workspaceFiles)
| reachable_reindexDocument host st u source live :
    reachable st ->
    reachable (WorkspaceIndex.reindexDocument host st u source live).2.

(** No entry of the Prop Index is stale or misfiled: it is stored under its
    own prototype name, the orchestrator has its file on record, and the
    index has one list per name. *)
Definition props_on_record (st : WorkspaceIndex.t) : Prop :=
  NoDup (JsMap.keys (WorkspaceIndex.propIndex st))
  /\ forall nm e,
       e ∈ PropIndex.stored (WorkspaceIndex.propIndex st) nm ->
       PropIndex.prototypeName e = nm
       /\ is_Some (JsMap.get (PropIndex.uri e) (WorkspaceIndex.filePropMap st)).

(** No entry of the Prototype Index is stale: its name is among the names
    recorded for its file. *)
Definition prototypes_on_record (idx : PrototypeIndex.t) : Prop :=
  forall nm p,
    PrototypeIndex.get nm idx = Some p ->
    PrototypeIndex.name p = nm
    /\ nm ∈ PrototypeIndex.getPrototypesFromDocument (PrototypeIndex.uri p) idx.

(** What holds in every state of the orchestrator. *)
Definition consistent (st : WorkspaceIndex.t) : Prop :=
  paths_nonempty (WorkspaceIndex.propIndex st)
  /\ names_in_sync st
  /\ props_on_record st
  /\ prototypes_on_record (WorkspaceIndex.prototypeIndex st).

(** The last segment of the path of [d] is [key]. *)
Definition last_segment_is (key : jsstring) (d : PropParser.PropDefinition) : Prop :=
  List.last (map Some (PropParser.propPath d)) None = Some key.

(** The text from the start of line [l] up to the cursor, line breaks left
    out. *)
Definition text_up_to_cursor (lines : list jsstring) (posLine posCharacter l : nat)
    : jsstring :=
  concat (take (posLine - l) (drop l lines))
  ++ (if l <=? posLine
      then take posCharacter (match lines !! posLine with Some t => t | None => [] end)
      else []).

(** Line [l] declares the prototype [nm] and opens a brace that is not
    closed before the cursor. *)
Definition encloses (lines : list jsstring) (posLine posCharacter l : nat)
    (nm : jsstring) : Prop :=
  exists text rest,
    lines !! l = Some text
    /\ Js.search PrototypeParser.match_prototype text = Some (nm, rest)
    /\ (0 < PropParser.brace_delta (text_up_to_cursor lines posLine posCharacter l))%Z.

(** [r] refers to a block of the tree: a node with a [children] object. *)
Definition block_at (r : PropParser.noderef) (root : PropParser.StyleguideNode)
    : Prop :=
  exists p o, PropParser.node_at r root = Some (PropParser.Node p (Some o)).

(** What of a node does not depend on its descendants: its position and
    whether it is a block. *)
Definition shape (n : PropParser.StyleguideNode) : PropParser.Position * bool :=
  (PropParser.position n,
   match PropParser.children n with Some _ => true | None => false end).

(** The position of [n] is that of the text [key] in a line of [lines]:
    the line number counts from one, and so does the column. *)
Definition at_key_text (lines : list jsstring) (key : jsstring)
    (n : PropParser.StyleguideNode) : Prop :=
  exists ln pre post,
    1 <= PropParser.pos_line (PropParser.position n)
    /\ lines !! (PropParser.pos_line (PropParser.position n) - 1) = Some ln
    /\ ln = pre ++ key ++ post
    /\ PropParser.pos_column (PropParser.position n) = length pre + 1.

(** What the parser keeps between two lines: [current] is the innermost
    open block, every open block is a block of the tree, and every node
    below the root sits at the text of its key. *)
Definition parser_invariant (lines : list jsstring) (st : PropParser.state) : Prop :=
  PropParser.current st = List.last (map Some (PropParser.stack st)) None
  /\ Forall (fun r => block_at r (PropParser.root_props st)) (PropParser.stack st)
  /\ block_at [] (PropParser.root_props st)
  /\ forall path key n,
       PropParser.node_at (path ++ [key]) (PropParser.root_props st) = Some n ->
       at_key_text lines key n.

(** * Example inputs *)

(** Two files that declare the same prototype [X]; [g] is indexed last. *)
Definition file_f : jsstring := Js.str "file:///f.fusion".
Definition file_g : jsstring := Js.str "file:///g.fusion".
Definition source_X : jsstring := Js.str "prototype(X) { }".
Definition indexed_f_then_g : PrototypeIndex.t :=
  PrototypeIndex.indexDocument file_g source_X
    (PrototypeIndex.indexDocument file_f source_X PrototypeIndex.empty).

(** Definitions of [X] and of [Y] as a parser would give them. *)
Definition definition_of (nm : jsstring) (path : list jsstring) (s e : nat)
    : PropParser.PropDefinition :=
  {| PropParser.prototypeName := nm;
     PropParser.propPath := path;
     PropParser.start := s;
     PropParser.end_ := e;
     PropParser.source := styleguide |}.

Definition definitions_XY : list PropParser.PropDefinition :=
  [definition_of (Js.str "X") [Js.str "foo"] 0 3;
   definition_of (Js.str "Y") [Js.str "bar"] 10 13;
   definition_of (Js.str "X") [Js.str "foo"; Js.str "baz"] 20 23].

(** A Prop Index with entries of the files [f] and [g] for [X], and of [g]
    alone for [Y]. *)
Definition index_f_and_g : PropIndex.t :=
  PropIndex.indexPrototype (Js.str "Y") definitions_XY file_g
    (PropIndex.indexPrototype (Js.str "X") definitions_XY file_g
       (PropIndex.indexPrototype (Js.str "X") definitions_XY file_f JsMap.empty)).

(** [g] declares [Y] too, which [f] never recorded. *)
Definition source_XY : jsstring := Js.str "prototype(X) { } prototype(Y) { }".
Definition indexed_f_then_gXY : PrototypeIndex.t :=
  PrototypeIndex.indexDocument file_g source_XY
    (PrototypeIndex.indexDocument file_f source_X PrototypeIndex.empty).

(** A file indexed from good text, then edited live into text with an
    unbalanced brace. *)
Definition good_source : jsstring := Js.str "prototype(X) { foo = 1 }".
Definition broken_source : jsstring := Js.str "prototype(Y) { foo = 1".
Definition host_good (u : jsstring) : option jsstring := Some good_source.
Definition indexed_good : WorkspaceIndex.t :=
  (WorkspaceIndex.indexFusionFile host_good WorkspaceIndex.empty file_f None false).2.

(** Entries of a Prop Index for [X].  The example of the specification
    has [baz] and [bar.baz]; the example of the source has [foo.bar],
    [foo.baz] and [foo.baz.qux]. *)
Definition entry (path : list jsstring) (s e : nat) : PropIndex.IndexedProp :=
  {| PropIndex.prototypeName := Js.str "X";
     PropIndex.propPath := path;
     PropIndex.start := s;
     PropIndex.end_ := e;
     PropIndex.source := styleguide;
     PropIndex.uri := file_f |}.

Definition index_baz : PropIndex.t :=
  [(Js.str "X", [entry [Js.str "baz"] 10 13;
                 entry [Js.str "bar"; Js.str "baz"] 20 23])].

Definition index_foo : PropIndex.t :=
  [(Js.str "X", [entry [Js.str "foo"; Js.str "bar"] 0 3;
                 entry [Js.str "foo"; Js.str "baz"] 10 13;
                 entry [Js.str "foo"; Js.str "baz"; Js.str "qux"] 20 23])].

(** A styleguide [foo.baz] next to the defaults [baz] and [foo]. *)
Definition source_foo_baz : jsstring :=
  Js.str "prototype(X) {" ++ [10%N]
  ++ Js.str "  @styleguide {" ++ [10%N]
  ++ Js.str "    props {" ++ [10%N]
  ++ Js.str "      foo {" ++ [10%N]
  ++ Js.str "        baz = 1" ++ [10%N]
  ++ Js.str "      }" ++ [10%N]
  ++ Js.str "    }" ++ [10%N]
  ++ Js.str "  }" ++ [10%N]
  ++ Js.str "  baz = null" ++ [10%N]
  ++ Js.str "  foo = null" ++ [10%N]
  ++ Js.str "}".

(** Two blocks of the prototype [X]: the first declares [a] in its
    styleguide and [b] as a default, the second [z] in its styleguide and
    [a] as a default. *)
Definition source_X_two_blocks : jsstring :=
  Js.str "prototype(X) {" ++ [10%N]
  ++ Js.str "  @styleguide {" ++ [10%N]
  ++ Js.str "    props {" ++ [10%N]
  ++ Js.str "      a = 1" ++ [10%N]
  ++ Js.str "    }" ++ [10%N]
  ++ Js.str "  }" ++ [10%N]
  ++ Js.str "  b = null" ++ [10%N]
  ++ Js.str "}" ++ [10%N]
  ++ Js.str "prototype(X) {" ++ [10%N]
  ++ Js.str "  @styleguide {" ++ [10%N]
  ++ Js.str "    props {" ++ [10%N]
  ++ Js.str "      z = 1" ++ [10%N]
  ++ Js.str "    }" ++ [10%N]
  ++ Js.str "  }" ++ [10%N]
  ++ Js.str "  a = null" ++ [10%N]
  ++ Js.str "}".

(** The one-line example of a default prop. *)
Definition source_foo_bar : jsstring := Js.str "prototype(X) { foo.bar = null }".

(** Two default props in a text with CR LF line breaks. *)
Definition source_crlf : jsstring :=
  Js.str "prototype(A) {" ++ [13%N; 10%N]
  ++ Js.str "  foo = 1" ++ [13%N; 10%N]
  ++ Js.str "  bar = 2" ++ [13%N; 10%N]
  ++ Js.str "}".

(** The source of the duplicate-block example, on one line as quoted and
    one construct per line. *)
Definition source_dup_one_line : jsstring :=
  Js.str "prototype(Foo:Bar) { @styleguide { props { a { b = 1 } a { b = 2 } } } }".

Definition source_dup_lines : jsstring :=
  Js.str "prototype(Foo:Bar) {" ++ [10%N]
  ++ Js.str "  @styleguide {" ++ [10%N]
  ++ Js.str "    props {" ++ [10%N]
  ++ Js.str "      a {" ++ [10%N]
  ++ Js.str "        b = 1" ++ [10%N]
  ++ Js.str "      }" ++ [10%N]
  ++ Js.str "      a {" ++ [10%N]
  ++ Js.str "        b = 2" ++ [10%N]
  ++ Js.str "      }" ++ [10%N]
  ++ Js.str "    }" ++ [10%N]
  ++ Js.str "  }" ++ [10%N]
  ++ Js.str "}".

(** A prototype body whose only key names a member of
    [Object.prototype]. *)
Definition body_constructor : jsstring :=
  [10%N]
  ++ Js.str "  @styleguide {" ++ [10%N]
  ++ Js.str "    props {" ++ [10%N]
  ++ Js.str "      constructor = 1" ++ [10%N]
  ++ Js.str "    }" ++ [10%N]
  ++ Js.str "  }" ++ [10%N].

(** A prototype body with a key declared once at the root and once inside
    a block that repeats an earlier sibling. *)
Definition body_nested_x : jsstring :=
  [10%N]
  ++ Js.str "  @styleguide {" ++ [10%N]
  ++ Js.str "    props {" ++ [10%N]
  ++ Js.str "      x = 0" ++ [10%N]
  ++ Js.str "      a {" ++ [10%N]
  ++ Js.str "      }" ++ [10%N]
  ++ Js.str "      a {" ++ [10%N]
  ++ Js.str "        x = 2" ++ [10%N]
  ++ Js.str "      }" ++ [10%N]
  ++ Js.str "    }" ++ [10%N]
  ++ Js.str "  }" ++ [10%N].

Definition source_X_twice : jsstring :=
  Js.str "prototype(X) { }" ++ [10%N] ++ Js.str "prototype(X) { }".

Definition body_defaults_only : jsstring :=
  Js.str "foo = 1" ++ [10%N] ++ Js.str "bar = 2".

(** A second text for the file of [indexed_good], and a host that opens
    no document. *)
Definition better_source : jsstring := Js.str "prototype(X) { bar = 1 }".
Definition host_none (u : jsstring) : option jsstring := None.
Definition reindexed_good : WorkspaceIndex.t :=
  (WorkspaceIndex.reindexDocument host_good WorkspaceIndex.empty file_f good_source
     false).2.

(** A warning for the key [a] and two definitions that end in [a]. *)
Definition warning_a : PropParser.StyleguideWarning :=
  {| PropParser.message := PropParser.duplicate_message (Js.str "a");
     PropParser.line := 7; PropParser.column := 7 |}.
Definition definitions_a : list PropParser.PropDefinition :=
  [definition_of (Js.str "X") [Js.str "b"; Js.str "a"] 40 41;
   definition_of (Js.str "X") [Js.str "a"] 12 13;
   definition_of (Js.str "X") [Js.str "c"] 60 61].

(** * Properties *)

(** ** Maps *)

Section JsMapFacts.
Context {K V : Type} `{EqDecision K}.
Implicit Types (m : JsMap.t K V) (k : K) (v : V).

Lemma get_set_eq m k v : JsMap.get k (JsMap.set k v m) = Some v.
Proof.
  induction m as [|[k' v'] m IH]; simpl.
  - by rewrite decide_True.
  - destruct (decide (k = k')) as [->|Hne]; simpl.
    + by rewrite decide_True.
    + by rewrite decide_False.
Qed.

Lemma get_set_ne m k k' v : k ≠ k' -> JsMap.get k' (JsMap.set k v m) = JsMap.get k' m.
Proof.
  intros Hne. induction m as [|[k0 v0] m IH]; simpl.
  - by rewrite decide_False.
  - destruct (decide (k = k0)) as [->|Hne0]; simpl.
    + by rewrite !decide_False.
    + destruct (decide (k' = k0)); [done | apply IH].
Qed.

Lemma get_delete_eq m k : JsMap.get k (JsMap.delete k m) = None.
Proof.
  induction m as [|[k' v'] m IH]; simpl; [done|].
  destruct (decide (k = k')) as [->|Hne]; simpl; [done|].
  by rewrite decide_False.
Qed.

Lemma get_delete_ne m k k' : k ≠ k' -> JsMap.get k' (JsMap.delete k m) = JsMap.get k' m.
Proof.
  intros Hne. induction m as [|[k0 v0] m IH]; simpl; [done|].
  destruct (decide (k = k0)) as [->|Hne0]; simpl.
  - by rewrite decide_False.
  - destruct (decide (k' = k0)); [done | apply IH].
Qed.

(** Deleting a list of keys, as the loop of [removeByUri] does. *)
Lemma get_delete_all_in m (ks : list K) k :
  k ∈ ks -> JsMap.get k (fold_left (fun m k' => JsMap.delete k' m) ks m) = None.
Proof.
  revert m. induction ks as [|k0 ks IH]; intros m Hin; simpl.
  - by apply elem_of_nil in Hin.
  - destruct (decide (k ∈ ks)) as [Hks|Hks]; [by apply IH|].
    apply elem_of_cons in Hin as [->|Hin]; [|done].
    clear IH. revert m. induction ks as [|k1 ks IH]; intros m; simpl.
    + apply get_delete_eq.
    + apply not_elem_of_cons in Hks as [Hne Hks].
      specialize (IH Hks (JsMap.delete k1 m)).
      assert (Hcomm : JsMap.delete k1 (JsMap.delete k0 m)
                      = JsMap.delete k0 (JsMap.delete k1 m)).
      { clear. induction m as [|[k v] m IHm]; simpl; [done|].
        destruct (decide (k0 = k)), (decide (k1 = k)); simpl;
          rewrite ?decide_True, ?decide_False by done; congruence. }
      by rewrite Hcomm.
Qed.

Lemma get_delete_all_notin m (ks : list K) k :
  k ∉ ks -> JsMap.get k (fold_left (fun m k' => JsMap.delete k' m) ks m) = JsMap.get k m.
Proof.
  revert m. induction ks as [|k0 ks IH]; intros m Hin; simpl; [done|].
  apply not_elem_of_cons in Hin as [Hne Hin].
  rewrite IH by done. by apply get_delete_ne.
Qed.

End JsMapFacts.

(** ** The Prototype Index *)

Section PrototypeIndexFacts.
Import PrototypeIndex.

Lemma removeByUri_get_recorded (idx : t) (f nm : jsstring) :
  nm ∈ getPrototypesFromDocument f idx -> get nm (removeByUri f idx) = None.
Proof.
  unfold getPrototypesFromDocument, removeByUri, get.
  destruct (JsMap.get f (filePrototypes idx)) as [names|] eqn:E; simpl.
  - apply get_delete_all_in.
  - intros Hin. by apply elem_of_nil in Hin.
Qed.

Lemma removeByUri_get_other (idx : t) (f nm : jsstring) :
  nm ∉ getPrototypesFromDocument f idx -> get nm (removeByUri f idx) = get nm idx.
Proof.
  unfold getPrototypesFromDocument, removeByUri, get.
  destruct (JsMap.get f (filePrototypes idx)) as [names|] eqn:E; simpl; [|done].
  apply get_delete_all_notin.
Qed.

Lemma indexDocument_names (idx : t) (f source : jsstring) :
  getPrototypesFromDocument f (indexDocument f source idx)
  = map PrototypeParser.name (PrototypeParser.parsePrototypes source).
Proof.
  unfold getPrototypesFromDocument, indexDocument; simpl.
  by rewrite get_set_eq.
Qed.

(** C10: after [clear()], [get] finds no name and [getAllNames()] is empty,
    while [getPrototypesFromDocument] answers for every file as it did
    before the call; for a file indexed right before the call these are the
    names declared in its source. *)
Theorem clear_keeps_file_names (idx : t) :
  (forall nm, get nm (clear idx) = None)
  /\ getAllNames (clear idx) = []
  /\ (forall f, getPrototypesFromDocument f (clear idx)
                = getPrototypesFromDocument f idx)
  /\ (forall f source,
        getPrototypesFromDocument f (clear (indexDocument f source idx))
        = map PrototypeParser.name (PrototypeParser.parsePrototypes source)).
Proof.
  repeat split.
  intros f source.
  change (getPrototypesFromDocument f (clear (indexDocument f source idx)))
    with (getPrototypesFromDocument f (indexDocument f source idx)).
  apply indexDocument_names.
Qed.

(** C8, as stated, fails: [f] and [g] both declare [X], [g] was indexed
    last and owns the entry of [X], and [removeByUri(f)] deletes it. *)
Lemma removeByUri_deletes_foreign_entry :
  file_f <> file_g
  /\ uri <$> get (Js.str "X") indexed_f_then_g = Some file_g
  /\ get (Js.str "X") (removeByUri file_f indexed_f_then_g) = None
  /\ get (Js.str "X") (removeByUri file_f indexed_f_then_g)
     <> get (Js.str "X") indexed_f_then_g.
Proof. vm_compute. repeat split; congruence. Qed.

(** C8, amended: [removeByUri(f)] deletes by name.  It leaves [get(name)]
    unchanged for every name that is not in the list recorded for [f], and
    after it [get(name)] finds nothing for every name in that list, whoever
    owns the entry. *)
Theorem removeByUri_frame (idx : t) (f nm : jsstring) :
  (nm ∉ getPrototypesFromDocument f idx ->
   get nm (removeByUri f idx) = get nm idx)
  /\ (nm ∈ getPrototypesFromDocument f idx ->
      get nm (removeByUri f idx) = None).
Proof.
  split; [apply removeByUri_get_other | apply removeByUri_get_recorded].
Qed.

(** [g]'s own [Y], which [f] never recorded, survives [removeByUri(f)];
    [X], which [f] recorded, does not. *)
Lemma removeByUri_frame_witness :
  (uri <$> get (Js.str "Y") (removeByUri file_f indexed_f_then_gXY) = Some file_g)
  /\ get (Js.str "X") (removeByUri file_f indexed_f_then_gXY) = None.
Proof.
  split.
  - rewrite (proj1 (removeByUri_frame indexed_f_then_gXY file_f (Js.str "Y"))).
    + vm_compute. reflexivity.
    + vm_compute. intros H. repeat (apply elem_of_cons in H as [H|H]; [discriminate|]).
      by apply elem_of_nil in H.
  - apply (proj2 (removeByUri_frame indexed_f_then_gXY file_f (Js.str "X"))).
    vm_compute. apply list_elem_of_here.
Defined.

End PrototypeIndexFacts.

(** ** The orchestrator *)

Section IndexDocumentFacts.
Import PrototypeIndex.

(** The loop of [indexDocument] over the declarations. *)
Lemma index_loop_other (u source : jsstring)
    (decls : list PrototypeParser.PrototypeDeclaration)
    (m : JsMap.t jsstring IndexedPrototype) (nm : jsstring) :
  nm ∉ map PrototypeParser.name decls ->
  JsMap.get nm
    (fold_left
       (fun m decl =>
          JsMap.set (PrototypeParser.name decl)
            {| name := PrototypeParser.name decl; uri := u;
               range :=
                 {| range_start := offsetToPosition source (PrototypeParser.start decl);
                    range_end := offsetToPosition source (PrototypeParser.end_ decl) |} |}
            m)
       decls m)
  = JsMap.get nm m.
Proof.
  revert m. induction decls as [|d decls IH]; intros m Hnot; simpl; [done|].
  simpl in Hnot. apply not_elem_of_cons in Hnot as [Hne Hnot].
  rewrite IH by done. by apply get_set_ne.
Qed.

Lemma index_loop_declared (u source : jsstring)
    (decls : list PrototypeParser.PrototypeDeclaration)
    (m : JsMap.t jsstring IndexedPrototype) (nm : jsstring) :
  nm ∈ map PrototypeParser.name decls ->
  uri <$> JsMap.get nm
    (fold_left
       (fun m decl =>
          JsMap.set (PrototypeParser.name decl)
            {| name := PrototypeParser.name decl; uri := u;
               range :=
                 {| range_start := offsetToPosition source (PrototypeParser.start decl);
                    range_end := offsetToPosition source (PrototypeParser.end_ decl) |} |}
            m)
       decls m)
  = Some u.
Proof.
  revert m. induction decls as [|d decls IH]; intros m Hin; simpl.
  - by apply elem_of_nil in Hin.
  - destruct (decide (nm ∈ map PrototypeParser.name decls)) as [Hl|Hl].
    + by apply IH.
    + simpl in Hin. apply elem_of_cons in Hin as [->|Hin]; [|done].
      rewrite index_loop_other by done. by rewrite get_set_eq.
Qed.

Lemma indexDocument_declared (idx : t) (u source nm : jsstring) :
  nm ∈ map PrototypeParser.name (PrototypeParser.parsePrototypes source) ->
  uri <$> get nm (indexDocument u source idx) = Some u.
Proof. apply index_loop_declared. Qed.

Lemma indexDocument_other (idx : t) (u source nm : jsstring) :
  nm ∉ map PrototypeParser.name (PrototypeParser.parsePrototypes source) ->
  get nm (indexDocument u source idx) = get nm idx.
Proof. apply index_loop_other. Qed.

End IndexDocumentFacts.

Section WorkspaceFacts.
Import WorkspaceIndex.
Variable openTextDocument : jsstring -> option jsstring.

Lemma names_in_sync_empty : names_in_sync empty.
Proof. by intros u. Qed.

Lemma names_in_sync_clear (st : t) : names_in_sync st -> names_in_sync (clear st).
Proof. intros Hs u. apply Hs. Qed.

Lemma names_in_sync_untracked (st : t) (u : jsstring) :
  names_in_sync st ->
  JsMap.has u (filePrototypeMap st) = false ->
  PrototypeIndex.removeByUri u (prototypeIndex st) = prototypeIndex st.
Proof.
  intros Hs Hhas. unfold JsMap.has in Hhas. unfold PrototypeIndex.removeByUri.
  rewrite <- Hs. by destruct (JsMap.get u (filePrototypeMap st)).
Qed.

Lemma indexFusionFile_names_in_sync (st : t) (u : jsstring)
    (sourceOverride : option jsstring) (live : bool) :
  names_in_sync st ->
  names_in_sync (indexFusionFile openTextDocument st u sourceOverride live).2.
Proof.
  intros Hs. unfold indexFusionFile.
  assert (Hs1 : names_in_sync
    (if JsMap.has u (filePrototypeMap st)
     then {| fusionFiles := fusionFiles st;
             prototypeIndex := PrototypeIndex.removeByUri u (prototypeIndex st);
             propIndex := propIndex st;
             filePrototypeMap := JsMap.delete u (filePrototypeMap st);
             filePropMap := filePropMap st;
             diagnostics := diagnostics st |}
     else st)).
  { destruct (JsMap.has u (filePrototypeMap st)) eqn:Eh; [|done].
    intros v. simpl. unfold PrototypeIndex.removeByUri.
    unfold JsMap.has in Eh. rewrite <- (Hs u).
    destruct (JsMap.get u (filePrototypeMap st)) as [names|]; [|discriminate]. simpl.
    destruct (decide (u = v)) as [->|Hne].
    - by rewrite !get_delete_eq.
    - rewrite !get_delete_ne by done. apply Hs. }
  revert Hs1. generalize (if JsMap.has u (filePrototypeMap st)
     then {| fusionFiles := fusionFiles st;
             prototypeIndex := PrototypeIndex.removeByUri u (prototypeIndex st);
             propIndex := propIndex st;
             filePrototypeMap := JsMap.delete u (filePrototypeMap st);
             filePropMap := filePropMap st;
             diagnostics := diagnostics st |}
     else st).
  intros st1 Hs1.
  destruct (match sourceOverride with Some s => Some s | None => openTextDocument u end)
    as [source|]; simpl; [|done].
  assert (Hs2 : forall v,
    JsMap.get v
      (JsMap.set u
         (PrototypeIndex.getPrototypesFromDocument u
            (PrototypeIndex.indexDocument u source (prototypeIndex st1)))
         (filePrototypeMap st1))
    = JsMap.get v
        (PrototypeIndex.filePrototypes
           (PrototypeIndex.indexDocument u source (prototypeIndex st1)))).
  { intros v. rewrite indexDocument_names. simpl.
    destruct (decide (u = v)) as [->|Hne].
    - by rewrite !get_set_eq.
    - rewrite !get_set_ne by done. apply Hs1. }
  destruct (live && _); simpl; [exact Hs2|].
  destruct (JsMap.has u (filePropMap st1)); simpl;
    destruct (openTextDocument u); simpl; exact Hs2.
Qed.

(** C3: a call of [indexFusionFile] with the live flag set, whose current
    source (the override, or else the text of the document) parses to no
    prop definition, resolves to [false] and leaves the Prop Index, the
    diagnostics and the per-file prop map as they were.  The Prototype
    Index is updated all the same: it is the index of the current source
    over the index from which the names recorded for the file were removed
    (the removal is guarded by the orchestrator's own record of the file,
    which agrees with the record of the Prototype Index in every state the
    orchestrator reaches), so every name the source declares belongs to
    this file after the call, and a recorded name the source no longer
    declares is gone. *)
Theorem live_edit_keeps_props (st : t) (u source : jsstring)
    (sourceOverride : option jsstring) :
  match sourceOverride with
  | Some s => Some s
  | None => openTextDocument u
  end = Some source ->
  PropParser.props (PropParser.parsePropDefinitions source) = [] ->
  let r := indexFusionFile openTextDocument st u sourceOverride true in
  let declared :=
    map PrototypeParser.name (PrototypeParser.parsePrototypes source) in
  r.1 = false
  /\ propIndex r.2 = propIndex st
  /\ diagnostics r.2 = diagnostics st
  /\ filePropMap r.2 = filePropMap st
  /\ prototypeIndex r.2
     = PrototypeIndex.indexDocument u source
         (if JsMap.has u (filePrototypeMap st)
          then PrototypeIndex.removeByUri u (prototypeIndex st)
          else prototypeIndex st)
  /\ (names_in_sync st ->
      prototypeIndex r.2
      = PrototypeIndex.indexDocument u source
          (PrototypeIndex.removeByUri u (prototypeIndex st)))
  /\ JsMap.get u (filePrototypeMap r.2) = Some declared
  /\ (forall nm, nm ∈ declared ->
        PrototypeIndex.uri <$> PrototypeIndex.get nm (prototypeIndex r.2) = Some u)
  /\ (forall nm,
        JsMap.has u (filePrototypeMap st) = true ->
        nm ∈ PrototypeIndex.getPrototypesFromDocument u (prototypeIndex st) ->
        nm ∉ declared ->
        PrototypeIndex.get nm (prototypeIndex r.2) = None).
Proof.
  intros Hsrc Hprops r declared.
  assert (Hr : r = (false,
    {| fusionFiles := fusionFiles st;
       prototypeIndex :=
         PrototypeIndex.indexDocument u source
           (if JsMap.has u (filePrototypeMap st)
            then PrototypeIndex.removeByUri u (prototypeIndex st)
            else prototypeIndex st);
       propIndex := propIndex st;
       filePrototypeMap :=
         JsMap.set u declared
           (if JsMap.has u (filePrototypeMap st)
            then JsMap.delete u (filePrototypeMap st)
            else filePrototypeMap st);
       filePropMap := filePropMap st;
       diagnostics := diagnostics st |})).
  { subst r. unfold indexFusionFile. rewrite Hsrc, Hprops. simpl.
    rewrite indexDocument_names.
    destruct (JsMap.has u (filePrototypeMap st)); reflexivity. }
  rewrite Hr; simpl.
  repeat split.
  - intros Hs. destruct (JsMap.has u (filePrototypeMap st)) eqn:Eh; [done|].
    by rewrite names_in_sync_untracked.
  - apply get_set_eq.
  - intros nm Hin. by apply indexDocument_declared.
  - intros nm Htracked Hrec Hnot. rewrite Htracked.
    rewrite indexDocument_other by done.
    by apply removeByUri_get_recorded.
Qed.

End WorkspaceFacts.

(** The live edit of the indexed file into broken text: the call gives
    [false], the props and diagnostics of the good text stay, and [X] is
    gone from the Prototype Index. *)
Lemma live_edit_keeps_props_witness :
  PropIndex.stored (WorkspaceIndex.propIndex indexed_good) (Js.str "X") <> []
  /\ (WorkspaceIndex.reindexDocument host_good indexed_good file_f broken_source true).1
     = false
  /\ WorkspaceIndex.propIndex
       (WorkspaceIndex.reindexDocument host_good indexed_good file_f broken_source true).2
     = WorkspaceIndex.propIndex indexed_good
  /\ WorkspaceIndex.diagnostics
       (WorkspaceIndex.reindexDocument host_good indexed_good file_f broken_source true).2
     = WorkspaceIndex.diagnostics indexed_good
  /\ PrototypeIndex.get (Js.str "X")
       (WorkspaceIndex.prototypeIndex
          (WorkspaceIndex.reindexDocument host_good indexed_good file_f broken_source true).2)
     = None.
Proof.
  pose proof (live_edit_keeps_props host_good indexed_good file_f broken_source
                (Some broken_source) eq_refl) as H.
  assert (Hp : PropParser.props (PropParser.parsePropDefinitions broken_source) = [])
    by (vm_compute; reflexivity).
  specialize (H Hp). cbv zeta in H.
  destruct H as (H1 & H2 & H3 & _ & _ & _ & _ & _ & H8).
  split; [vm_compute; discriminate|].
  split; [exact H1|]. split; [exact H2|]. split; [exact H3|].
  apply H8.
  - vm_compute. reflexivity.
  - vm_compute. apply list_elem_of_here.
  - vm_compute. intros H. apply elem_of_cons in H as [H|H]; [discriminate|].
    by apply elem_of_nil in H.
Defined.

(** ** The Prop Index *)

Section PropIndexFacts.
Import PropIndex.

Lemma pathsEqual_spec (a b : list jsstring) : pathsEqual a b = true <-> a = b.
Proof.
  unfold pathsEqual. split.
  - destruct (length a =? length b) eqn:El; simpl; [|discriminate].
    apply Nat.eqb_eq in El. rewrite forallb_forall. intros Hall.
    apply list_eq. intros i.
    destruct (decide (i < length a)) as [Hlt|Hge].
    + specialize (Hall i). rewrite in_seq in Hall.
      apply (bool_decide_eq_true_1 _). apply Hall. lia.
    + rewrite (lookup_ge_None_2 a), (lookup_ge_None_2 b) by lia. done.
  - intros ->. rewrite Nat.eqb_refl. simpl. apply forallb_forall.
    intros i _. by apply bool_decide_eq_true_2.
Qed.

Lemma isSuffix_spec (full candidate : list jsstring) :
  isSuffix full candidate = true <-> candidate `suffix_of` full.
Proof.
  unfold isSuffix. split.
  - destruct (length full <? length candidate) eqn:El; [discriminate|].
    apply Nat.ltb_ge in El. rewrite forallb_forall. intros Hall.
    exists (take (length full - length candidate) full).
    rewrite <- (take_drop (length full - length candidate) full) at 1.
    f_equal. apply list_eq. intros k. rewrite lookup_drop.
    destruct (decide (k < length candidate)) as [Hlt|Hge].
    + specialize (Hall (length candidate - k)). rewrite in_seq in Hall.
      assert (Hin : 1 <= length candidate - k < 1 + length candidate) by lia.
      apply Hall, bool_decide_eq_true in Hin.
      replace (length full - (length candidate - k))
        with (length full - length candidate + k) in Hin by lia.
      replace (length candidate - (length candidate - k)) with k in Hin by lia.
      done.
    + rewrite (lookup_ge_None_2 candidate) by lia.
      apply lookup_ge_None_2. lia.
  - intros [k ->]. rewrite length_app.
    destruct (length k + length candidate <? length candidate) eqn:El.
    { apply Nat.ltb_lt in El. lia. }
    apply forallb_forall. intros i Hi. rewrite in_seq in Hi.
    apply bool_decide_eq_true_2.
    rewrite lookup_app_r by lia. f_equal. lia.
Qed.

Lemma find_first {A : Type} (f : A -> bool) (l : list A) :
  match find f l with
  | Some e =>
      exists i, l !! i = Some e /\ f e = true
                /\ forall j e', j < i -> l !! j = Some e' -> f e' = false
  | None => forall e, e ∈ l -> f e = false
  end.
Proof.
  induction l as [|x l IH]; simpl.
  - intros e He. by apply elem_of_nil in He.
  - destruct (f x) eqn:Ex.
    + exists 0. repeat split; [done|]. intros j e' Hj. lia.
    + destruct (find f l) as [e|].
      * destruct IH as (i & Hi & He & Hbefore).
        exists (S i). repeat split; [done..|].
        intros [|j] e' Hj Hl; simpl in Hl.
        -- by injection Hl as <-.
        -- apply (Hbefore j); [lia | done].
      * intros e He. apply elem_of_cons in He as [->|He]; [done | by apply IH].
Qed.

(** The state of the second loop of [resolve] after the entries [l]. *)
Lemma resolve_fold (usagePath : list jsstring) (l : list IndexedProp) :
  Forall (fun e => propPath e <> []) l ->
  match fold_left (resolve_step usagePath) l (None, 0) with
  | (None, len) =>
      len = 0 /\ forall e, e ∈ l -> ~ propPath e `suffix_of` usagePath
  | (Some e, len) =>
      len = length (propPath e)
      /\ exists i, l !! i = Some e
         /\ propPath e `suffix_of` usagePath
         /\ (forall e', e' ∈ l -> propPath e' `suffix_of` usagePath ->
               length (propPath e') <= length (propPath e))
         /\ (forall j e', j < i -> l !! j = Some e' ->
               propPath e' `suffix_of` usagePath ->
               length (propPath e') < length (propPath e))
  end.
Proof.
  induction l as [|x l IH] using rev_ind; intros Hne.
  - simpl. split; [done|]. intros e He. by apply elem_of_nil in He.
  - apply Forall_app in Hne as [Hne Hx]. rewrite Forall_singleton in Hx.
    specialize (IH Hne). rewrite fold_left_app. simpl.
    destruct (fold_left (resolve_step usagePath) l (None, 0)) as [best len].
    unfold resolve_step; simpl.
    destruct (isSuffix usagePath (propPath x)) eqn:Es.
    + apply isSuffix_spec in Es.
      destruct (len <? length (propPath x)) eqn:El.
      * apply Nat.ltb_lt in El. split; [done|].
        exists (length l). split; [by rewrite list_lookup_middle|].
        split; [done|].
        assert (Hbound : forall e', e' ∈ l -> propPath e' `suffix_of` usagePath ->
                           length (propPath e') <= len).
        { intros e' He' Hs'. destruct best as [e|].
          - destruct IH as (-> & i & _ & _ & Hmax & _). by apply Hmax.
          - destruct IH as (_ & Hnone). by destruct (Hnone e' He'). }
        split.
        -- intros e' He' Hs'. apply elem_of_app in He' as [He'|He'].
           ++ specialize (Hbound e' He' Hs'). lia.
           ++ apply list_elem_of_singleton in He' as ->. lia.
        -- intros j e' Hj Hl Hs'. rewrite lookup_app_l in Hl by done.
           apply list_elem_of_lookup_2 in Hl. specialize (Hbound e' Hl Hs'). lia.
      * apply Nat.ltb_ge in El. destruct best as [e|].
        -- destruct IH as (-> & i & Hi & Hs & Hmax & Hfirst). split; [done|].
           exists i. split; [by apply lookup_app_l_Some|]. split; [done|]. split.
           ++ intros e' He' Hs'. apply elem_of_app in He' as [He'|He'].
              ** by apply Hmax.
              ** by apply list_elem_of_singleton in He' as ->.
           ++ intros j e' Hj Hl Hs'. apply (Hfirst j); [done| |done].
              apply lookup_lt_Some in Hi. by rewrite lookup_app_l in Hl by lia.
        -- destruct IH as (-> & Hnone). split; [done|].
           intros e' He'. apply elem_of_app in He' as [He'|He'].
           ++ by apply Hnone.
           ++ apply list_elem_of_singleton in He' as ->.
              intros _. apply Hx, nil_length_inv. lia.
    + assert (Hx' : ~ propPath x `suffix_of` usagePath).
      { intros Hs. apply isSuffix_spec in Hs. congruence. }
      destruct best as [e|].
      * destruct IH as (-> & i & Hi & Hs & Hmax & Hfirst). split; [done|].
        exists i. split; [by apply lookup_app_l_Some|]. split; [done|]. split.
        -- intros e' He' Hs'. apply elem_of_app in He' as [He'|He'].
           ++ by apply Hmax.
           ++ apply list_elem_of_singleton in He' as ->. done.
        -- intros j e' Hj Hl Hs'. apply (Hfirst j); [done| |done].
           apply lookup_lt_Some in Hi. by rewrite lookup_app_l in Hl by lia.
      * destruct IH as (-> & Hnone). split; [done|].
        intros e' He'. apply elem_of_app in He' as [He'|He'].
        -- by apply Hnone.
        -- by apply list_elem_of_singleton in He' as ->.
Qed.

(** C1: [resolve] answers from the list stored for the prototype.  When it
    returns an entry, the entry is either the first one in list order whose
    [propPath] equals the usage path, or - no entry being equal to the
    usage path - the first one of greatest [propPath] length among the
    entries whose [propPath] is a suffix of the usage path.  When it returns
    nothing, no stored entry has a [propPath] that is a suffix of the usage
    path (so none is equal to it either).  Stored paths are not empty, as
    the data model has it. *)
Theorem resolve_exact_then_longest_suffix (idx : t) (protoName : jsstring)
    (usagePath : list jsstring) :
  Forall (fun e => propPath e <> []) (stored idx protoName) ->
  match resolve idx protoName usagePath with
  | Some e =>
      exists i, stored idx protoName !! i = Some e
      /\ ((propPath e = usagePath
           /\ forall j e', j < i -> stored idx protoName !! j = Some e' ->
                           propPath e' <> usagePath)
          \/ ((forall e', e' ∈ stored idx protoName -> propPath e' <> usagePath)
              /\ propPath e `suffix_of` usagePath
              /\ (forall e', e' ∈ stored idx protoName ->
                    propPath e' `suffix_of` usagePath ->
                    length (propPath e') <= length (propPath e))
              /\ (forall j e', j < i -> stored idx protoName !! j = Some e' ->
                    propPath e' `suffix_of` usagePath ->
                    length (propPath e') < length (propPath e))))
  | None =>
      forall e', e' ∈ stored idx protoName -> ~ propPath e' `suffix_of` usagePath
  end.
Proof.
  unfold resolve, stored.
  destruct (JsMap.get protoName idx) as [props|].
  2: { intros _ e' He'. by apply elem_of_nil in He'. }
  intros Hne.
  destruct (length props =? 0) eqn:El.
  { apply Nat.eqb_eq in El. destruct props; [|discriminate].
    intros e' He'. by apply elem_of_nil in He'. }
  pose proof (find_first (fun prop => pathsEqual usagePath (propPath prop)) props) as Hfind.
  destruct (find _ props) as [e|].
  - destruct Hfind as (i & Hi & He & Hbefore). exists i. split; [done|]. left.
    apply pathsEqual_spec in He. split; [done|].
    intros j e' Hj Hl Heq. specialize (Hbefore j e' Hj Hl).
    assert (pathsEqual usagePath (propPath e') = true) by by apply pathsEqual_spec.
    congruence.
  - assert (Hnoexact : forall e', e' ∈ props -> propPath e' <> usagePath).
    { intros e' He' Heq. specialize (Hfind e' He').
      assert (pathsEqual usagePath (propPath e') = true) by by apply pathsEqual_spec.
      congruence. }
    pose proof (resolve_fold usagePath props Hne) as Hfold.
    destruct (fold_left (resolve_step usagePath) props (None, 0)) as [[e|] len]; simpl.
    + destruct Hfold as (_ & i & Hi & Hrest). exists i. split; [done|]. by right.
    + by destruct Hfold.
Qed.

(** The usage path [props.foo.bar.baz] resolves to the entry [bar.baz],
    not to [baz]. *)
Lemma resolve_longest_suffix_witness :
  resolve index_baz (Js.str "X")
          [Js.str "props"; Js.str "foo"; Js.str "bar"; Js.str "baz"]
  = Some (entry [Js.str "bar"; Js.str "baz"] 20 23)
  /\ forall e', e' ∈ stored index_baz (Js.str "X") ->
       propPath e' `suffix_of` [Js.str "props"; Js.str "foo"; Js.str "bar"; Js.str "baz"] ->
       length (propPath e') <= 2.
Proof.
  assert (Hne : Forall (fun e => propPath e <> []) (stored index_baz (Js.str "X"))).
  { vm_compute. repeat constructor; discriminate. }
  pose proof (resolve_exact_then_longest_suffix index_baz (Js.str "X")
                [Js.str "props"; Js.str "foo"; Js.str "bar"; Js.str "baz"] Hne) as H.
  assert (Hr : resolve index_baz (Js.str "X")
                 [Js.str "props"; Js.str "foo"; Js.str "bar"; Js.str "baz"]
               = Some (entry [Js.str "bar"; Js.str "baz"] 20 23))
    by (vm_compute; reflexivity).
  rewrite Hr in H. split; [exact Hr|].
  destruct H as (i & _ & [[Heq _] | (_ & _ & Hmax & _)]).
  - vm_compute in Heq. discriminate.
  - exact Hmax.
Defined.

End PropIndexFacts.

Section GetChildrenFacts.
Import PropIndex.

Lemma JsSet_add_elem (x y : jsstring) (s : JsSet.t jsstring) :
  x ∈ JsSet.add y s <-> x = y \/ x ∈ s.
Proof.
  unfold JsSet.add, JsSet.has. case_bool_decide as Hy.
  - split; [by right | intros [->|]; done].
  - rewrite elem_of_app, list_elem_of_singleton. tauto.
Qed.

Lemma JsSet_add_NoDup (y : jsstring) (s : JsSet.t jsstring) :
  NoDup s -> NoDup (JsSet.add y s).
Proof.
  intros Hs. unfold JsSet.add, JsSet.has. case_bool_decide as Hy; [done|].
  apply list.NoDup_app. split; [done|]. split; [|apply NoDup_singleton].
  intros x Hx Hx'. apply list_elem_of_singleton in Hx' as ->. done.
Qed.

(** The inner loop of [getChildren] compares the first [usagePath.length]
    elements. *)
Lemma prefix_loop_spec (path usagePath : list jsstring) :
  length usagePath <= length path ->
  forallb (fun i => bool_decide (path !! i = usagePath !! i))
          (seq 0 (length usagePath)) = true
  <-> take (length usagePath) path = usagePath.
Proof.
  intros Hlen. rewrite forallb_forall. split.
  - intros Hall. apply list_eq. intros i.
    destruct (decide (i < length usagePath)) as [Hlt|Hge].
    + rewrite lookup_take_lt by done.
      apply (bool_decide_eq_true_1 _), Hall, in_seq. lia.
    + rewrite lookup_take_ge by lia. symmetry. apply lookup_ge_None_2. lia.
  - intros Heq i Hi. apply in_seq in Hi. apply bool_decide_eq_true_2.
    rewrite <- (lookup_take_lt path (length usagePath) i) by lia. by rewrite Heq.
Qed.

Lemma getChildren_fold (usagePath : list jsstring) (l : list IndexedProp) :
  NoDup (fold_left (getChildren_step usagePath) l JsSet.empty)
  /\ forall x, x ∈ fold_left (getChildren_step usagePath) l JsSet.empty
               <-> exists e, e ∈ l /\ child_of usagePath (propPath e) x.
Proof.
  induction l as [|e l [IHnd IH]] using rev_ind.
  - simpl. split; [apply NoDup_nil_2|].
    intros x. split.
    + intros Hx. by apply elem_of_nil in Hx.
    + intros (e & He & _). by apply elem_of_nil in He.
  - rewrite fold_left_app. simpl.
    set (res := fold_left (getChildren_step usagePath) l JsSet.empty) in *.
    assert (Hkeep : (forall x, ~ child_of usagePath (propPath e) x) ->
              NoDup res /\ forall x, x ∈ res <->
                exists e', e' ∈ l ++ [e] /\ child_of usagePath (propPath e') x).
    { intros Hno. split; [done|]. intros x. rewrite IH. split.
      - intros (e' & He' & Hc). exists e'. split; [|done].
        apply elem_of_app. by left.
      - intros (e' & He' & Hc). apply elem_of_app in He' as [He'|He'].
        + by exists e'.
        + apply list_elem_of_singleton in He' as ->. by destruct (Hno x). }
    unfold getChildren_step.
    destruct (length (propPath e) <=? length usagePath) eqn:El.
    { apply Nat.leb_le in El. apply Hkeep. intros x (Hlt & _). lia. }
    apply Nat.leb_gt in El.
    destruct (forallb _ _) eqn:Ep.
    2: { apply Hkeep. intros x (_ & Htake & _).
         apply prefix_loop_spec in Htake; [congruence | lia]. }
    apply prefix_loop_spec in Ep; [|lia].
    destruct (propPath e !! length usagePath) as [child|] eqn:Ec.
    2: { apply Hkeep. intros x (_ & _ & Hx). congruence. }
    split; [by apply JsSet_add_NoDup|].
    intros x. rewrite JsSet_add_elem, IH. split.
    + intros [->|(e' & He' & Hc)].
      * exists e. split; [apply elem_of_app; right; apply list_elem_of_here|].
        by repeat split.
      * exists e'. split; [apply elem_of_app; by left | done].
    + intros (e' & He' & Hc). apply elem_of_app in He' as [He'|He'].
      * right. by exists e'.
      * apply list_elem_of_singleton in He' as ->. left.
        destruct Hc as (_ & _ & Hx). congruence.
Qed.

(** C2: [getChildren] returns, without repetition, exactly the elements at
    index [usagePath.length] of the stored entries whose [propPath] is
    longer than the usage path and starts with it; it is empty when no
    stored entry has the usage path as a strict prefix. *)
Theorem getChildren_exact (idx : t) (protoName : jsstring)
    (usagePath : list jsstring) :
  NoDup (getChildren idx protoName usagePath)
  /\ (forall x, x ∈ getChildren idx protoName usagePath
        <-> exists e, e ∈ stored idx protoName
                      /\ length usagePath < length (propPath e)
                      /\ take (length usagePath) (propPath e) = usagePath
                      /\ propPath e !! length usagePath = Some x)
  /\ ((forall e, e ∈ stored idx protoName ->
         ~ (length usagePath < length (propPath e)
            /\ usagePath `prefix_of` propPath e))
      -> getChildren idx protoName usagePath = []).
Proof.
  assert (Hmain : NoDup (getChildren idx protoName usagePath)
    /\ (forall x, x ∈ getChildren idx protoName usagePath
          <-> exists e, e ∈ stored idx protoName
                        /\ child_of usagePath (propPath e) x)).
  { unfold getChildren, stored.
    destruct (JsMap.get protoName idx) as [props|].
    2: { split; [apply NoDup_nil_2|]. intros x. split.
         - intros Hx. by apply elem_of_nil in Hx.
         - intros (e & He & _). by apply elem_of_nil in He. }
    destruct (length props =? 0) eqn:El.
    { split; [apply NoDup_nil_2|]. intros x. split.
      - intros Hx. by apply elem_of_nil in Hx.
      - apply Nat.eqb_eq in El. destruct props; [|discriminate].
        intros (e & He & _). by apply elem_of_nil in He. }
    apply getChildren_fold. }
  destruct Hmain as [Hnd Hiff]. split; [done|]. split; [exact Hiff|].
  intros Hnone. apply elem_of_nil_inv. intros x Hx.
  apply Hiff in Hx as (e & He & Hlt & Htake & _).
  apply (Hnone e He). split; [done|].
  exists (drop (length usagePath) (propPath e)).
  rewrite <- (take_drop (length usagePath) (propPath e)) at 1. by rewrite Htake.
Qed.

(** After [foo] come [bar] and [baz]; nothing comes after [qux]. *)
Lemma getChildren_exact_witness :
  getChildren index_foo (Js.str "X") [Js.str "foo"] = [Js.str "bar"; Js.str "baz"]
  /\ getChildren index_foo (Js.str "X") [Js.str "qux"] = [].
Proof.
  split; [vm_compute; reflexivity|].
  apply (getChildren_exact index_foo (Js.str "X") [Js.str "qux"]).
  intros e He [_ [k Hk]]. vm_compute in He.
  repeat (apply elem_of_cons in He as [->|He]; [vm_compute in Hk; discriminate|]).
  by apply elem_of_nil in He.
Defined.

End GetChildrenFacts.

(** ** Scanning *)

Section ScanFacts.
Import Js.

Lemma span_spec (p : N -> bool) (s a b : jsstring) :
  span p s = (a, b) -> s = a ++ b /\ Forall (fun c => p c = true) a.
Proof.
  revert a b. induction s as [|c s IH]; intros a b; simpl.
  - intros [= <- <-]. by split.
  - destruct (p c) eqn:Ec.
    + destruct (span p s) as [a' b'] eqn:Es. intros [= <- <-].
      destruct (IH a' b' eq_refl) as [-> Hall]. split; [done|].
      by constructor.
    + intros [= <- <-]. by split.
Qed.

(** The run [span] takes stops at the end or at a code unit outside the
    class. *)
Lemma span_rest (p : N -> bool) (s a b : jsstring) :
  span p s = (a, b) -> match b with [] => True | c :: _ => p c = false end.
Proof.
  revert a b. induction s as [|c s IH]; intros a b; simpl.
  - by intros [= <- <-].
  - destruct (p c) eqn:Ec.
    + destruct (span p s) as [a' b'] eqn:Es. intros [= <- <-]. by apply (IH a').
    + by intros [= <- <-].
Qed.

Lemma strip_prefix_spec (lit s r : jsstring) :
  strip_prefix lit s = Some r -> s = lit ++ r.
Proof.
  revert s. induction lit as [|a lit IH]; intros s; simpl.
  - by intros [= ->].
  - destruct s as [|b s]; [discriminate|].
    unfold eqc. destruct (N.eqb a b) eqn:E; [|discriminate].
    apply N.eqb_eq in E as ->. intros Hr. by rewrite (IH s Hr).
Qed.

Lemma starts_with_spec (lit s : jsstring) :
  starts_with lit s = true -> exists r, s = lit ++ r.
Proof.
  unfold starts_with. destruct (strip_prefix lit s) as [r|] eqn:E; [|discriminate].
  intros _. exists r. by apply strip_prefix_spec.
Qed.

(** Every match the loop reports is the anchored match at its offset, and
    ends where that match ends. *)
Lemma exec_loop_sound {A : Type} (m : jsstring -> option (A * jsstring))
    (source s : jsstring) (index skip : nat) :
  drop index source = s ->
  Forall (fun r : A * nat * nat =>
            exists rest, m (drop r.1.2 source) = Some (r.1.1, rest)
                         /\ r.2 = r.1.2 + (length (drop r.1.2 source) - length rest))
         (exec_loop m s index skip).
Proof.
  revert index skip. induction s as [|c s IH]; intros index skip Hdrop; simpl.
  - constructor.
  - assert (Hnext : drop (S index) source = s).
    { replace (S index) with (index + 1) by lia.
      rewrite <- drop_drop, Hdrop. done. }
    destruct skip as [|k]; [|by apply IH].
    destruct (m (c :: s)) as [[cap rest]|] eqn:Em; [|by apply IH].
    constructor; [|by apply IH].
    exists rest. simpl. rewrite Hdrop. done.
Qed.

End ScanFacts.

(** ** The prototype declaration scan *)

Section PrototypeParserFacts.
Import Js PrototypeParser.

Lemma match_prototype_spec (s nm rest : jsstring) :
  match_prototype s = Some (nm, rest) ->
  nm <> [] /\ Forall (fun c => is_name_char c = true) nm
  /\ exists text, s = text ++ rest /\ declaration_text text nm.
Proof.
  unfold match_prototype.
  destruct (strip_prefix (str "prototype") s) as [r1|] eqn:E1; [|discriminate].
  destruct (span is_ws r1) as [w1 r2] eqn:E2.
  destruct (strip_prefix (str "(") r2) as [r3|] eqn:E3; [|discriminate].
  destruct (span is_ws r3) as [w2 r4] eqn:E4.
  destruct (span is_name_char r4) as [n r5] eqn:E5.
  destruct (length n =? 0) eqn:En; [discriminate|].
  destruct (span is_ws r5) as [w3 r6] eqn:E6.
  destruct (strip_prefix (str ")") r6) as [r7|] eqn:E7; [|discriminate].
  intros [= <- <-].
  apply strip_prefix_spec in E1, E3, E7.
  apply span_spec in E2 as [-> H2], E4 as [-> H4], E5 as [-> H5], E6 as [-> H6].
  apply Nat.eqb_neq in En.
  split; [by destruct n|]. split; [done|].
  exists (str "prototype" ++ w1 ++ str "(" ++ w2 ++ n ++ w3 ++ str ")").
  split.
  - subst. by rewrite <- !app_assoc.
  - by exists w1, w2, w3.
Qed.

(** C9: every declaration the scan reports has a non-empty name of name
    characters, and the source sliced over its [start] .. [end] is a
    declaration text of exactly that name: [prototype(<name>)], with white
    space allowed before and inside the parentheses. *)
Theorem parsePrototypes_slices (source : jsstring) :
  Forall (fun decl =>
            name decl <> []
            /\ Forall (fun c => is_name_char c = true) (name decl)
            /\ declaration_text (slice source (start decl) (end_ decl)) (name decl))
         (parsePrototypes source).
Proof.
  unfold parsePrototypes. apply Forall_fmap.
  pose proof (exec_loop_sound match_prototype source source 0 0 eq_refl) as Hsound.
  rewrite Forall_forall in Hsound. apply Forall_forall.
  intros [[nm s] e] Hin. destruct (Hsound _ Hin) as (rest & Hm & He); simpl in *.
  apply match_prototype_spec in Hm as (Hne & Hchars & text & Htext & Hdecl).
  split; [done|]. split; [done|].
  unfold slice. subst e. rewrite Htext.
  replace (s + (length (text ++ rest) - length rest) - s) with (length text)
    by (rewrite length_app; lia).
  by rewrite take_app_length.
Qed.

(** A declaration and an inheritance reference with white space. *)
Example parsePrototypes_example :
  parsePrototypes (str "prototype(X) < prototype ( Y.Z ) { }")
  = [ {| name := str "X"; start := 0; end_ := 12 |};
      {| name := str "Y.Z"; start := 15; end_ := 32 |} ]
  /\ slice (str "prototype(X) < prototype ( Y.Z ) { }") 15 32
     = str "prototype ( Y.Z )".
Proof. vm_compute. done. Qed.

End PrototypeParserFacts.

(** ** The merge policy *)

Section MergeFacts.
Import Js PropParser.

Lemma JsSet_of_list_fold (l : list jsstring) (s : JsSet.t jsstring) (x : jsstring) :
  x ∈ fold_left (fun s y => JsSet.add y s) l s <-> x ∈ s \/ x ∈ l.
Proof.
  revert s. induction l as [|y l IH]; intros s; simpl.
  - rewrite elem_of_nil. tauto.
  - rewrite IH, JsSet_add_elem, elem_of_cons. tauto.
Qed.

Lemma JsSet_has_of_list (l : list jsstring) (x : jsstring) :
  JsSet.has x (JsSet.of_list l) = false <-> x ∉ l.
Proof.
  unfold JsSet.has, JsSet.of_list. rewrite bool_decide_eq_false.
  rewrite JsSet_of_list_fold. unfold JsSet.empty. rewrite elem_of_nil. tauto.
Qed.

(** The loop over the prototype blocks appends what each block gives. *)
Lemma block_loop_props (source : jsstring) (blocks : list PrototypeBlock)
    (acc : ParsedPropResult) :
  props (fold_left (block_step source) blocks acc)
  = props acc
    ++ concat
         (map (fun proto =>
                 let body := slice source (bodyStart proto) (bodyEnd proto) in
                 block_props source proto
                   (flattenStyleguideTree (parseStyleguidePropsTree body)
                      (name proto) body (bodyStart proto)))
              blocks).
Proof.
  revert acc. induction blocks as [|b blocks IH]; intros acc; simpl.
  - by rewrite app_nil_r.
  - rewrite IH. simpl. by rewrite <- app_assoc.
Qed.

(** C5, as stated, fails: the merge works block by block, not prototype by
    prototype.  The text has two blocks of [X]; the default [a] of the
    second block has the dotted path of the styleguide [a] of the first and
    is kept all the same, and the result is not the styleguide definitions
    of [X] followed by its defaults: the default [b] comes before the
    styleguide [z]. *)
Lemma default_kept_beside_styleguide_of_other_block :
  map name (parsePrototypeBlocks source_X_two_blocks) = [str "X"; str "X"]
  /\ map (fun d => (prototypeName d, dotted d, source d))
         (props (parsePropDefinitions source_X_two_blocks))
     = [ (str "X", str "a", styleguide);
         (str "X", str "b", default);
         (str "X", str "z", styleguide);
         (str "X", str "a", default) ].
Proof. by vm_compute. Qed.

(** C5, amended: the merge is per prototype block.  What a block
    contributes is its styleguide definitions followed by those of its
    default definitions whose dotted path is the dotted path of none of its
    own styleguide definitions, and the result of the pipeline is these
    contributions one block after the other.  So within a block a default
    is dropped exactly when its whole dotted path is that of a styleguide
    definition: next to a styleguide [foo.baz], the default [baz] stays and
    the default [foo] goes. *)
Theorem merge_drops_equal_dotted_paths :
  (forall source proto styleguideProps,
     block_props source proto styleguideProps
     = styleguideProps
       ++ filter (fun d => dotted d ∉ map dotted styleguideProps)
            (parseDefaultProps (slice source (bodyStart proto) (bodyEnd proto))
               (name proto) (bodyStart proto)))
  /\ (forall (styleguideProps defaults : list PropDefinition) d,
        d ∈ defaults ->
        d ∉ filter (fun d => dotted d ∉ map dotted styleguideProps) defaults
        <-> exists s, s ∈ styleguideProps /\ dotted s = dotted d)
  /\ (forall source,
        props (parsePropDefinitions source)
        = concat
            (map (fun proto =>
                    let body := slice source (bodyStart proto) (bodyEnd proto) in
                    block_props source proto
                      (flattenStyleguideTree (parseStyleguidePropsTree body)
                         (name proto) body (bodyStart proto)))
                 (parsePrototypeBlocks source)))
  /\ map (fun d => (propPath d, source d))
         (props (parsePropDefinitions source_foo_baz))
     = [ ([str "foo"], styleguide);
         ([str "foo"; str "baz"], styleguide);
         ([str "baz"], default) ].
Proof.
  split; [|split; [|split]].
  - intros source proto styleguideProps. unfold block_props. f_equal.
    apply list_filter_iff. intros d. apply JsSet_has_of_list.
  - intros styleguideProps defaults d Hd.
    rewrite list_elem_of_filter. split.
    + intros Hdrop.
      destruct (decide (dotted d ∈ map dotted styleguideProps)) as [Hin|Hnot].
      * apply list_elem_of_fmap in Hin as (s & Hs & Hin). by exists s.
      * by destruct Hdrop.
    + intros (s & Hs & Heq) [Hnot _]. apply Hnot.
      rewrite <- Heq. by apply (list_elem_of_fmap_2 dotted).
  - intros source. unfold parsePropDefinitions. by rewrite block_loop_props.
  - vm_compute. reflexivity.
Qed.

End MergeFacts.

(** ** The default prop scanner *)

Section DefaultScanFacts.
Import Js PropParser.

Lemma split_on_not_nil (sep : N) (s : jsstring) : split_on sep s <> [].
Proof.
  destruct s as [|c r]; simpl; [done|].
  destruct (split_on sep r); [done|]. by destruct (eqc c sep).
Qed.

(** Joining the segments of a split gives the text back. *)
Lemma join_split_on (sep : N) (s : jsstring) : join [sep] (split_on sep s) = s.
Proof.
  induction s as [|c r IH]; simpl; [done|].
  pose proof (split_on_not_nil sep r) as Hne.
  destruct (split_on sep r) as [|l ls]; [done|].
  unfold eqc. destruct (N.eqb c sep) eqn:Ec.
  - apply N.eqb_eq in Ec as ->. simpl in *. by rewrite IH.
  - destruct ls as [|l' ls]; simpl in *; by rewrite <- IH.
Qed.

(** The whole match of the assignment pattern is longer than its key: it
    also holds the [=]. *)
Lemma defaultRegex_longer (ln m0 m1 : jsstring) :
  defaultRegex ln = Some (m0, m1) -> length m1 < length m0.
Proof.
  unfold defaultRegex. destruct (span is_blank ln) as [indent r1].
  destruct (match r1 with
            | [] => None
            | c :: r =>
                if is_alpha c || eqc c (ch "_")
                then let '(k, r2) := span is_path_char r in Some (c :: k, r2)
                else if is_digit c then Some (span is_digit r1) else None
            end) as [[key r2]|]; [|discriminate].
  destruct (span is_ws r2) as [w r3].
  destruct (starts_with (str "=") r3); [|discriminate].
  intros [= <- <-]. rewrite !length_app. simpl. lia.
Qed.

Lemma default_step_invariant (P : PropDefinition -> Prop) (nm : jsstring)
    (off : nat) (lines : list jsstring) (acc : list PropDefinition * Z * nat) :
  (forall ln m0 m1 currentOffset,
     defaultRegex ln = Some (m0, m1) ->
     P {| prototypeName := nm;
          propPath := split_on (ch ".") m1;
          start := off + currentOffset
                   + match indexOf ln m1 with Some i => i | None => 0 end;
          end_ := off + currentOffset
                  + match indexOf ln m1 with Some i => i | None => 0 end
                  + length m0;
          source := default |}) ->
  Forall P acc.1.1 ->
  Forall P (fold_left (default_step nm off) lines acc).1.1.
Proof.
  intros Hnew. revert acc. induction lines as [|ln lines IH]; intros acc Hacc; simpl.
  - done.
  - apply IH. destruct acc as [[results depth] currentOffset]. simpl in *.
    destruct (defaultRegex ln) as [[m0 m1]|] eqn:Em; [|done].
    destruct (depth =? 0)%Z; [|done].
    apply Forall_app. split; [done|]. apply Forall_singleton. by apply Hnew.
Qed.

(** C7, where the code departs from it: every definition the default
    scanner emits has source [default] and ends past its key, since [end]
    is [start] plus the length of the whole match, which holds the white
    space and the [=] too.  For the example [prototype(X) { foo.bar = null }]
    the one entry has the path [foo], [bar] and the range 15 .. 25; the key
    text is at 15 .. 22, and 15 .. 25 also takes the blank, the [=] and the
    blank after.  In a text with CR LF line breaks [start] falls short of
    the key as well, by one for every line break before it, since a line
    counts with one code unit for its break. *)
Theorem default_range_runs_past_key :
  (forall body nm off,
     Forall (fun d => source d = default
                      /\ start d + length (dotted d) < end_ d)
            (parseDefaultProps body nm off))
  /\ parsePropDefinitions source_foo_bar
     = {| props := [ {| prototypeName := str "X";
                        propPath := [str "foo"; str "bar"];
                        start := 15; end_ := 25;
                        source := default |} ];
          warnings := [] |}
  /\ slice source_foo_bar 15 22 = str "foo.bar"
  /\ slice source_foo_bar 15 25 = str "foo.bar = "
  /\ map (fun d => (propPath d, start d))
         (props (parsePropDefinitions source_crlf))
     = [ ([str "foo"], 17); ([str "bar"], 27) ]
  /\ slice source_crlf 18 21 = str "foo"
  /\ slice source_crlf 29 32 = str "bar".
Proof.
  split; [|by vm_compute].
  intros body nm off. unfold parseDefaultProps.
  apply default_step_invariant; [|by constructor].
  intros ln m0 m1 currentOffset Hm. simpl. split; [done|].
  unfold dotted; simpl.
  change (str ".") with [ch "."]. rewrite join_split_on.
  apply defaultRegex_longer in Hm. lia.
Qed.

End DefaultScanFacts.

(** ** The styleguide tree parser *)

Section StyleguideFacts.
Import Js PropParser.

(** What [declare] does when the key reads as present under [current]: the
    tree keeps its children and one warning is added at the position of
    the later declaration. *)
Lemma declare_present (st : state) (cur : noderef) (key : jsstring)
    (node : StyleguideNode) (lineNumber : nat) (push : bool) (o : JsObject.t StyleguideNode) :
  children <$> node_at cur (update_at cur ensure_children (root_props st)) = Some (Some o) ->
  JsObject.truthy_at key o = true ->
  let st' := declare st cur key node lineNumber push in
  root_props st' = update_at cur ensure_children (root_props st)
  /\ root_warnings st'
     = root_warnings st
       ++ [{| message := duplicate_message key; line := lineNumber;
              column := pos_column (position node) |}]
  /\ stack st' = stack st /\ current st' = current st.
Proof.
  intros Hcur Hpresent. unfold declare.
  destruct (node_at cur _) as [n|]; [|discriminate].
  simpl in Hcur. injection Hcur as Hcur. rewrite Hcur, Hpresent. by simpl.
Qed.

(** C6, as stated, fails: the path [a], [b] is not produced twice; it is
    produced once for the source written one construct per line, and not at
    all for the source on one line. *)
Lemma duplicate_block_path_not_twice :
  count_path [str "a"; str "b"] (props (parsePropDefinitions source_dup_lines)) = 1
  /\ count_path [str "a"; str "b"] (props (parsePropDefinitions source_dup_one_line)) = 0.
Proof. by vm_compute. Qed.

(** C6, amended: for the source written one construct per line the
    pipeline produces the path [a], [b] once, every definition it produces
    belongs to [Foo:Bar] and has source [styleguide], and there is one
    warning, the duplicate of [a], at line 7 and column 7: the line of the
    second [a {] and the column of its key (the first [a {] is line 4).
    For the source on one line it produces no definition and no warning. *)
Theorem duplicate_block_example :
  count_path [str "a"; str "b"] (props (parsePropDefinitions source_dup_lines)) = 1
  /\ Forall (fun d => prototypeName d = str "Foo:Bar" /\ source d = styleguide)
            (props (parsePropDefinitions source_dup_lines))
  /\ warnings (parsePropDefinitions source_dup_lines)
     = [ {| message := duplicate_message (str "a"); line := 7; column := 7 |} ]
  /\ split_on 10 source_dup_lines !! 3 = Some (str "      a {")
  /\ split_on 10 source_dup_lines !! 6 = Some (str "      a {")
  /\ parsePropDefinitions source_dup_one_line = {| props := []; warnings := [] |}.
Proof.
  split; [by vm_compute|]. split; [|by vm_compute].
  vm_compute. repeat constructor.
Qed.

(** C4, where the code departs from it: a key that names a member every
    object inherits reads as present under any node, although no child has
    it, so its declaration adds a duplicate warning and stores nothing.  The
    only declaration of [constructor] gives a duplicate warning and no
    child.  And after the second [a {], which opens no node, [x = 2] is read
    at the level of the root, where it counts as a repetition of [x = 0]. *)
Theorem single_key_reported_as_duplicate :
  (forall st cur key node lineNumber push o,
     children <$> node_at cur (update_at cur ensure_children (root_props st))
     = Some (Some o) ->
     JsObject.get_own key o = None ->
     JsObject.inherited key = true ->
     root_props (declare st cur key node lineNumber push)
     = update_at cur ensure_children (root_props st)
     /\ root_warnings (declare st cur key node lineNumber push)
        = root_warnings st
          ++ [{| message := duplicate_message key; line := lineNumber;
                 column := pos_column (position node) |}])
  /\ parseStyleguidePropsTree body_constructor
     = {| tree_props := Node {| pos_line := 3; pos_column := 5 |} (Some []);
          tree_warnings :=
            [ {| message := duplicate_message (str "constructor");
                 line := 4; column := 7 |} ] |}
  /\ tree_warnings (parseStyleguidePropsTree body_nested_x)
     = [ {| message := duplicate_message (str "a"); line := 7; column := 7 |};
         {| message := duplicate_message (str "x"); line := 8; column := 9 |} ].
Proof.
  split; [|by vm_compute].
  intros st cur key node lineNumber push o Hcur Hown Hinh.
  assert (Htruthy : JsObject.truthy_at key o = true)
    by (unfold JsObject.truthy_at; by rewrite Hown).
  destruct (declare_present st cur key node lineNumber push o Hcur Htruthy)
    as (Hroot & Hwarn & _).
  by split.
Qed.

End StyleguideFacts.

(** ** Stored paths are not empty

    The hypothesis of [resolve_exact_then_longest_suffix] holds for every
    index the orchestrator builds: both prop sources emit non-empty paths
    only, and the index operations keep what they are given. *)

Section NonEmptyPaths.
Import Js PropParser.

(** Induction over a tree and the children of its nodes. *)
Lemma StyleguideNode_tree_ind (P : StyleguideNode -> Prop) :
  (forall p, P (Node p None)) ->
  (forall p o, Forall (fun kc : jsstring * StyleguideNode => P kc.2) o ->
               P (Node p (Some o))) ->
  forall n, P n.
Proof.
  intros Hleaf Hnode. fix IH 1. intros [p [o|]]; [|apply Hleaf].
  apply Hnode. induction o as [|[k c] o IHo]; constructor; [apply IH | apply IHo].
Qed.

Lemma insert_index_elem {V : Type} (e x : jsstring * V) (l : JsObject.t V) :
  x ∈ JsObject.insert_index e l -> x = e \/ x ∈ l.
Proof.
  induction l as [|e' l IH]; simpl.
  - intros Hx. apply list_elem_of_singleton in Hx. by left.
  - destruct (N.ltb _ _).
    + intros Hx. apply elem_of_cons in Hx as [->|Hx]; [by left | by right].
    + intros Hx. apply elem_of_cons in Hx as [->|Hx].
      * right. apply list_elem_of_here.
      * destruct (IH Hx) as [->|Hl]; [by left|]. right. by apply list_elem_of_further.
Qed.

(** [Object.entries] lists own properties only. *)
Lemma entries_elem {V : Type} (o : JsObject.t V) (x : jsstring * V) :
  x ∈ JsObject.entries o -> x ∈ o.
Proof.
  unfold JsObject.entries. rewrite elem_of_app. intros [Hx|Hx].
  - assert (Hgen : forall (l acc : JsObject.t V),
              x ∈ fold_left (fun acc e => JsObject.insert_index e acc) l acc ->
              x ∈ acc \/ x ∈ l).
    { clear. induction l as [|e l IH]; intros acc; simpl; [by left|].
      intros Hx. destruct (IH _ Hx) as [Hacc|Hl].
      - apply insert_index_elem in Hacc as [->|Hacc]; [right; apply list_elem_of_here | by left].
      - right. by apply list_elem_of_further. }
    destruct (Hgen _ _ Hx) as [Hnil|Hl]; [by apply elem_of_nil in Hnil|].
    by apply list_elem_of_filter in Hl as [_ Hl].
  - by apply list_elem_of_filter in Hx as [_ Hx].
Qed.

Lemma walk_invariant (P : PropDefinition -> Prop) (nm : jsstring)
    (lineOffsets : list nat) (off : nat) :
  (forall node path, Forall P (emit nm lineOffsets off node path)) ->
  forall node path, Forall P (walk nm lineOffsets off node path).
Proof.
  intros Hemit node. induction node as [p|p o IH] using StyleguideNode_tree_ind;
    intros path.
  - simpl. rewrite app_nil_r. apply (Hemit (Node p None)).
  - change (walk nm lineOffsets off (Node p (Some o)) path)
      with (emit nm lineOffsets off (Node p (Some o)) path
            ++ concat (map snd (JsObject.entries
                 (map (fun kc : jsstring * StyleguideNode =>
                         (fst kc, walk nm lineOffsets off (snd kc) (path ++ [fst kc])))
                      o)))).
    apply Forall_app. split; [apply Hemit|].
    apply List.Forall_concat, list.Forall_fmap, list.Forall_forall.
    intros [k res] Hin. apply entries_elem in Hin.
    apply list_elem_of_fmap in Hin as ([k' c] & [= -> ->] & Hin). simpl.
    rewrite list.Forall_forall in IH. apply (IH _ Hin).
Qed.

Lemma flatten_paths_nonempty (tree : StyleguidePropsTree) (nm document : jsstring)
    (off : nat) :
  Forall (fun d => propPath d <> []) (flattenStyleguideTree tree nm document off).
Proof.
  unfold flattenStyleguideTree. apply walk_invariant.
  intros node path. unfold emit. destruct path; simpl; [constructor|].
  by repeat constructor.
Qed.

Lemma default_paths_nonempty (body nm : jsstring) (off : nat) :
  Forall (fun d => propPath d <> []) (parseDefaultProps body nm off).
Proof.
  unfold parseDefaultProps. apply default_step_invariant; [|constructor].
  intros ln m0 m1 currentOffset _. simpl. apply split_on_not_nil.
Qed.

Lemma parsePropDefinitions_paths_nonempty (source : jsstring) :
  Forall (fun d => propPath d <> []) (props (parsePropDefinitions source)).
Proof.
  unfold parsePropDefinitions. rewrite block_loop_props. simpl.
  apply List.Forall_concat, list.Forall_fmap, list.Forall_forall. intros proto _. simpl.
  unfold block_props. apply Forall_app. split.
  - apply flatten_paths_nonempty.
  - apply list.Forall_forall. intros d Hd.
    apply list_elem_of_filter in Hd as [_ Hd].
    pose proof (default_paths_nonempty
                  (slice source (bodyStart proto) (bodyEnd proto))
                  (name proto) (bodyStart proto)) as Hall.
    rewrite list.Forall_forall in Hall. by apply Hall.
Qed.

End NonEmptyPaths.

Section MapInvariants.
Context {K V : Type} `{EqDecision K}.
Implicit Types (m : JsMap.t K V) (k : K) (v : V).

Lemma get_elem m k v : JsMap.get k m = Some v -> (k, v) ∈ m.
Proof.
  induction m as [|[k' v'] m IH]; simpl; [discriminate|].
  destruct (decide (k = k')) as [->|Hne].
  - intros [= ->]. apply list_elem_of_here.
  - intros Hg. by apply list_elem_of_further, IH.
Qed.

Lemma set_elem m k v (x : K * V) : x ∈ JsMap.set k v m -> x = (k, v) \/ x ∈ m.
Proof.
  induction m as [|[k' v'] m IH]; simpl.
  - intros Hx. apply list_elem_of_singleton in Hx. by left.
  - destruct (decide (k = k')) as [->|Hne]; intros Hx;
      apply elem_of_cons in Hx as [->|Hx].
    + by left.
    + right. by apply list_elem_of_further.
    + right. apply list_elem_of_here.
    + destruct (IH Hx) as [->|Hm]; [by left|]. right. by apply list_elem_of_further.
Qed.

Lemma delete_elem m k (x : K * V) : x ∈ JsMap.delete k m -> x ∈ m.
Proof.
  induction m as [|[k' v'] m IH]; simpl; [done|].
  destruct (decide (k = k')) as [->|Hne]; intros Hx.
  - by apply list_elem_of_further, IH.
  - apply elem_of_cons in Hx as [->|Hx]; [apply list_elem_of_here|].
    by apply list_elem_of_further, IH.
Qed.

End MapInvariants.

Section IndexInvariant.
Import PropIndex.

Lemma paths_nonempty_stored (idx : t) (nm : jsstring) :
  paths_nonempty idx -> Forall (fun e => propPath e <> []) (stored idx nm).
Proof.
  intros Hinv. unfold stored.
  destruct (JsMap.get nm idx) as [l|] eqn:Eg; [|constructor].
  apply get_elem in Eg. unfold paths_nonempty in Hinv.
  rewrite list.Forall_forall in Hinv. apply (Hinv _ Eg).
Qed.

Lemma indexPrototype_paths_nonempty (idx : t) (nm u : jsstring)
    (defs : list PropParser.PropDefinition) :
  Forall (fun d => PropParser.propPath d <> []) defs ->
  paths_nonempty idx -> paths_nonempty (indexPrototype nm defs u idx).
Proof.
  intros Hdefs Hinv. unfold paths_nonempty, indexPrototype.
  apply list.Forall_forall. intros [k l] Hin.
  apply set_elem in Hin as [[= -> ->]|Hin]; simpl.
  - apply Forall_app. split.
    + pose proof (paths_nonempty_stored idx nm Hinv) as Hs. exact Hs.
    + apply list.Forall_fmap, list.Forall_forall. intros d Hd. simpl.
      apply list_elem_of_filter in Hd as [_ Hd].
      rewrite list.Forall_forall in Hdefs. by apply Hdefs.
  - unfold paths_nonempty in Hinv. rewrite list.Forall_forall in Hinv.
    apply (Hinv _ Hin).
Qed.

Lemma removeByUri_paths_nonempty (idx : t) (u : jsstring) :
  paths_nonempty idx -> paths_nonempty (removeByUri u idx).
Proof.
  intros Hinv. unfold removeByUri.
  assert (Hgen : forall (l : list (jsstring * list IndexedProp)) (m : t),
            paths_nonempty l -> paths_nonempty m ->
            paths_nonempty
              (fold_left
                 (fun (m : t) '(prototypeName, props) =>
                    let filtered := filter (fun p => uri p <> u) props in
                    if length filtered =? 0 then JsMap.delete prototypeName m
                    else if negb (length filtered =? length props)
                         then JsMap.set prototypeName filtered m
                         else m)
                 l m)); [|by apply Hgen].
  clear. induction l as [|[k props] l IH]; intros m Hl Hm; simpl; [done|].
  inversion Hl as [|? ? Hprops Hl']; subst. apply IH; [done|].
  destruct (length (filter _ props) =? 0).
  - apply list.Forall_forall. intros x Hx. apply delete_elem in Hx.
    unfold paths_nonempty in Hm. rewrite list.Forall_forall in Hm. by apply Hm.
  - destruct (negb _); [|done].
    apply list.Forall_forall. intros x Hx. apply set_elem in Hx as [->|Hx]; simpl.
    + apply list.Forall_forall. intros e He.
      apply list_elem_of_filter in He as [_ He]. simpl in Hprops.
      rewrite list.Forall_forall in Hprops. by apply Hprops.
    + unfold paths_nonempty in Hm. rewrite list.Forall_forall in Hm. by apply Hm.
Qed.

(** The groups of [byPrototype] hold definitions of the list only. *)
Lemma group_loop_invariant (P : PropParser.PropDefinition -> Prop)
    (defs : list PropParser.PropDefinition)
    (m : JsMap.t jsstring (list PropParser.PropDefinition)) :
  Forall P defs ->
  Forall (fun kv : jsstring * list PropParser.PropDefinition => Forall P kv.2) m ->
  Forall (fun kv : jsstring * list PropParser.PropDefinition => Forall P kv.2)
    (fold_left
       (fun m def =>
          let l := match JsMap.get (PropParser.prototypeName def) m with
                   | Some l => l
                   | None => []
                   end in
          JsMap.set (PropParser.prototypeName def) (l ++ [def]) m)
       defs m).
Proof.
  intros Hdefs. revert m.
  induction Hdefs as [|d defs Hd Hdefs IH]; intros m Hm; simpl; [done|].
  apply IH. apply list.Forall_forall. intros x Hx.
  apply set_elem in Hx as [->|Hx]; simpl.
  - apply Forall_app. split; [|by apply Forall_singleton].
    destruct (JsMap.get _ m) as [l|] eqn:Eg; [|constructor].
    apply get_elem in Eg. rewrite list.Forall_forall in Hm. apply (Hm _ Eg).
  - rewrite list.Forall_forall in Hm. by apply Hm.
Qed.

Lemma index_groups_paths_nonempty (u : jsstring)
    (groups : list (jsstring * list PropParser.PropDefinition)) (idx : t) :
  Forall (fun kv : jsstring * list PropParser.PropDefinition =>
            Forall (fun d => PropParser.propPath d <> []) kv.2) groups ->
  paths_nonempty idx ->
  paths_nonempty
    (fold_left (fun idx '(protoName, defs) => indexPrototype protoName defs u idx)
               groups idx).
Proof.
  intros Hgroups. revert idx.
  induction Hgroups as [|[k defs] groups Hd Hgroups IH]; intros idx Hidx; simpl; [done|].
  apply IH. by apply indexPrototype_paths_nonempty.
Qed.

(** The orchestrator keeps the invariant, from the empty state on and over
    [clear()]. *)
Lemma indexFusionFile_paths_nonempty (host : jsstring -> option jsstring)
    (st : WorkspaceIndex.t) (u : jsstring) (sourceOverride : option jsstring)
    (live : bool) :
  paths_nonempty (WorkspaceIndex.propIndex st) ->
  paths_nonempty
    (WorkspaceIndex.propIndex
       (WorkspaceIndex.indexFusionFile host st u sourceOverride live).2).
Proof.
  intros Hinv. unfold WorkspaceIndex.indexFusionFile.
  destruct (JsMap.has u (WorkspaceIndex.filePrototypeMap st));
    destruct (match sourceOverride with Some s => Some s | None => host u end)
      as [source|]; simpl; try done;
    destruct (live && _); simpl; try done;
    destruct (JsMap.has u (WorkspaceIndex.filePropMap st)); simpl;
    destruct (host u); simpl; try done;
    try (by apply removeByUri_paths_nonempty);
    (apply index_groups_paths_nonempty;
     [ apply group_loop_invariant; [apply parsePropDefinitions_paths_nonempty | constructor]
     | try done; by apply removeByUri_paths_nonempty ]).
Qed.

Lemma initial_paths_nonempty :
  paths_nonempty (WorkspaceIndex.propIndex WorkspaceIndex.empty)
  /\ forall st, paths_nonempty (WorkspaceIndex.propIndex (WorkspaceIndex.clear st)).
Proof. split; [constructor | intros st; constructor]. Qed.

End IndexInvariant.

(** ** Sibling keys of the parsed tree are unique *)

Section UniqueKeys.
Import Js PropParser.

Lemma get_own_None_keys {V : Type} (k : jsstring) (o : JsObject.t V) :
  JsObject.get_own k o = None -> k ∉ map fst o.
Proof.
  induction o as [|[k' v'] o IH]; simpl.
  - intros _ Hin. by apply elem_of_nil in Hin.
  - destruct (decide (k = k')) as [->|Hne]; [discriminate|].
    intros Hg. apply not_elem_of_cons. split; [done | by apply IH].
Qed.

Lemma keys_set {V : Type} (k : jsstring) (v : V) (o : JsObject.t V) :
  map fst (JsObject.set k v o)
  = match JsObject.get_own k o with
    | Some _ => map fst o
    | None => map fst o ++ [k]
    end.
Proof.
  induction o as [|[k' v'] o IH]; simpl; [done|].
  destruct (decide (k = k')) as [->|Hne]; simpl; [done|].
  rewrite IH. by destruct (JsObject.get_own k o).
Qed.

Lemma object_set_elem {V : Type} (k : jsstring) (v : V) (o : JsObject.t V)
    (x : jsstring * V) :
  x ∈ JsObject.set k v o -> x = (k, v) \/ x ∈ o.
Proof.
  induction o as [|[k' v'] o IH]; simpl.
  - intros Hx. apply list_elem_of_singleton in Hx. by left.
  - destruct (decide (k = k')) as [->|Hne]; intros Hx;
      apply elem_of_cons in Hx as [->|Hx].
    + by left.
    + right. by apply list_elem_of_further.
    + right. apply list_elem_of_here.
    + destruct (IH Hx) as [->|Hm]; [by left|]. right. by apply list_elem_of_further.
Qed.

Lemma keys_alter {V : Type} (f : V -> V) (k : jsstring) (o : JsObject.t V) :
  map fst (JsObject.alter f k o) = map fst o.
Proof.
  induction o as [|[k' v'] o IH]; simpl; [done|].
  destruct (decide (k = k')); simpl; [done | by rewrite IH].
Qed.

Lemma Forall_alter_values {V : Type} (P : V -> Prop) (f : V -> V) (k : jsstring)
    (o : JsObject.t V) :
  (forall v, P v -> P (f v)) ->
  Forall (fun kv : jsstring * V => P kv.2) o ->
  Forall (fun kv : jsstring * V => P kv.2) (JsObject.alter f k o).
Proof.
  intros Hf Ho. induction Ho as [|[k' v'] o Hv Ho IH]; simpl; [constructor|].
  destruct (decide (k = k')); constructor; simpl in *; auto.
Qed.

Lemma update_at_unique (f : StyleguideNode -> StyleguideNode) :
  (forall n, unique_keys n -> unique_keys (f n)) ->
  forall path n, unique_keys n -> unique_keys (update_at path f n).
Proof.
  intros Hf path. induction path as [|k path IH]; intros n Hn; simpl; [by apply Hf|].
  destruct Hn as [p|p o Hnd Hall]; [constructor|].
  constructor.
  - by rewrite keys_alter.
  - by apply Forall_alter_values.
Qed.

Lemma ensure_children_unique (n : StyleguideNode) :
  unique_keys n -> unique_keys (ensure_children n).
Proof.
  intros [p|p o Hnd Hall]; simpl; [|by constructor].
  constructor; [apply NoDup_nil_2 | constructor].
Qed.

Lemma set_child_unique (key : jsstring) (child n : StyleguideNode) :
  unique_keys child -> unique_keys n -> unique_keys (set_child key child n).
Proof.
  intros Hc [p|p o Hnd Hall]; simpl.
  - constructor; simpl; [apply NoDup_singleton | by repeat constructor].
  - constructor.
    + rewrite keys_set. destruct (JsObject.get_own key o) eqn:Eg; [done|].
      apply list.NoDup_app. split; [done|]. split; [|apply NoDup_singleton].
      intros x Hx Hx'. apply list_elem_of_singleton in Hx' as ->.
      by apply (get_own_None_keys _ _ Eg).
    + apply list.Forall_forall. intros x Hx.
      apply object_set_elem in Hx as [->|Hx]; [done|].
      rewrite list.Forall_forall in Hall. by apply Hall.
Qed.

Lemma declare_unique (st : state) (cur : noderef) (key : jsstring)
    (node : StyleguideNode) (lineNumber : nat) (push : bool) :
  unique_keys node -> unique_keys (root_props st) ->
  unique_keys (root_props (declare st cur key node lineNumber push)).
Proof.
  intros Hnode Hroot. unfold declare.
  assert (H1 : unique_keys (update_at cur ensure_children (root_props st)))
    by (apply update_at_unique; [apply ensure_children_unique | done]).
  destruct (match node_at cur _ with Some _ => _ | None => false end); simpl; [done|].
  apply update_at_unique; [|done]. intros n. by apply set_child_unique.
Qed.

Lemma step_unique (st : state) (il : nat * jsstring) :
  unique_keys (root_props st) -> unique_keys (root_props (step st il)).
Proof.
  intros Hroot. destruct il as [index ln]. unfold step, classify. simpl.
  destruct (negb (inStyleguide st) && includes ln (str "@styleguide")); simpl; [done|].
  destruct (inStyleguide st && negb (inProps st)); simpl.
  { destruct (match_props ln); simpl; [|done].
    destruct Hroot; simpl; by constructor. }
  destruct (inProps st); [|done]. destruct (current st) as [cur|]; [|done].
  destruct (_ && closeBlockRegex ln); simpl; [done|].
  destruct (if isDirectiveLine ln then None else openBlockRegex ln) as [[indent key]|].
  { apply declare_unique; [|done]. constructor; [apply NoDup_nil_2 | constructor]. }
  destruct (if isDirectiveLine ln then None else leafRegex ln) as [[indent key]|]; [|done].
  apply declare_unique; [constructor | done].
Qed.

(** For every body, the keys of the children of every node of the parsed
    tree are pairwise different. *)
Lemma parsed_tree_unique_keys (source : jsstring) :
  unique_keys (tree_props (parseStyleguidePropsTree source)).
Proof.
  unfold parseStyleguidePropsTree. simpl.
  generalize (zip (seq 0 (length (split_on 10 source))) (split_on 10 source)).
  intros lines.
  assert (Hinit : unique_keys (root_props init))
    by (constructor; [apply NoDup_nil_2 | constructor]).
  revert Hinit. generalize init.
  induction lines as [|il lines IH]; intros st Hst; simpl; [done|].
  by apply IH, step_unique.
Qed.

(** A declaration whose key does not read as present stores the node and
    adds no warning. *)
Lemma declare_absent (st : state) (cur : noderef) (key : jsstring)
    (node : StyleguideNode) (lineNumber : nat) (push : bool)
    (o : JsObject.t StyleguideNode) :
  children <$> node_at cur (update_at cur ensure_children (root_props st)) = Some (Some o) ->
  JsObject.truthy_at key o = false ->
  let st' := declare st cur key node lineNumber push in
  root_props st'
  = update_at cur (set_child key node) (update_at cur ensure_children (root_props st))
  /\ root_warnings st' = root_warnings st.
Proof.
  intros Hcur Habsent. unfold declare.
  destruct (node_at cur _) as [n|]; [|discriminate].
  simpl in Hcur. injection Hcur as Hcur. rewrite Hcur, Habsent. by simpl.
Qed.

End UniqueKeys.

(** * Further properties of the code *)

(** ** Content neutralization *)

Section NeutralizeFacts.
Import Js PropParser.

(** Induction for loops that step by one or by two. *)
Lemma list_pair_ind {A : Type} (P : list A -> Prop) :
  P [] -> (forall a, P [a]) ->
  (forall a b l, P l -> P (b :: l) -> P (a :: b :: l)) ->
  forall l, P l.
Proof.
  intros Hnil Hone Hstep l.
  assert (H : P l /\ forall a, P (a :: l)); [|by destruct H].
  induction l as [|b l [IH1 IH2]]; [by split|].
  split; [apply IH2|]. intros a. by apply Hstep.
Qed.

Lemma eqc_true (a b : N) : eqc a b = true -> a = b.
Proof. apply N.eqb_eq. Qed.

Lemma eqc_false (a b : N) : eqc a b = false -> a <> b.
Proof. apply N.eqb_neq. Qed.

(** One round of each loop. *)
Lemma multiLineComments_cons (inside : bool) (c : N) (r : jsstring) :
  multiLineComments inside (c :: r)
  = if inside then
      match r with
      | c' :: r' =>
          if eqc c (ch "*") && eqc c' (ch "/")
          then 32%N :: 32%N :: multiLineComments false r'
          else (if eqc c 10 then 10%N else 32%N) :: multiLineComments true r
      | [] => [if eqc c 10 then 10%N else 32%N]
      end
    else
      match r with
      | c' :: r' =>
          if eqc c (ch "/") && eqc c' (ch "*")
          then 32%N :: 32%N :: multiLineComments true r'
          else c :: multiLineComments false r
      | [] => [c]
      end.
Proof. reflexivity. Qed.

Lemma singleLineComments_cons (inside : bool) (c : N) (r : jsstring) :
  singleLineComments inside (c :: r)
  = if inside then
      if eqc c 10 then c :: singleLineComments false r
      else 32%N :: singleLineComments true r
    else
      match r with
      | c' :: r' =>
          if eqc c (ch "/") && eqc c' (ch "/")
          then 32%N :: 32%N :: singleLineComments true r'
          else c :: singleLineComments false r
      | [] => [c]
      end.
Proof. reflexivity. Qed.

Lemma strings_cons (quote : option N) (c : N) (r : jsstring) :
  strings quote (c :: r)
  = match quote with
    | None =>
        if eqc c 34 || eqc c 39 then c :: strings (Some c) r
        else c :: strings None r
    | Some q =>
        if eqc c 92 then
          match r with
          | _ :: r' => 32%N :: 32%N :: strings (Some q) r'
          | [] =>
              if eqc c q then q :: strings None r
              else if eqc c 10 then 10%N :: strings (Some q) r
              else 32%N :: strings (Some q) r
          end
        else if eqc c q then q :: strings None r
        else if eqc c 10 then 10%N :: strings (Some q) r
        else 32%N :: strings (Some q) r
    end.
Proof. reflexivity. Qed.

Lemma eel_cons (depth : nat) (c : N) (r : jsstring) :
  eel depth (c :: r)
  = match depth with
    | 0 =>
        match r with
        | c' :: r' =>
            if eqc c (ch "$") && eqc c' (ch "{")
            then 32%N :: 32%N :: eel 1 r'
            else c :: eel 0 r
        | [] => [c]
        end
    | S d =>
        if eqc c (ch "{") then 32%N :: eel (S (S d)) r
        else if eqc c (ch "}") then 32%N :: eel d r
        else if eqc c 10 then 10%N :: eel (S d) r
        else 32%N :: eel (S d) r
    end.
Proof. reflexivity. Qed.

(** Case analysis on the tests of a round. *)
Ltac pass_cases :=
  repeat match goal with
    | |- context [eqc ?a ?b] =>
        let E := fresh "E" in
        destruct (eqc a b) eqn:E;
        [apply eqc_true in E | apply eqc_false in E];
        cbn [andb orb negb]; cbv beta iota
    end.

Ltac pass_close :=
  first
    [ left; reflexivity
    | right; reflexivity
    | left; congruence
    | right; split;
      [ reflexivity
      | first [ assumption | congruence | by vm_compute
              | subst; by vm_compute ] ] ].

Ltac pass_step IH1 IH2 R :=
  repeat first
    [ apply IH1
    | apply IH2
    | match goal with |- Forall2 _ [] _ => apply Forall2_nil end
    | match goal with |- Forall2 _ (_ :: _) (_ :: _) => constructor end
    | match goal with |- R _ _ => unfold R; pass_close end ].

Lemma multiLineComments_in_line (inside : bool) (s : jsstring) :
  Forall2 kept_or_blank_in_line s (multiLineComments inside s).
Proof.
  revert inside. induction s as [|a|a b l IH1 IH2] using list_pair_ind;
    intros inside; [constructor|..]; rewrite multiLineComments_cons;
    destruct inside; cbv beta iota; pass_cases;
    pass_step IH1 IH2 kept_or_blank_in_line.
Qed.

Lemma singleLineComments_in_line (inside : bool) (s : jsstring) :
  Forall2 kept_or_blank_in_line s (singleLineComments inside s).
Proof.
  revert inside. induction s as [|a|a b l IH1 IH2] using list_pair_ind;
    intros inside; [constructor|..]; rewrite singleLineComments_cons;
    destruct inside; cbv beta iota; pass_cases;
    pass_step IH1 IH2 kept_or_blank_in_line.
Qed.

Lemma eel_in_line (depth : nat) (s : jsstring) :
  Forall2 kept_or_blank_in_line s (eel depth s).
Proof.
  revert depth. induction s as [|a|a b l IH1 IH2] using list_pair_ind;
    intros depth; [constructor|..]; rewrite eel_cons;
    destruct depth; cbv beta iota; pass_cases;
    pass_step IH1 IH2 kept_or_blank_in_line.
Qed.

Lemma strings_kept_or_blank (quote : option N) (s : jsstring) :
  Forall2 kept_or_blank s (strings quote s).
Proof.
  revert quote. induction s as [|a|a b l IH1 IH2] using list_pair_ind;
    intros quote; [constructor|..]; rewrite strings_cons;
    destruct quote; cbv beta iota; pass_cases;
    pass_step IH1 IH2 kept_or_blank.
Qed.

Lemma in_line_kept_or_blank (s t : jsstring) :
  Forall2 kept_or_blank_in_line s t -> Forall2 kept_or_blank s t.
Proof.
  induction 1 as [|a b s t [->|[-> _]] _ IH]; constructor; auto;
    unfold kept_or_blank; auto.
Qed.

Lemma kept_or_blank_trans (s t u : jsstring) :
  Forall2 kept_or_blank s t -> Forall2 kept_or_blank t u ->
  Forall2 kept_or_blank s u.
Proof.
  intros Hst. revert u. induction Hst as [|a b s t Hab _ IH]; intros u Htu.
  - by inversion Htu.
  - inversion Htu as [|? c ? u' Hbc Htu']; subst. constructor; [|by apply IH].
    unfold kept_or_blank in *. destruct Hbc as [->| ->]; auto.
Qed.

Lemma neutralizeContent_kept_or_blank (source : jsstring) :
  Forall2 kept_or_blank source (neutralizeContent source).
Proof.
  unfold neutralizeContent, neutralizeEel, neutralizeStrings,
    neutralizeSingleLineComments, neutralizeMultiLineComments.
  eapply kept_or_blank_trans; [|apply in_line_kept_or_blank, eel_in_line].
  eapply kept_or_blank_trans; [|apply strings_kept_or_blank].
  eapply kept_or_blank_trans;
    [|apply in_line_kept_or_blank, singleLineComments_in_line].
  apply in_line_kept_or_blank, multiLineComments_in_line.
Qed.

Lemma has_pair_cons (a b x : N) (t : jsstring) :
  has_pair a b (x :: t) -> (x = a /\ hd_error t = Some b) \/ has_pair a b t.
Proof.
  intros [[|i] [H1 H2]]; simpl in *.
  - left. split; [congruence|]. by destruct t.
  - right. by exists i.
Qed.

Lemma head_kept_or_blank (c : N) (r out : jsstring) :
  Forall2 kept_or_blank (c :: r) out ->
  hd_error out = Some c \/ hd_error out = Some 32%N.
Proof. intros H. inversion H as [|? b ? ? [->| ->]]; subst; simpl; auto. Qed.

(** A pass that only blanks cannot bring two code units together. *)
Lemma has_pair_kept_or_blank (a b : N) (s t : jsstring) :
  Forall2 kept_or_blank s t -> a <> 32%N -> b <> 32%N ->
  has_pair a b t -> has_pair a b s.
Proof.
  intros Hst Ha Hb [i [H1 H2]]. exists i.
  destruct (Forall2_lookup_r _ _ _ _ _ Hst H1) as (x & Hx & [->| ->]); [|done].
  destruct (Forall2_lookup_r _ _ _ _ _ Hst H2) as (y & Hy & [->| ->]); [|done].
  done.
Qed.

Lemma multiLineComments_no_opener (inside : bool) (s : jsstring) :
  ~ has_pair (ch "/") (ch "*") (multiLineComments inside s).
Proof.
  revert inside. induction s as [|a|a b l IH1 IH2] using list_pair_ind;
    intros inside.
  - intros [i [H _]]. by destruct inside.
  - intros [[|i] [H1 H2]]; destruct inside; simpl in *; discriminate.
  - rewrite multiLineComments_cons. destruct inside; cbv beta iota; pass_cases;
      intros Hp;
      repeat (apply has_pair_cons in Hp as [[Hx Hhd]|Hp];
              [try (vm_compute in Hx; discriminate); try congruence|]);
      try (by eapply IH1); try (by eapply IH2);
      try (destruct (head_kept_or_blank b l _
             (in_line_kept_or_blank _ _ (multiLineComments_in_line false (b :: l))))
             as [Hh|Hh]; rewrite Hh in Hhd;
           first [congruence | vm_compute in Hhd; discriminate]).
Qed.

Lemma singleLineComments_no_opener (inside : bool) (s : jsstring) :
  ~ has_pair (ch "/") (ch "/") (singleLineComments inside s).
Proof.
  revert inside. induction s as [|a|a b l IH1 IH2] using list_pair_ind;
    intros inside.
  - intros [i [H _]]. by destruct inside.
  - rewrite singleLineComments_cons. destruct inside; cbv beta iota; pass_cases;
      intros [[|i] [H1 H2]]; simpl in *; discriminate.
  - rewrite singleLineComments_cons. destruct inside; cbv beta iota; pass_cases;
      intros Hp;
      repeat (apply has_pair_cons in Hp as [[Hx Hhd]|Hp];
              [try (vm_compute in Hx; discriminate);
               try (subst; vm_compute in Hx; discriminate); try congruence|]);
      try (by eapply IH1); try (by eapply IH2);
      try (destruct (head_kept_or_blank b l _
             (in_line_kept_or_blank _ _ (singleLineComments_in_line false (b :: l))))
             as [Hh|Hh]; rewrite Hh in Hhd;
           first [congruence | vm_compute in Hhd; discriminate]).
Qed.

Lemma eel_no_opener (depth : nat) (s : jsstring) :
  ~ has_pair (ch "$") (ch "{") (eel depth s).
Proof.
  revert depth. induction s as [|a|a b l IH1 IH2] using list_pair_ind;
    intros depth.
  - intros [i [H _]]. by destruct depth.
  - rewrite eel_cons. destruct depth; cbv beta iota; pass_cases;
      intros [[|i] [H1 H2]]; simpl in *; discriminate.
  - rewrite eel_cons. destruct depth; cbv beta iota; pass_cases;
      intros Hp;
      repeat (apply has_pair_cons in Hp as [[Hx Hhd]|Hp];
              [try (vm_compute in Hx; discriminate);
               try (subst; vm_compute in Hx; discriminate); try congruence|]);
      try (by eapply IH1); try (by eapply IH2);
      try (destruct (head_kept_or_blank b l _
             (in_line_kept_or_blank _ _ (eel_in_line 0 (b :: l))))
             as [Hh|Hh]; rewrite Hh in Hhd;
           first [congruence | vm_compute in Hhd; discriminate]).
Qed.

(** Without the code unit that starts what a pass blanks, the pass changes
    nothing. *)
Lemma multiLineComments_id (s : jsstring) :
  ch "/" ∉ s -> multiLineComments false s = s.
Proof.
  induction s as [|c r IH]; [done|]. intros Hnot.
  apply not_elem_of_cons in Hnot as [Hc Hr].
  rewrite multiLineComments_cons. cbv beta iota.
  destruct r as [|c' r']; [done|]. pass_cases; [congruence..|].
  by rewrite IH.
Qed.

Lemma singleLineComments_id (s : jsstring) :
  ch "/" ∉ s -> singleLineComments false s = s.
Proof.
  induction s as [|c r IH]; [done|]. intros Hnot.
  apply not_elem_of_cons in Hnot as [Hc Hr].
  rewrite singleLineComments_cons. cbv beta iota.
  destruct r as [|c' r']; [done|]. pass_cases; [congruence..|].
  by rewrite IH.
Qed.

Lemma strings_id (s : jsstring) :
  34%N ∉ s -> 39%N ∉ s -> strings None s = s.
Proof.
  induction s as [|c r IH]; [done|]. intros Hd Hs.
  apply not_elem_of_cons in Hd as [Hd Hdr].
  apply not_elem_of_cons in Hs as [Hs Hsr].
  rewrite strings_cons. cbv beta iota. pass_cases; [congruence..|].
  by rewrite IH.
Qed.

Lemma eel_id (s : jsstring) : ch "$" ∉ s -> eel 0 s = s.
Proof.
  induction s as [|c r IH]; [done|]. intros Hnot.
  apply not_elem_of_cons in Hnot as [Hc Hr].
  rewrite eel_cons. cbv beta iota.
  destruct r as [|c' r']; [done|]. pass_cases; [congruence..|].
  by rewrite IH.
Qed.

Lemma in_line_line_breaks (s t : jsstring) (i : nat) :
  Forall2 kept_or_blank_in_line s t ->
  t !! i = Some 10%N <-> s !! i = Some 10%N.
Proof.
  intros Hst. split; intros Hi.
  - destruct (Forall2_lookup_r _ _ _ _ _ Hst Hi) as (x & Hx & [->|[? _]]);
      [done | discriminate].
  - destruct (Forall2_lookup_l _ _ _ _ _ Hst Hi) as (y & Hy & [->|[_ ?]]);
      [done | done].
Qed.

(** X1: the neutralization keeps every offset: the result has the length of
    the source, and at every index it has the code unit of the source or a
    space; so it has a line break only where the source has one.  A source
    without [/], quotes and [$] comes back unchanged. *)
Theorem neutralizeContent_keeps_offsets (source : jsstring) :
  length (neutralizeContent source) = length source
  /\ Forall2 kept_or_blank source (neutralizeContent source)
  /\ (forall i, neutralizeContent source !! i = Some 10%N ->
                source !! i = Some 10%N)
  /\ (ch "/" ∉ source -> 34%N ∉ source -> 39%N ∉ source -> ch "$" ∉ source ->
      neutralizeContent source = source).
Proof.
  pose proof (neutralizeContent_kept_or_blank source) as H.
  split; [symmetry; by eapply Forall2_length|]. split; [done|]. split.
  - intros i Hi.
    destruct (Forall2_lookup_r _ _ _ _ _ H Hi) as (x & Hx & [->|?]);
      [done | discriminate].
  - intros H1 H2 H3 H4.
    unfold neutralizeContent, neutralizeEel, neutralizeStrings,
      neutralizeSingleLineComments, neutralizeMultiLineComments.
    rewrite multiLineComments_id, singleLineComments_id, strings_id, eel_id; done.
Qed.

(** X2: in what the neutralization returns no comment and no expression
    begins: it has no [/] followed by [*], no [/] followed by [/] and no
    [$] followed by [{].  Each pass removes its own opener and the passes
    after it only blank. *)
Theorem neutralizeContent_leaves_no_opener (source : jsstring) :
  ~ has_pair (ch "/") (ch "*") (neutralizeContent source)
  /\ ~ has_pair (ch "/") (ch "/") (neutralizeContent source)
  /\ ~ has_pair (ch "$") (ch "{") (neutralizeContent source).
Proof.
  unfold neutralizeContent, neutralizeEel, neutralizeStrings,
    neutralizeSingleLineComments, neutralizeMultiLineComments.
  set (s1 := multiLineComments false source).
  set (s2 := singleLineComments false s1).
  set (s3 := strings None s2).
  pose proof (in_line_kept_or_blank _ _ (singleLineComments_in_line false s1)) as H12.
  pose proof (strings_kept_or_blank None s2) as H23.
  pose proof (in_line_kept_or_blank _ _ (eel_in_line 0 s3)) as H34.
  fold s2 in H12, H23. fold s3 in H23, H34.
  split; [|split].
  - intros Hp. apply (multiLineComments_no_opener false source). fold s1.
    apply (has_pair_kept_or_blank _ _ s1 s2 H12); [by vm_compute..|].
    apply (has_pair_kept_or_blank _ _ s2 s3 H23); [by vm_compute..|].
    by apply (has_pair_kept_or_blank _ _ s3 _ H34); [by vm_compute..|].
  - intros Hp. apply (singleLineComments_no_opener false s1). fold s2.
    apply (has_pair_kept_or_blank _ _ s2 s3 H23); [by vm_compute..|].
    by apply (has_pair_kept_or_blank _ _ s3 _ H34); [by vm_compute..|].
  - apply eel_no_opener.
Qed.

(** X3: the two comment passes and the expression pass keep the line
    structure: their result has a line break exactly where the source has
    one.  The string pass does not: a line break after a backslash inside a
    string is blanked with it. *)
Theorem comment_passes_keep_line_breaks (source : jsstring) (i : nat) :
  (neutralizeMultiLineComments source !! i = Some 10%N <-> source !! i = Some 10%N)
  /\ (neutralizeSingleLineComments source !! i = Some 10%N
      <-> source !! i = Some 10%N)
  /\ (neutralizeEel source !! i = Some 10%N <-> source !! i = Some 10%N)
  /\ neutralizeStrings [34; 92; 10; 34]%N = [34; 32; 32; 34]%N.
Proof.
  split; [|split; [|split]]; [..|done].
  - apply in_line_line_breaks, multiLineComments_in_line.
  - apply in_line_line_breaks, singleLineComments_in_line.
  - apply in_line_line_breaks, eel_in_line.
Qed.

End NeutralizeFacts.

(** ** More on maps *)

Section JsMapMoreFacts.
Context {K V : Type} `{EqDecision K}.
Implicit Types (m : JsMap.t K V) (k : K) (v : V).

Lemma get_None_keys m k : JsMap.get k m = None <-> k ∉ JsMap.keys m.
Proof.
  unfold JsMap.keys. induction m as [|[k' v'] m IH]; simpl.
  - split; [intros _ Hin; by apply elem_of_nil in Hin | done].
  - destruct (decide (k = k')) as [->|Hne].
    + split; [discriminate|]. intros Hnot. destruct Hnot. apply list_elem_of_here.
    + rewrite IH, not_elem_of_cons. tauto.
Qed.

Lemma elem_get m k v : NoDup (JsMap.keys m) -> (k, v) ∈ m -> JsMap.get k m = Some v.
Proof.
  unfold JsMap.keys. induction m as [|[k' v'] m IH]; simpl; intros Hnd Hin.
  - by apply elem_of_nil in Hin.
  - apply list.NoDup_cons in Hnd as [Hk' Hnd].
    apply elem_of_cons in Hin as [[= -> ->]|Hin].
    + by rewrite decide_True.
    + destruct (decide (k = k')) as [->|Hne]; [|by apply IH].
      destruct Hk'. apply (list_elem_of_fmap_2 fst) in Hin. exact Hin.
Qed.

Lemma keys_map_set m k v :
  JsMap.keys (JsMap.set k v m)
  = match JsMap.get k m with
    | Some _ => JsMap.keys m
    | None => JsMap.keys m ++ [k]
    end.
Proof.
  unfold JsMap.keys. induction m as [|[k' v'] m IH]; simpl; [done|].
  destruct (decide (k = k')) as [->|Hne]; simpl; [done|].
  rewrite IH. by destruct (JsMap.get k m).
Qed.

Lemma NoDup_keys_map_set m k v :
  NoDup (JsMap.keys m) -> NoDup (JsMap.keys (JsMap.set k v m)).
Proof.
  intros Hnd. rewrite keys_map_set.
  destruct (JsMap.get k m) eqn:Eg; [done|].
  apply list.NoDup_app. split; [done|]. split; [|apply NoDup_singleton].
  intros x Hx Hx'. apply list_elem_of_singleton in Hx' as ->.
  by apply get_None_keys in Eg.
Qed.

Lemma keys_map_delete m k (x : K) :
  x ∈ JsMap.keys (JsMap.delete k m) <-> x ∈ JsMap.keys m /\ x <> k.
Proof.
  unfold JsMap.keys. induction m as [|[k' v'] m IH]; simpl.
  - rewrite elem_of_nil. tauto.
  - destruct (decide (k = k')) as [->|Hne]; simpl.
    + rewrite IH, elem_of_cons. split; [tauto|].
      intros [[->|Hin] Hx]; [done | tauto].
    + rewrite !elem_of_cons, IH. split; [|tauto].
      intros [->|[Hin Hx]]; [split; [by left | congruence] | tauto].
Qed.

Lemma NoDup_keys_map_delete m k :
  NoDup (JsMap.keys m) -> NoDup (JsMap.keys (JsMap.delete k m)).
Proof.
  unfold JsMap.keys. induction m as [|[k' v'] m IH]; simpl; intros Hnd; [done|].
  apply list.NoDup_cons in Hnd as [Hk' Hnd].
  destruct (decide (k = k')) as [->|Hne]; simpl; [by apply IH|].
  apply list.NoDup_cons. split; [|by apply IH].
  intros Hin. apply Hk'.
  by apply (keys_map_delete m k k') in Hin as [Hin _].
Qed.

(** Writing a value that is there changes nothing, and a second write of a
    key takes the place of the first. *)
Lemma set_same m k v : JsMap.get k m = Some v -> JsMap.set k v m = m.
Proof.
  induction m as [|[k' v'] m IH]; simpl; [discriminate|].
  destruct (decide (k = k')) as [->|Hne]; [by intros [= ->]|].
  intros Hg. by rewrite IH.
Qed.

Lemma set_set_eq m k v v' : JsMap.set k v (JsMap.set k v' m) = JsMap.set k v m.
Proof.
  induction m as [|[k0 v0] m IH]; simpl.
  - by rewrite decide_True.
  - destruct (decide (k = k0)) as [->|Hne]; simpl.
    + by rewrite decide_True.
    + rewrite decide_False by done. by rewrite IH.
Qed.

(** Writes of two keys commute when one of the keys is there already. *)
Lemma set_set_comm m k k' v v' :
  k <> k' -> is_Some (JsMap.get k' m) ->
  JsMap.set k' v' (JsMap.set k v m) = JsMap.set k v (JsMap.set k' v' m).
Proof.
  intros Hne. induction m as [|[k0 v0] m IH]; simpl.
  - intros [x Hx]. discriminate.
  - intros Hsome.
    destruct (decide (k = k0)) as [Hk|Hk]; destruct (decide (k' = k0)) as [Hk'|Hk'];
      try congruence; subst;
      repeat (progress (simpl; rewrite ?decide_True, ?decide_False by done));
      try done.
    by rewrite IH.
Qed.

End JsMapMoreFacts.

Lemma filter_full_length {A : Type} (P : A -> Prop) `{forall x, Decision (P x)}
    (l : list A) :
  length (filter P l) = length l -> filter P l = l.
Proof.
  induction l as [|x l IH]; [done|]. rewrite filter_cons.
  destruct (decide (P x)); simpl.
  - intros [= Hl]. by rewrite IH.
  - intros Hl. pose proof (length_filter P l). lia.
Qed.

(** ** More on the Prop Index *)

Section PropIndexMoreFacts.
Import PropIndex.

(** X4: the two path comparisons decide what their names say: [pathsEqual]
    holds exactly for equal paths, and [isSuffix(full, candidate)] exactly
    when [full] ends with [candidate].  So the empty path is a suffix of
    every path, a longer path is a suffix of none, and equal paths are
    suffixes of each other. *)
Theorem path_comparisons_decide (a b : list jsstring) :
  (pathsEqual a b = true <-> a = b)
  /\ (isSuffix a b = true <-> exists front, a = front ++ b)
  /\ isSuffix a [] = true
  /\ (length a < length b -> isSuffix a b = false)
  /\ (pathsEqual a b = true -> isSuffix a b = true).
Proof.
  split; [apply pathsEqual_spec|]. split; [apply isSuffix_spec|]. split; [|split].
  - apply isSuffix_spec. exists a. by rewrite app_nil_r.
  - intros Hlt. destruct (isSuffix a b) eqn:E; [|done].
    apply isSuffix_spec in E as [front ->]. rewrite length_app in Hlt. lia.
  - intros ->%pathsEqual_spec. apply isSuffix_spec. by exists [].
Qed.

Lemma resolve_fold_sound (usagePath : list jsstring) (l : list IndexedProp)
    (best : option IndexedProp) (len : nat) (e : IndexedProp) :
  (fold_left (resolve_step usagePath) l (best, len)).1 = Some e ->
  best = Some e \/ (e ∈ l /\ propPath e `suffix_of` usagePath).
Proof.
  revert best len. induction l as [|x l IH]; intros best len; simpl; [by left|].
  intros Hf. unfold resolve_step at 2 in Hf. simpl in Hf.
  destruct (isSuffix usagePath (propPath x)) eqn:Es.
  - destruct (len <? length (propPath x)).
    + destruct (IH _ _ Hf) as [[= ->]|[Hin Hs]].
      * right. split; [apply list_elem_of_here | by apply isSuffix_spec].
      * right. split; [by apply list_elem_of_further | done].
    + destruct (IH _ _ Hf) as [->|[Hin Hs]]; [by left|].
      right. split; [by apply list_elem_of_further | done].
  - destruct (IH _ _ Hf) as [->|[Hin Hs]]; [by left|].
    right. split; [by apply list_elem_of_further | done].
Qed.

(** X5: whatever the index holds, an entry [resolve] returns is one of the
    entries stored for that prototype, and its path is a suffix of the
    usage path, so never longer than it.  [resolve] returns nothing for a
    prototype without entries, and it returns an entry with exactly the
    usage path whenever one is stored. *)
Theorem resolve_returns_stored_suffix (idx : t) (protoName : jsstring)
    (usagePath : list jsstring) :
  (forall e, resolve idx protoName usagePath = Some e ->
     e ∈ stored idx protoName
     /\ propPath e `suffix_of` usagePath
     /\ length (propPath e) <= length usagePath)
  /\ (stored idx protoName = [] -> resolve idx protoName usagePath = None)
  /\ (forall e0, e0 ∈ stored idx protoName -> propPath e0 = usagePath ->
        exists e, resolve idx protoName usagePath = Some e
                  /\ propPath e = usagePath).
Proof.
  unfold resolve, stored.
  destruct (JsMap.get protoName idx) as [props|].
  2: { split; [discriminate|]. split; [done|].
       intros e0 He0. by apply elem_of_nil in He0. }
  destruct (length props =? 0) eqn:El.
  { apply Nat.eqb_eq in El. destruct props; [|discriminate].
    split; [discriminate|]. split; [done|].
    intros e0 He0. by apply elem_of_nil in He0. }
  pose proof (find_first (fun prop => pathsEqual usagePath (propPath prop)) props)
    as Hfind.
  destruct (find _ props) as [e1|].
  - destruct Hfind as (i & Hi & He1 & _). apply pathsEqual_spec in He1.
    split; [|split].
    + intros e [= <-]. split; [by eapply list_elem_of_lookup_2|].
      rewrite <- He1. split; [by exists [] | done].
    + intros ->. discriminate.
    + intros _ _ _. by exists e1.
  - split; [|split].
    + intros e He. destruct (resolve_fold_sound _ _ _ _ _ He) as [?|[Hin Hs]];
        [discriminate|].
      split; [done|]. split; [done|]. destruct Hs as [front ->].
      rewrite length_app. lia.
    + intros ->. discriminate.
    + intros e0 He0 Heq. specialize (Hfind e0 He0).
      assert (pathsEqual usagePath (propPath e0) = true) by by apply pathsEqual_spec.
      congruence.
Qed.

Lemma indexPrototype_stored_eq (idx : t) (nm u : jsstring)
    (defs : list PropParser.PropDefinition) :
  stored (indexPrototype nm defs u idx) nm
  = stored idx nm
    ++ map (as_indexed u) (filter (fun d => PropParser.prototypeName d = nm) defs).
Proof. unfold stored, indexPrototype. by rewrite get_set_eq. Qed.

Lemma indexPrototype_stored_ne (idx : t) (nm nm' u : jsstring)
    (defs : list PropParser.PropDefinition) :
  nm <> nm' -> stored (indexPrototype nm defs u idx) nm' = stored idx nm'.
Proof. intros Hne. unfold stored, indexPrototype. by rewrite get_set_ne. Qed.

(** X6: [indexPrototype] appends: after it the list of the prototype is the
    old list followed by the entries of those definitions that carry this
    prototype name, each owned by the given file, and the lists of all
    other prototypes are as before.  Nothing is replaced or de-duplicated:
    the same call again adds the same entries again. *)
Theorem indexPrototype_appends (idx : t) (nm u : jsstring)
    (defs : list PropParser.PropDefinition) :
  let added :=
    map (as_indexed u) (filter (fun d => PropParser.prototypeName d = nm) defs) in
  stored (indexPrototype nm defs u idx) nm = stored idx nm ++ added
  /\ (forall nm', nm <> nm' ->
        stored (indexPrototype nm defs u idx) nm' = stored idx nm')
  /\ stored (indexPrototype nm defs u (indexPrototype nm defs u idx)) nm
     = stored idx nm ++ added ++ added
  /\ Forall (fun e => uri e = u /\ prototypeName e = nm) added.
Proof.
  intros added. split; [apply indexPrototype_stored_eq|].
  split; [intros nm'; apply indexPrototype_stored_ne|]. split.
  - rewrite !indexPrototype_stored_eq. by rewrite <- app_assoc.
  - subst added. apply list.Forall_fmap, list.Forall_forall. intros d Hd.
    by apply list_elem_of_filter in Hd as [Hd _].
Qed.

(** The loop of [removeByUri] over entries whose keys differ. *)
Lemma removeByUri_loop_other (u : jsstring)
    (l : list (jsstring * list IndexedProp)) (m : t) (nm : jsstring) :
  nm ∉ map fst l ->
  JsMap.get nm
    (fold_left
       (fun (m : t) '(prototypeName, props) =>
          let filtered := filter (fun p => uri p <> u) props in
          if length filtered =? 0 then JsMap.delete prototypeName m
          else if negb (length filtered =? length props)
               then JsMap.set prototypeName filtered m
               else m)
       l m)
  = JsMap.get nm m.
Proof.
  revert m. induction l as [|[k props] l IH]; intros m Hnot; simpl; [done|].
  simpl in Hnot. apply not_elem_of_cons in Hnot as [Hne Hnot].
  rewrite IH by done.
  destruct (length _ =? 0); [by apply get_delete_ne|].
  destruct (negb _); [by apply get_set_ne | done].
Qed.

Lemma removeByUri_loop_key (u : jsstring)
    (l : list (jsstring * list IndexedProp)) (m : t) (nm : jsstring)
    (props : list IndexedProp) :
  NoDup (map fst l) -> (nm, props) ∈ l -> JsMap.get nm m = Some props ->
  JsMap.get nm
    (fold_left
       (fun (m : t) '(prototypeName, props) =>
          let filtered := filter (fun p => uri p <> u) props in
          if length filtered =? 0 then JsMap.delete prototypeName m
          else if negb (length filtered =? length props)
               then JsMap.set prototypeName filtered m
               else m)
       l m)
  = if length (filter (fun p => uri p <> u) props) =? 0 then None
    else Some (filter (fun p => uri p <> u) props).
Proof.
  revert m. induction l as [|[k ps] l IH]; intros m Hnd Hin Hget; simpl.
  - by apply elem_of_nil in Hin.
  - simpl in Hnd. apply list.NoDup_cons in Hnd as [Hk Hnd].
    apply elem_of_cons in Hin as [[= <- <-]|Hin].
    + rewrite removeByUri_loop_other by done.
      destruct (length (filter _ props) =? 0) eqn:E0; [apply get_delete_eq|].
      destruct (length (filter _ props) =? length props) eqn:E1; simpl.
      * apply Nat.eqb_eq, filter_full_length in E1. by rewrite E1.
      * apply get_set_eq.
    + assert (Hne : k <> nm).
      { intros ->. apply Hk. by apply (list_elem_of_fmap_2 fst) in Hin. }
      apply IH; [done..|]. simpl. rewrite <- Hget.
      destruct (length (filter (fun p => uri p <> u) ps) =? 0);
        [by apply get_delete_ne|].
      destruct (negb _); [by apply get_set_ne | done].
Qed.

Lemma removeByUri_get (idx : t) (u nm : jsstring) :
  NoDup (JsMap.keys idx) ->
  JsMap.get nm (removeByUri u idx)
  = match JsMap.get nm idx with
    | Some props =>
        if length (filter (fun p => uri p <> u) props) =? 0 then None
        else Some (filter (fun p => uri p <> u) props)
    | None => None
    end.
Proof.
  intros Hnd. destruct (JsMap.get nm idx) as [props|] eqn:Eg.
  - exact (removeByUri_loop_key u idx idx nm props Hnd (get_elem _ _ _ Eg) Eg).
  - rewrite <- Eg. apply (removeByUri_loop_other u idx idx nm).
    by apply get_None_keys.
Qed.

Lemma removeByUri_stored (idx : t) (u nm : jsstring) :
  NoDup (JsMap.keys idx) ->
  stored (removeByUri u idx) nm = filter (fun p => uri p <> u) (stored idx nm)
  /\ (filter (fun p => uri p <> u) (stored idx nm) = [] ->
      JsMap.get nm (removeByUri u idx) = None).
Proof.
  intros Hnd. unfold stored. rewrite removeByUri_get by done.
  destruct (JsMap.get nm idx) as [props|] eqn:Eg; [|done].
  destruct (length _ =? 0) eqn:E0.
  - apply Nat.eqb_eq, nil_length_inv in E0. by rewrite E0.
  - split; [done|]. intros Hnil. rewrite Hnil in E0. discriminate.
Qed.

Lemma removeByUri_keys (idx : t) (u : jsstring) :
  NoDup (JsMap.keys idx) -> NoDup (JsMap.keys (removeByUri u idx)).
Proof.
  unfold removeByUri. generalize idx at 2 as l. intros l. revert idx.
  induction l as [|[k props] l IH]; intros idx Hnd; simpl; [done|].
  apply IH. destruct (length _ =? 0); [by apply NoDup_keys_map_delete|].
  destruct (negb _); [by apply NoDup_keys_map_set | done].
Qed.

(** X7: in a map with one entry per key, as a [Map] is, [removeByUri]
    leaves for every prototype exactly the entries of the other files, in
    their order; no entry of the removed file remains anywhere, a prototype
    left without entries loses its key, and the keys stay unique. *)
Theorem removeByUri_drops_owned_entries (idx : t) (u : jsstring) :
  NoDup (JsMap.keys idx) ->
  (forall nm, stored (removeByUri u idx) nm
              = filter (fun p => uri p <> u) (stored idx nm))
  /\ (forall nm e, e ∈ stored (removeByUri u idx) nm -> uri e <> u)
  /\ (forall nm, Forall (fun p => uri p = u) (stored idx nm) ->
                 JsMap.get nm (removeByUri u idx) = None)
  /\ NoDup (JsMap.keys (removeByUri u idx)).
Proof.
  intros Hnd. split; [|split; [|split]].
  - intros nm. by apply removeByUri_stored.
  - intros nm e. rewrite (proj1 (removeByUri_stored idx u nm Hnd)).
    intros He. by apply list_elem_of_filter in He as [He _].
  - intros nm Hall. apply removeByUri_stored; [done|].
    apply elem_of_nil_inv. intros e He.
    apply list_elem_of_filter in He as [Hne He].
    rewrite list.Forall_forall in Hall. by apply Hne, Hall.
  - by apply removeByUri_keys.
Qed.

(** Removing [f] from the example index leaves the two entries of [g] for
    [X]; removing [g] leaves the entries of [f] for [X] and nothing for
    [Y]. *)
Lemma removeByUri_drops_owned_entries_witness :
  map uri (stored (removeByUri file_f index_f_and_g) (Js.str "X")) = [file_g; file_g]
  /\ JsMap.get (Js.str "Y") (removeByUri file_g index_f_and_g) = None
  /\ forall nm e, e ∈ stored (removeByUri file_f index_f_and_g) nm -> uri e <> file_f.
Proof.
  assert (Hnd : NoDup (JsMap.keys index_f_and_g)).
  { vm_compute. apply list.NoDup_cons. split.
    - intros H. apply list_elem_of_singleton in H. discriminate.
    - apply NoDup_singleton. }
  split; [by vm_compute|]. split; [by vm_compute|].
  apply (removeByUri_drops_owned_entries index_f_and_g file_f Hnd).
Defined.

Lemma filter_all {A : Type} (P : A -> Prop) `{forall x, Decision (P x)}
    (l : list A) :
  (forall x, x ∈ l -> P x) -> filter P l = l.
Proof.
  induction l as [|x l IH]; intros Hall; [done|].
  rewrite filter_cons_True by (apply Hall, list_elem_of_here).
  rewrite IH; [done|]. intros y Hy. by apply Hall, list_elem_of_further.
Qed.

Lemma filter_none {A : Type} (P : A -> Prop) `{forall x, Decision (P x)}
    (l : list A) :
  (forall x, x ∈ l -> ~ P x) -> filter P l = [].
Proof.
  induction l as [|x l IH]; intros Hall; [done|].
  rewrite filter_cons_False by (apply Hall, list_elem_of_here).
  apply IH. intros y Hy. by apply Hall, list_elem_of_further.
Qed.

(** X8: indexing definitions for a file that owns no entry yet and then
    removing that file gives back the stored list of every prototype. *)
Theorem index_then_remove_restores (idx : t) (nm u : jsstring)
    (defs : list PropParser.PropDefinition) :
  NoDup (JsMap.keys idx) ->
  (forall nm' e, e ∈ stored idx nm' -> uri e <> u) ->
  forall nm', stored (removeByUri u (indexPrototype nm defs u idx)) nm'
              = stored idx nm'.
Proof.
  intros Hnd Hfresh nm'.
  assert (Hnd' : NoDup (JsMap.keys (indexPrototype nm defs u idx)))
    by by apply NoDup_keys_map_set.
  rewrite (proj1 (removeByUri_stored _ u nm' Hnd')).
  assert (Hold : filter (fun p => uri p <> u) (stored idx nm') = stored idx nm')
    by (apply filter_all; intros e; apply Hfresh).
  destruct (decide (nm = nm')) as [<-|Hne].
  - rewrite indexPrototype_stored_eq, list.filter_app, Hold.
    rewrite (filter_none (fun p => uri p <> u)); [by rewrite app_nil_r|].
    intros e He Hu. apply list_elem_of_fmap in He as (d & -> & _). by apply Hu.
  - by rewrite indexPrototype_stored_ne.
Qed.

(** The file [h] owns nothing in the example index: its definitions come
    and go without a trace. *)
Lemma index_then_remove_restores_witness :
  NoDup (JsMap.keys index_f_and_g)
  /\ forall nm',
       stored (removeByUri (Js.str "file:///h.fusion")
                 (indexPrototype (Js.str "X") definitions_XY
                    (Js.str "file:///h.fusion") index_f_and_g)) nm'
       = stored index_f_and_g nm'.
Proof.
  assert (Hnd : NoDup (JsMap.keys index_f_and_g)).
  { vm_compute. apply list.NoDup_cons. split.
    - intros H. apply list_elem_of_singleton in H. discriminate.
    - apply NoDup_singleton. }
  split; [exact Hnd|].
  apply (index_then_remove_restores index_f_and_g (Js.str "X")
           (Js.str "file:///h.fusion") definitions_XY Hnd).
  assert (Hall : Forall (fun kl : jsstring * list IndexedProp =>
                           Forall (fun e => uri e <> Js.str "file:///h.fusion") kl.2)
                        index_f_and_g).
  { apply (bool_decide_unpack _). vm_compute. exact I. }
  intros nm' e. unfold stored.
  destruct (JsMap.get nm' index_f_and_g) as [l|] eqn:Eg;
    [|intros He; by apply elem_of_nil in He].
  apply get_elem in Eg. rewrite list.Forall_forall in Hall.
  apply Hall in Eg. simpl in Eg. rewrite list.Forall_forall in Eg. apply Eg.
Defined.

End PropIndexMoreFacts.

(** ** More on the prototype declaration scan *)

Section ExecLoopFacts.
Import Js.
Context {A : Type} (m : jsstring -> option (A * jsstring)).
Hypothesis m_progress :
  forall s cap rest, m s = Some (cap, rest) -> length rest < length s.

Lemma exec_loop_bounds (s : jsstring) (index skip : nat) :
  Forall (fun r : A * nat * nat =>
            index + skip <= r.1.2 /\ r.1.2 < r.2 /\ r.2 <= index + length s)
         (exec_loop m s index skip).
Proof.
  revert index skip. induction s as [|c s IH]; intros index skip; simpl; [constructor|].
  destruct skip as [|k].
  - destruct (m (c :: s)) as [[cap rest]|] eqn:Em.
    + apply m_progress in Em. simpl in Em. constructor; [simpl; lia|].
      eapply list.Forall_impl; [apply IH|]. simpl. intros r. lia.
    + eapply list.Forall_impl; [apply IH|]. simpl. intros r. lia.
  - eapply list.Forall_impl; [apply IH|]. simpl. intros r. lia.
Qed.

Lemma exec_loop_in_order (s : jsstring) (index skip i j : nat)
    (r1 r2 : A * nat * nat) :
  i < j ->
  exec_loop m s index skip !! i = Some r1 ->
  exec_loop m s index skip !! j = Some r2 ->
  r1.2 <= r2.1.2.
Proof.
  revert index skip i j. induction s as [|c s IH]; intros index skip i j Hij; simpl;
    [done|].
  destruct skip as [|k]; [|by apply IH].
  destruct (m (c :: s)) as [[cap rest]|] eqn:Em; [|by apply IH].
  destruct j as [|j]; [lia|]. destruct i as [|i]; simpl.
  - intros [= <-] H2. apply list_elem_of_lookup_2 in H2.
    eapply (proj1 (list.Forall_forall _ _) (exec_loop_bounds _ _ _)) in H2.
    apply m_progress in Em. simpl in *. lia.
  - apply IH. lia.
Qed.

Lemma exec_loop_covers (s : jsstring) (index skip j : nat) (cap : A)
    (rest : jsstring) :
  skip <= j -> m (drop j s) = Some (cap, rest) ->
  exists r, r ∈ exec_loop m s index skip /\ r.1.2 <= index + j < r.2.
Proof.
  revert index skip j. induction s as [|c s IH]; intros index skip j Hskip Hm.
  - rewrite drop_nil in Hm. apply m_progress in Hm. simpl in Hm. lia.
  - simpl. destruct skip as [|k].
    + destruct (m (c :: s)) as [[cap0 rest0]|] eqn:Em.
      * pose proof (m_progress _ _ _ Em) as Hlen. simpl in Hlen.
        destruct (decide (j < S (length s) - length rest0)) as [Hin|Hout].
        { eexists. split; [apply list_elem_of_here|]. simpl. lia. }
        destruct j as [|j]; [lia|]. simpl in Hm.
        destruct (IH (S index) (S (length s) - length rest0 - 1) j)
          as (r & Hr & Hb); [lia | done |].
        exists r. split; [by apply list_elem_of_further | lia].
      * destruct j as [|j]; [simpl in Hm; congruence|]. simpl in Hm.
        destruct (IH (S index) 0 j) as (r & Hr & Hb); [lia | done |].
        exists r. split; [done | lia].
    + destruct j as [|j]; [lia|]. simpl in Hm.
      destruct (IH (S index) k j) as (r & Hr & Hb); [lia | done |].
      exists r. split; [done | lia].
Qed.

End ExecLoopFacts.

Section PrototypeParserMoreFacts.
Import Js PrototypeParser.

Lemma match_prototype_length (s nm rest : jsstring) :
  match_prototype s = Some (nm, rest) -> length rest + 12 <= length s.
Proof.
  intros Hm. apply match_prototype_spec in Hm
    as (Hne & _ & text & -> & w1 & w2 & w3 & _ & _ & _ & ->).
  rewrite !length_app. destruct nm; [done|]. simpl. lia.
Qed.

Lemma match_prototype_progress (s nm rest : jsstring) :
  match_prototype s = Some (nm, rest) -> length rest < length s.
Proof. intros Hm. apply match_prototype_length in Hm. lia. Qed.

(** X9: the declarations come in the order of the source and do not
    overlap: each one spans at least the twelve code units of the shortest
    declaration text, ends within the source, and ends before the next one
    starts. *)
Theorem parsePrototypes_in_order (source : jsstring) :
  Forall (fun d => start d + 12 <= end_ d /\ end_ d <= length source)
         (parsePrototypes source)
  /\ forall i j d1 d2,
       i < j ->
       parsePrototypes source !! i = Some d1 ->
       parsePrototypes source !! j = Some d2 ->
       end_ d1 <= start d2.
Proof.
  unfold parsePrototypes. split.
  - apply list.Forall_fmap, list.Forall_forall. intros [[nm s] e] Hin. simpl.
    pose proof (exec_loop_sound match_prototype source source 0 0 eq_refl) as Hs.
    pose proof (exec_loop_bounds match_prototype match_prototype_progress source 0 0)
      as Hb.
    rewrite list.Forall_forall in Hs, Hb.
    destruct (Hs _ Hin) as (rest & Hm & He). apply Hb in Hin. simpl in *.
    apply match_prototype_length in Hm. lia.
  - intros i j d1 d2 Hij H1 H2. rewrite list_lookup_fmap in H1, H2.
    destruct (exec_loop match_prototype source 0 0 !! i) as [[[n1 s1] e1]|] eqn:E1;
      [|discriminate].
    destruct (exec_loop match_prototype source 0 0 !! j) as [[[n2 s2] e2]|] eqn:E2;
      [|discriminate].
    injection H1 as <-. injection H2 as <-. simpl.
    apply (exec_loop_in_order match_prototype match_prototype_progress
             source 0 0 i j _ _ Hij E1 E2).
Qed.

(** X10: no declaration is passed over.  Every offset at which the pattern
    matches lies inside a reported declaration (it is the start of one,
    unless an earlier declaration runs over it), and a declaration is
    reported with the name the pattern captures at its start.  So the
    result is empty exactly when the pattern matches nowhere. *)
Theorem parsePrototypes_covers (source : jsstring) :
  (forall i nm rest,
     match_prototype (drop i source) = Some (nm, rest) ->
     exists d, d ∈ parsePrototypes source /\ start d <= i < end_ d)
  /\ (forall d, d ∈ parsePrototypes source ->
        exists rest, match_prototype (drop (start d) source) = Some (name d, rest))
  /\ (parsePrototypes source = []
      <-> forall i, match_prototype (drop i source) = None).
Proof.
  assert (Hcov : forall i nm rest,
             match_prototype (drop i source) = Some (nm, rest) ->
             exists d, d ∈ parsePrototypes source /\ start d <= i < end_ d).
  { intros i nm rest Hm.
    destruct (exec_loop_covers match_prototype match_prototype_progress
                source 0 0 i nm rest) as ([[n s] e] & Hr & Hb); [lia | done |].
    exists {| name := n; start := s; end_ := e |}. split; [|simpl in *; lia].
    unfold parsePrototypes.
    by apply (list_elem_of_fmap_2
                (fun '(nm, s, e) => {| name := nm; start := s; end_ := e |})) in Hr. }
  assert (Hsound : forall d, d ∈ parsePrototypes source ->
             exists rest, match_prototype (drop (start d) source) = Some (name d, rest)).
  { intros d Hd. unfold parsePrototypes in Hd.
    apply list_elem_of_fmap in Hd as ([[n s] e] & -> & Hr).
    pose proof (exec_loop_sound match_prototype source source 0 0 eq_refl) as Hs.
    rewrite list.Forall_forall in Hs. destruct (Hs _ Hr) as (rest & Hm & _).
    by exists rest. }
  split; [exact Hcov|]. split; [exact Hsound|]. split.
  - intros Hnil i. destruct (match_prototype (drop i source)) as [[nm rest]|] eqn:Em;
      [|done].
    destruct (Hcov _ _ _ Em) as (d & Hd & _). rewrite Hnil in Hd.
    by apply elem_of_nil in Hd.
  - intros Hnone. destruct (parsePrototypes source) as [|d l] eqn:El; [done|].
    destruct (Hsound d) as (rest & Hm); [apply list_elem_of_here|].
    by rewrite Hnone in Hm.
Qed.

End PrototypeParserMoreFacts.

(** ** More on the Prototype Index *)

Section FoldSetFacts.
Context {K V D : Type} `{EqDecision K} (key : D -> K) (val : D -> V).
Implicit Types (m : JsMap.t K V) (ds : list D).

(** A loop of writes keeps the keys that are there. *)
Lemma writes_present ds m k :
  is_Some (JsMap.get k m) ->
  is_Some (JsMap.get k (fold_left (fun m d => JsMap.set (key d) (val d) m) ds m)).
Proof.
  revert m. induction ds as [|d ds IH]; intros m Hk; simpl; [done|].
  apply IH. destruct (decide (key d = k)) as [<-|Hne].
  - by rewrite get_set_eq.
  - by rewrite get_set_ne.
Qed.

Lemma writes_other ds m k :
  k ∉ map key ds ->
  JsMap.get k (fold_left (fun m d => JsMap.set (key d) (val d) m) ds m)
  = JsMap.get k m.
Proof.
  revert m. induction ds as [|d ds IH]; intros m Hnot; simpl; [done|].
  simpl in Hnot. apply not_elem_of_cons in Hnot as [Hne Hnot].
  rewrite IH by done. by apply get_set_ne.
Qed.

Lemma writes_last ds1 d ds2 m :
  key d ∉ map key ds2 ->
  JsMap.get (key d)
    (fold_left (fun m d => JsMap.set (key d) (val d) m) (ds1 ++ d :: ds2) m)
  = Some (val d).
Proof.
  intros Hnot. rewrite fold_left_app. simpl.
  rewrite writes_other by done. apply get_set_eq.
Qed.

(** A write of a key that is there moves behind later writes of other
    keys. *)
Lemma writes_commute ds m k v :
  k ∉ map key ds -> is_Some (JsMap.get k m) ->
  JsMap.set k v (fold_left (fun m d => JsMap.set (key d) (val d) m) ds m)
  = fold_left (fun m d => JsMap.set (key d) (val d) m) ds (JsMap.set k v m).
Proof.
  revert m. induction ds as [|d ds IH]; intros m Hnot Hk; simpl; [done|].
  simpl in Hnot. apply not_elem_of_cons in Hnot as [Hne Hnot].
  rewrite IH; [|done|by rewrite get_set_ne]. f_equal.
  by apply set_set_comm.
Qed.

(** A write of a key that is there is lost when the key is written again
    later. *)
Lemma writes_absorb ds m k v :
  k ∈ map key ds -> is_Some (JsMap.get k m) ->
  fold_left (fun m d => JsMap.set (key d) (val d) m) ds (JsMap.set k v m)
  = fold_left (fun m d => JsMap.set (key d) (val d) m) ds m.
Proof.
  revert m. induction ds as [|d ds IH]; intros m Hin Hk; simpl.
  - by apply elem_of_nil in Hin.
  - destruct (decide (key d = k)) as [<-|Hne].
    + by rewrite set_set_eq.
    + simpl in Hin. apply elem_of_cons in Hin as [->|Hin]; [done|].
      rewrite <- (set_set_comm m (key d) k) by done.
      apply IH; [done|]. by rewrite get_set_ne.
Qed.

Lemma writes_twice ds m :
  fold_left (fun m d => JsMap.set (key d) (val d) m) ds
    (fold_left (fun m d => JsMap.set (key d) (val d) m) ds m)
  = fold_left (fun m d => JsMap.set (key d) (val d) m) ds m.
Proof.
  revert m. induction ds as [|d ds IH]; intros m; simpl; [done|].
  assert (Hk : is_Some (JsMap.get (key d) (JsMap.set (key d) (val d) m)))
    by by rewrite get_set_eq.
  destruct (decide (key d ∈ map key ds)) as [Hin|Hnot].
  - rewrite writes_absorb; [apply IH | done | by apply writes_present].
  - rewrite writes_commute by done. rewrite set_set_eq. apply IH.
Qed.

End FoldSetFacts.

Section PrototypeIndexMoreFacts.
Import PrototypeIndex.

(** X11: of several declarations of one name in a document the last one
    wins: after [indexDocument] the entry of the name belongs to the file
    and has the range of the declaration after which the name is not
    declared again. *)
Theorem indexDocument_last_declaration_wins (idx : t) (u source : jsstring)
    (before after : list PrototypeParser.PrototypeDeclaration)
    (decl : PrototypeParser.PrototypeDeclaration) :
  PrototypeParser.parsePrototypes source = before ++ decl :: after ->
  PrototypeParser.name decl ∉ map PrototypeParser.name after ->
  get (PrototypeParser.name decl) (indexDocument u source idx)
  = Some (as_prototype u source decl).
Proof.
  intros Hdecls Hlast. unfold get, indexDocument. simpl. rewrite Hdecls.
  by apply (writes_last PrototypeParser.name (as_prototype u source)).
Qed.

(** [X] is declared on the first and on the second line: the entry has the
    range of the second declaration. *)
Lemma indexDocument_last_declaration_wins_witness :
  get (Js.str "X") (indexDocument file_f source_X_twice empty)
  = Some (as_prototype file_f source_X_twice
            {| PrototypeParser.name := Js.str "X";
               PrototypeParser.start := 17; PrototypeParser.end_ := 29 |})
  /\ range (as_prototype file_f source_X_twice
              {| PrototypeParser.name := Js.str "X";
                 PrototypeParser.start := 17; PrototypeParser.end_ := 29 |})
     = {| range_start := {| line := 1; character := 0 |};
          range_end := {| line := 1; character := 12 |} |}.
Proof.
  split; [|by vm_compute].
  apply (indexDocument_last_declaration_wins empty file_f source_X_twice
           [ {| PrototypeParser.name := Js.str "X";
                PrototypeParser.start := 0; PrototypeParser.end_ := 12 |} ]
           []
           {| PrototypeParser.name := Js.str "X";
              PrototypeParser.start := 17; PrototypeParser.end_ := 29 |}).
  - by vm_compute.
  - apply not_elem_of_nil.
Defined.

(** X12: indexing the same text of a document a second time changes
    nothing, neither the entries nor their order nor the names recorded for
    the file. *)
Theorem indexDocument_twice (idx : t) (u source : jsstring) :
  indexDocument u source (indexDocument u source idx) = indexDocument u source idx.
Proof.
  unfold indexDocument. simpl. f_equal.
  - apply (writes_twice PrototypeParser.name (as_prototype u source)).
  - apply set_set_eq.
Qed.

Lemma split_lines_length (s : jsstring) :
  length (Js.split_lines s) = S (line_feeds s).
Proof.
  unfold line_feeds. induction s as [|c r IH]; [done|].
  simpl. pose proof IH as IH'.
  destruct (Js.split_lines r) as [|l ls]; [discriminate|].
  rewrite filter_cons. unfold Js.eqc.
  destruct (N.eqb c 10) eqn:Ec.
  - apply N.eqb_eq in Ec as ->. rewrite decide_True by done. simpl in *. lia.
  - apply N.eqb_neq in Ec. rewrite decide_False by done.
    destruct (N.eqb c 13 && Js.starts_with [10%N] r); simpl in *; lia.
Qed.

Lemma split_lines_one_line (s : jsstring) :
  10%N ∉ s -> Js.split_lines s = [s].
Proof.
  induction s as [|c r IH]; intros Hno; [done|].
  apply not_elem_of_cons in Hno as [Hc Hr]. simpl. rewrite (IH Hr).
  unfold Js.eqc. rewrite (proj2 (N.eqb_neq c 10)) by done.
  destruct r as [|c' r']; [by rewrite andb_false_r|].
  apply not_elem_of_cons in Hr as [Hc' _].
  replace (Js.starts_with [10%N] (c' :: r')) with false; [by rewrite andb_false_r|].
  unfold Js.starts_with. cbn [Js.strip_prefix]. unfold Js.eqc.
  by rewrite (proj2 (N.eqb_neq 10 c')).
Qed.

Lemma split_on_length (s : jsstring) :
  length (Js.split_on 10 s) = S (line_feeds s).
Proof.
  unfold line_feeds. induction s as [|c r IH]; [done|].
  simpl. destruct (Js.split_on 10 r) as [|l ls]; [discriminate|].
  rewrite filter_cons. unfold Js.eqc.
  destruct (N.eqb c 10) eqn:Ec.
  - apply N.eqb_eq in Ec as ->. rewrite decide_True by done. simpl in *. lia.
  - apply N.eqb_neq in Ec. rewrite decide_False by done. simpl in *. lia.
Qed.

(** The last line is the text after the last line feed, with or without
    carriage returns. *)
Lemma split_lines_last (s : jsstring) :
  List.last (Js.split_lines s) [] = List.last (Js.split_on 10 s) [].
Proof.
  induction s as [|c r IH]; [done|].
  pose proof (split_lines_length r) as Hl1. pose proof (split_on_length r) as Hl2.
  cbn [Js.split_lines Js.split_on].
  destruct (Js.split_lines r) as [|l ls] eqn:E1; [discriminate|].
  destruct (Js.split_on 10 r) as [|l' ls'] eqn:E2; [discriminate|].
  unfold Js.eqc. destruct (N.eqb c 10) eqn:Ec.
  - exact IH.
  - destruct (N.eqb c 13 && Js.starts_with [10%N] r) eqn:Ecr.
    + apply andb_true_iff in Ecr as [_ Hr]. apply starts_with_spec in Hr as [r' ->].
      simpl in E2. pose proof (split_on_not_nil 10 r') as Hne.
      destruct (Js.split_on 10 r') as [|x xs]; [done|].
      injection E2 as <- <-. rewrite IH. done.
    + destruct ls as [|l2 ls]; destruct ls' as [|l2' ls']; simpl in *; try lia.
      * by rewrite IH.
      * exact IH.
Qed.

(** X13: [offsetToPosition] counts: the line is the number of line feeds in
    front of the offset, so it grows with the offset; the character is the
    length of the text between the last of these line feeds and the offset,
    carriage returns included; while no line feed is in front of the offset
    the character is the offset itself; and an offset past the end of the
    text gives the position of the end. *)
Theorem offsetToPosition_counts_line_feeds (source : jsstring) (offset : nat) :
  line (offsetToPosition source offset) = line_feeds (take offset source)
  /\ (forall offset', offset <= offset' ->
        line (offsetToPosition source offset)
        <= line (offsetToPosition source offset'))
  /\ character (offsetToPosition source offset)
     = length (List.last (Js.split_on 10 (take offset source)) [])
  /\ (10%N ∉ take offset source ->
      offsetToPosition source offset
      = {| line := 0; character := offset `min` length source |})
  /\ (length source <= offset ->
      offsetToPosition source offset = offsetToPosition source (length source)).
Proof.
  assert (Hline : forall o, line (offsetToPosition source o)
                            = line_feeds (take o source)).
  { intros o. unfold offsetToPosition, Js.slice. simpl.
    rewrite split_lines_length, drop_0. replace (o - 0) with o by lia. lia. }
  split; [apply Hline|]. split; [|split; [|split]].
  - intros offset' Hle. rewrite !Hline. unfold line_feeds.
    replace offset' with (offset + (offset' - offset)) by lia.
    rewrite <- take_take_drop, list.filter_app, length_app. lia.
  - unfold offsetToPosition, Js.slice. simpl. rewrite drop_0.
    replace (offset - 0) with offset by lia. by rewrite split_lines_last.
  - intros Hno. unfold offsetToPosition, Js.slice. rewrite drop_0.
    replace (offset - 0) with offset by lia.
    rewrite split_lines_one_line by done. simpl. by rewrite length_take.
  - intros Hlen. unfold offsetToPosition, Js.slice. rewrite !drop_0.
    by rewrite !take_ge by lia.
Qed.

End PrototypeIndexMoreFacts.

(** ** Brace matching and prototype blocks *)

Section BraceFacts.
Import Js PropParser.

Lemma brace_delta_nil : brace_delta [] = 0%Z.
Proof. done. Qed.

Lemma brace_delta_cons (c : N) (r : jsstring) :
  brace_delta (c :: r)
  = ((if eqc c (ch "{") then 1 else if eqc c (ch "}") then -1 else 0)
     + brace_delta r)%Z.
Proof.
  assert (Hgen : forall l d,
            fold_left (fun d c => if eqc c (ch "{") then (d + 1)%Z
                                  else if eqc c (ch "}") then (d - 1)%Z else d) l d
            = (d + fold_left (fun d c => if eqc c (ch "{") then (d + 1)%Z
                                  else if eqc c (ch "}") then (d - 1)%Z else d) l 0)%Z).
  { induction l as [|x l IH]; intros d; cbn [fold_left]; [lia|].
    rewrite IH. rewrite (IH (if eqc x (ch "{") then _ else _)).
    destruct (eqc x (ch "{")); [lia|]. destruct (eqc x (ch "}")); lia. }
  unfold brace_delta. cbn [fold_left]. rewrite Hgen.
  destruct (eqc c (ch "{")); [lia|]. destruct (eqc c (ch "}")); lia.
Qed.

Lemma findMatchingBrace_from_shift (s : jsstring) (i : nat) (depth : Z) :
  findMatchingBrace_from s i depth
  = (fun j => i + j) <$> findMatchingBrace_from s 0 depth.
Proof.
  revert i depth. induction s as [|c r IH]; intros i depth;
    cbn [findMatchingBrace_from]; [done|].
  rewrite !(IH (S i)), !(IH 1).
  destruct (eqc c (ch "{")).
  - destruct (findMatchingBrace_from r 0 (depth + 1)); simpl; f_equal; lia.
  - destruct (eqc c (ch "}")).
    + destruct (depth - 1 =? 0)%Z; simpl; [f_equal; lia|].
      destruct (findMatchingBrace_from r 0 (depth - 1)); simpl; f_equal; lia.
    + destruct (findMatchingBrace_from r 0 depth); simpl; f_equal; lia.
Qed.

Lemma eqc_spec (a b : N) : eqc a b = true <-> a = b.
Proof. unfold eqc. apply N.eqb_eq. Qed.

(** The loop stops at the first [}] at which the depth is zero. *)
Lemma findMatchingBrace_from_spec (s : jsstring) (depth : Z) :
  match findMatchingBrace_from s 0 depth with
  | Some j =>
      s !! j = Some (ch "}") /\ (depth + brace_delta (take (S j) s) = 0)%Z
      /\ forall k, k < j ->
           ~ (s !! k = Some (ch "}") /\ (depth + brace_delta (take (S k) s) = 0)%Z)
  | None =>
      forall k, ~ (s !! k = Some (ch "}")
                   /\ (depth + brace_delta (take (S k) s) = 0)%Z)
  end.
Proof.
  revert depth. induction s as [|c r IH]; intros depth.
  - cbn [findMatchingBrace_from]. intros k [Hk _]. by rewrite lookup_nil in Hk.
  - cbn [findMatchingBrace_from]. rewrite !(findMatchingBrace_from_shift r 1).
    destruct (eqc c (ch "{")) eqn:Eo; [|destruct (eqc c (ch "}")) eqn:Ec].
    + assert (Ec : eqc c (ch "}") = false).
      { apply eqc_spec in Eo as ->. done. }
      assert (Hc : c <> ch "}") by (intros ->; discriminate).
      specialize (IH (depth + 1)%Z).
      destruct (findMatchingBrace_from r 0 (depth + 1)) as [j|]; cbn [fmap option_fmap option_map Nat.add].
      * destruct IH as (Hj & Hb & Hfirst). split; [done|]. split.
        { rewrite firstn_cons, brace_delta_cons, Eo. lia. }
        intros [|k] Hk [Hk1 Hk2]; [by injection Hk1|].
        apply (Hfirst k); [lia|]. split; [done|].
        rewrite firstn_cons, brace_delta_cons, Eo in Hk2. lia.
      * intros [|k] [Hk1 Hk2]; [by injection Hk1|].
        apply (IH k). split; [done|].
        rewrite firstn_cons, brace_delta_cons, Eo in Hk2. lia.
    + destruct (depth - 1 =? 0)%Z eqn:Ed.
      { apply Z.eqb_eq in Ed. apply eqc_spec in Ec as ->.
        split; [done|]. split; [|intros k Hk; lia].
        rewrite firstn_cons, take_0, brace_delta_cons, brace_delta_nil, Eo.
        rewrite (proj2 (eqc_spec _ _) eq_refl). lia. }
      apply Z.eqb_neq in Ed. specialize (IH (depth - 1)%Z).
      destruct (findMatchingBrace_from r 0 (depth - 1)) as [j|]; cbn [fmap option_fmap option_map Nat.add].
      * destruct IH as (Hj & Hb & Hfirst). split; [done|]. split.
        { rewrite firstn_cons, brace_delta_cons, Eo, Ec. lia. }
        intros [|k] Hk [Hk1 Hk2].
        { rewrite firstn_cons, take_0, brace_delta_cons, brace_delta_nil, Eo, Ec in Hk2.
          lia. }
        apply (Hfirst k); [lia|]. split; [done|].
        rewrite firstn_cons, brace_delta_cons, Eo, Ec in Hk2. lia.
      * intros [|k] [Hk1 Hk2].
        { rewrite firstn_cons, take_0, brace_delta_cons, brace_delta_nil, Eo, Ec in Hk2.
          lia. }
        apply (IH k). split; [done|].
        rewrite firstn_cons, brace_delta_cons, Eo, Ec in Hk2. lia.
    + assert (Hc : c <> ch "}").
      { intros ->. by rewrite (proj2 (eqc_spec _ _) eq_refl) in Ec. }
      specialize (IH depth).
      destruct (findMatchingBrace_from r 0 depth) as [j|]; cbn [fmap option_fmap option_map Nat.add].
      * destruct IH as (Hj & Hb & Hfirst). split; [done|]. split.
        { rewrite firstn_cons, brace_delta_cons, Eo, Ec. lia. }
        intros [|k] Hk [Hk1 Hk2]; [by injection Hk1|].
        apply (Hfirst k); [lia|]. split; [done|].
        rewrite firstn_cons, brace_delta_cons, Eo, Ec in Hk2. lia.
      * intros [|k] [Hk1 Hk2]; [by injection Hk1|].
        apply (IH k). split; [done|].
        rewrite firstn_cons, brace_delta_cons, Eo, Ec in Hk2. lia.
Qed.

(** From a positive depth on, the depth stays positive until the loop
    stops. *)
Lemma findMatchingBrace_from_positive (s : jsstring) (depth : Z) (j k : nat) :
  (0 < depth)%Z -> findMatchingBrace_from s 0 depth = Some j -> k < j ->
  (0 < depth + brace_delta (take (S k) s))%Z.
Proof.
  revert depth j k. induction s as [|c r IH]; intros depth j k Hd; [discriminate|].
  cbn [findMatchingBrace_from]. rewrite !(findMatchingBrace_from_shift r 1).
  rewrite firstn_cons, brace_delta_cons.
  destruct (eqc c (ch "{")) eqn:Eo; [|destruct (eqc c (ch "}")) eqn:Ec].
  - destruct (findMatchingBrace_from r 0 (depth + 1)) as [j'|] eqn:Ef; [|discriminate].
    cbn [fmap option_fmap option_map Nat.add]. intros [= <-] Hk. destruct k as [|k].
    + rewrite take_0, brace_delta_nil. lia.
    + pose proof (IH (depth + 1)%Z j' k ltac:(lia) Ef ltac:(lia)). lia.
  - destruct (depth - 1 =? 0)%Z eqn:Ed; [intros [= <-] Hk; lia|].
    apply Z.eqb_neq in Ed.
    destruct (findMatchingBrace_from r 0 (depth - 1)) as [j'|] eqn:Ef; [|discriminate].
    cbn [fmap option_fmap option_map Nat.add]. intros [= <-] Hk. destruct k as [|k].
    + rewrite take_0, brace_delta_nil. lia.
    + pose proof (IH (depth - 1)%Z j' k ltac:(lia) Ef ltac:(lia)). lia.
  - destruct (findMatchingBrace_from r 0 depth) as [j'|] eqn:Ef; [|discriminate].
    cbn [fmap option_fmap option_map Nat.add]. intros [= <-] Hk. destruct k as [|k].
    + rewrite take_0, brace_delta_nil. lia.
    + pose proof (IH depth j' k ltac:(lia) Ef ltac:(lia)). lia.
Qed.

Lemma brace_delta_app (a b : jsstring) :
  brace_delta (a ++ b) = (brace_delta a + brace_delta b)%Z.
Proof.
  induction a as [|c a IH]; [rewrite brace_delta_nil; simpl; lia|].
  rewrite <- app_comm_cons, !brace_delta_cons, IH. lia.
Qed.

Lemma findMatchingBrace_relative (source : jsstring) (i : nat) :
  findMatchingBrace source i
  = (fun j => i + j) <$> findMatchingBrace_from (drop i source) 0 0%Z.
Proof. apply findMatchingBrace_from_shift. Qed.

Lemma slice_from (source : jsstring) (i k : nat) :
  slice source i (S (i + k)) = take (S k) (drop i source).
Proof. unfold slice. f_equal. lia. Qed.

(** X14: [findMatchingBrace] gives the first index from [openBraceIndex] on
    that holds a [}] at which the braces counted from [openBraceIndex] are
    balanced, and [-1] exactly when the text has no such index. *)
Theorem findMatchingBrace_first_close (source : jsstring) (openBraceIndex : nat) :
  match findMatchingBrace source openBraceIndex with
  | Some j =>
      closes source openBraceIndex j /\ j < length source
      /\ forall k, k < j -> ~ closes source openBraceIndex k
  | None => forall k, ~ closes source openBraceIndex k
  end.
Proof.
  rewrite findMatchingBrace_relative.
  pose proof (findMatchingBrace_from_spec (drop openBraceIndex source) 0%Z) as Hspec.
  destruct (findMatchingBrace_from (drop openBraceIndex source) 0 0) as [j|];
    cbn [fmap option_fmap option_map].
  - destruct Hspec as (Hj & Hb & Hfirst). rewrite lookup_drop in Hj.
    split; [|split].
    + split; [lia|]. split; [done|]. rewrite slice_from. lia.
    + by apply lookup_lt_Some in Hj.
    + intros k Hk (Hik & Hk1 & Hk2).
      apply (Hfirst (k - openBraceIndex)); [lia|].
      rewrite lookup_drop. replace (openBraceIndex + (k - openBraceIndex)) with k by lia.
      split; [done|].
      replace k with (openBraceIndex + (k - openBraceIndex)) in Hk2 by lia.
      rewrite slice_from in Hk2. lia.
  - intros k (Hik & Hk1 & Hk2). apply (Hspec (k - openBraceIndex)).
    rewrite lookup_drop. replace (openBraceIndex + (k - openBraceIndex)) with k by lia.
    split; [done|].
    replace k with (openBraceIndex + (k - openBraceIndex)) in Hk2 by lia.
    rewrite slice_from in Hk2. lia.
Qed.

Lemma findMatchingBrace_body (source : jsstring) (i j : nat) :
  source !! i = Some (ch "{") ->
  findMatchingBrace source i = Some j ->
  i < j < length source
  /\ source !! j = Some (ch "}")
  /\ brace_delta (slice source (S i) j) = 0%Z
  /\ forall k, S i <= k <= j -> (0 <= brace_delta (slice source (S i) k))%Z.
Proof.
  intros Hopen. rewrite findMatchingBrace_relative.
  rewrite <- (take_drop_middle source i _ Hopen) at 1.
  rewrite drop_app_length' by (rewrite length_take; apply lookup_lt_Some in Hopen; lia).
  cbn [findMatchingBrace_from]. rewrite (proj2 (eqc_spec _ _) eq_refl).
  rewrite findMatchingBrace_from_shift.
  pose proof (findMatchingBrace_from_spec (drop (S i) source) (0 + 1)%Z) as Hspec.
  destruct (findMatchingBrace_from (drop (S i) source) 0 (0 + 1)) as [j'|] eqn:Ef;
    [|discriminate].
  cbn [fmap option_fmap option_map]. intros [= <-].
  destruct Hspec as (Hj & Hb & _). rewrite lookup_drop in Hj.
  replace (S i + j') with (i + (1 + j')) in Hj by lia.
  assert (Hbody : forall k, slice source (S i) (S i + k) = take k (drop (S i) source)).
  { intros k. unfold slice. f_equal. lia. }
  rewrite (take_S_r _ _ (ch "}")) in Hb by (by rewrite lookup_drop;
    replace (S i + j') with (i + (1 + j')) by lia).
  rewrite brace_delta_app, brace_delta_cons, brace_delta_nil in Hb.
  change (eqc (ch "}") (ch "{")) with false in Hb.
  change (eqc (ch "}") (ch "}")) with true in Hb.
  split; [apply lookup_lt_Some in Hj; lia|]. split; [done|]. split.
  - replace (i + S j') with (S i + j') by lia. rewrite Hbody. lia.
  - intros k Hk. replace k with (S i + (k - S i)) by lia. rewrite Hbody.
    destruct (k - S i) as [|n] eqn:En; [by rewrite take_0, brace_delta_nil|].
    pose proof (findMatchingBrace_from_positive (drop (S i) source) (0 + 1)%Z j' n
                  ltac:(lia) Ef ltac:(lia)). lia.
Qed.

(** X15: when [openBraceIndex] holds a [{], the index [findMatchingBrace]
    gives lies behind it and holds the [}] that closes it: the text in
    between is balanced, and none of its prefixes closes more braces than
    it opens. *)
Theorem findMatchingBrace_encloses_balanced_body (source : jsstring)
    (openBraceIndex j : nat) :
  source !! openBraceIndex = Some (ch "{") ->
  findMatchingBrace source openBraceIndex = Some j ->
  openBraceIndex < j < length source
  /\ source !! j = Some (ch "}")
  /\ brace_delta (slice source (S openBraceIndex) j) = 0%Z
  /\ forall k, S openBraceIndex <= k <= j ->
       (0 <= brace_delta (slice source (S openBraceIndex) k))%Z.
Proof. apply findMatchingBrace_body. Qed.

(** The brace at 1 is closed at 7, past the inner pair. *)
Lemma findMatchingBrace_encloses_balanced_body_witness :
  findMatchingBrace (str "a{b{c}d}e") 1 = Some 7
  /\ str "a{b{c}d}e" !! 7 = Some (ch "}")
  /\ brace_delta (slice (str "a{b{c}d}e") 2 7) = 0%Z.
Proof.
  assert (Hf : findMatchingBrace (str "a{b{c}d}e") 1 = Some 7) by by vm_compute.
  split; [exact Hf|].
  destruct (findMatchingBrace_encloses_balanced_body (str "a{b{c}d}e") 1 7
              ltac:(by vm_compute) Hf) as (_ & H1 & H2 & _).
  by split.
Defined.

End BraceFacts.

Section PrototypeBlockFacts.
Import Js PropParser.

(** A match of the block pattern: a declaration, then text without [{],
    then the [{] the match ends with. *)
Lemma match_block_spec (s nm rest : jsstring) :
  match_block s = Some (nm, rest) ->
  nm <> []
  /\ exists text, s = text ++ ch "{" :: rest /\ 12 <= length text
                  /\ PrototypeParser.match_prototype s <> None.
Proof.
  unfold match_block.
  destruct (PrototypeParser.match_prototype s) as [[n r1]|] eqn:Em; [|discriminate].
  pose proof (match_prototype_length _ _ _ Em) as Hlen.
  apply match_prototype_spec in Em as (Hne & _ & t1 & -> & _).
  rewrite length_app in Hlen.
  destruct (span is_ws r1) as [w r2] eqn:Ew. apply span_spec in Ew as [-> _].
  destruct r2 as [|c r3]; [discriminate|].
  destruct (eqc c (ch "{")) eqn:Eo.
  - intros [= <- <-]. apply eqc_spec in Eo as ->. split; [done|].
    exists (t1 ++ w). rewrite <- app_assoc. split; [done|]. split; [|done].
    rewrite length_app. lia.
  - destruct (eqc c (ch "<")) eqn:El; [|discriminate].
    destruct (span (fun x => negb (eqc x (ch "{"))) r3) as [v r4] eqn:Ev.
    apply span_spec in Ev as [-> _].
    destruct (strip_prefix (str "{") r4) as [r5|] eqn:E5; [|discriminate].
    apply strip_prefix_spec in E5 as ->. intros [= <- <-]. split; [done|].
    exists (t1 ++ w ++ c :: v). split; [|split; [|done]].
    + by rewrite <- !app_assoc.
    + rewrite length_app. lia.
Qed.

(** X16: every block [parsePrototypeBlocks] reports has a name, a [{] right
    in front of [bodyStart] and the [}] that closes it at [bodyEnd]; the
    body in between is balanced in braces and lies within the source. *)
Theorem parsePrototypeBlocks_bodies (source : jsstring) :
  Forall (fun b =>
            name b <> []
            /\ 13 <= bodyStart b <= bodyEnd b /\ bodyEnd b < length source
            /\ source !! (bodyStart b - 1) = Some (ch "{")
            /\ source !! bodyEnd b = Some (ch "}")
            /\ findMatchingBrace source (bodyStart b - 1) = Some (bodyEnd b)
            /\ brace_delta (slice source (bodyStart b) (bodyEnd b)) = 0%Z)
         (parsePrototypeBlocks source).
Proof.
  apply list.Forall_forall. intros b Hb. unfold parsePrototypeBlocks in Hb.
  apply list_elem_of_omap in Hb as ([[nm s] e] & Hin & Hb).
  destruct (findMatchingBrace source (e - 1)) as [j|] eqn:Ef; [|discriminate].
  injection Hb as <-. simpl.
  pose proof (exec_loop_sound match_block source source 0 0 eq_refl) as Hs.
  rewrite list.Forall_forall in Hs. destruct (Hs _ Hin) as (rest & Hm & He).
  simpl in Hm, He.
  apply match_block_spec in Hm as (Hne & text & Htext & Hlen & _).
  rewrite Htext, length_app in He. simpl in He.
  assert (Hopen : source !! (e - 1) = Some (ch "{")).
  { replace (e - 1) with (s + length text) by lia.
    rewrite <- lookup_drop, Htext. by rewrite list_lookup_middle. }
  destruct (findMatchingBrace_body source (e - 1) j Hopen Ef) as (Hj & Hclose & Hbal & _).
  replace (S (e - 1)) with e in Hbal by lia.
  repeat split; try done; lia.
Qed.

End PrototypeBlockFacts.

(** ** More on the default prop scanner *)

Section DefaultScanMoreFacts.
Import Js PropParser.

Lemma fold_default_step_snoc (nm : jsstring) (off : nat) (ls : list jsstring)
    (l : jsstring) (acc : list PropDefinition * Z * nat) :
  fold_left (default_step nm off) (ls ++ [l]) acc
  = default_step nm off (fold_left (default_step nm off) ls acc) l.
Proof. by rewrite fold_left_app. Qed.

(** The state of the loop after the lines [ls]: the depth is the balance of
    their braces, the offset counts every line with one code unit for its
    break, and a definition was recorded for exactly the matching lines in
    front of which the braces are balanced. *)
Lemma default_loop_state (nm : jsstring) (off : nat) (ls : list jsstring) :
  let st := fold_left (default_step nm off) ls ([], 0%Z, 0) in
  st.1.2 = brace_delta (concat ls)
  /\ st.2 = length (concat ls) + length ls
  /\ forall d, d ∈ st.1.1 <->
       exists n ln m0 m1,
         ls !! n = Some ln /\ defaultRegex ln = Some (m0, m1)
         /\ brace_delta (concat (take n ls)) = 0%Z
         /\ d = default_definition nm off ls n ln m0 m1.
Proof.
  induction ls as [|l ls IH] using rev_ind.
  - simpl. split; [done|]. split; [done|]. intros d. split.
    + intros Hd. by apply elem_of_nil in Hd.
    + intros (n & ln & _ & _ & Hn & _). by rewrite lookup_nil in Hn.
  - rewrite fold_default_step_snoc. cbv zeta in IH |- *.
    destruct (fold_left (default_step nm off) ls ([], 0%Z, 0))
      as [[results depth] cur] eqn:Est.
    simpl in IH. destruct IH as (Hdepth & Hcur & Hres).
    unfold default_step. cbn [fst snd].
    rewrite concat_app. cbn [concat]. rewrite app_nil_r, brace_delta_app, !length_app.
    cbn [length].
    split; [subst depth; cbn [fst snd]; lia|]. split; [cbn [snd]; lia|].
    intros d.
    assert (Hold : forall n ln m0 m1,
               ls !! n = Some ln ->
               default_definition nm off (ls ++ [l]) n ln m0 m1
               = default_definition nm off ls n ln m0 m1
               /\ take n (ls ++ [l]) = take n ls).
    { intros n ln m0 m1 Hn. apply lookup_lt_Some in Hn.
      assert (Ht : take n (ls ++ [l]) = take n ls) by (rewrite take_app_le; [done|lia]).
      split; [|done]. unfold default_definition. by rewrite Ht. }
    assert (Hnew : take (length ls) (ls ++ [l]) = ls) by by rewrite take_app_length.
    split.
    + intros Hd.
      assert (Hcase : d ∈ results
                \/ exists m0 m1, defaultRegex l = Some (m0, m1) /\ depth = 0%Z
                     /\ d = default_definition nm off (ls ++ [l]) (length ls) l m0 m1).
      { destruct (defaultRegex l) as [[m0 m1]|] eqn:Em; [|by left].
        destruct (depth =? 0)%Z eqn:Ed; [|by left].
        apply elem_of_app in Hd as [Hd|Hd]; [by left|].
        apply list_elem_of_singleton in Hd. right. exists m0, m1.
        split; [done|]. split; [by apply Z.eqb_eq|].
        subst d. unfold default_definition. rewrite Hnew, Hcur. done. }
      destruct Hcase as [Hd'|(m0 & m1 & Hm & Hd0 & ->)].
      * apply Hres in Hd' as (n & ln & m0 & m1 & Hn & Hm & Hb & ->).
        exists n, ln, m0, m1. destruct (Hold n ln m0 m1 Hn) as [-> ->].
        split; [by apply lookup_app_l_Some|]. done.
      * exists (length ls), l, m0, m1. rewrite Hnew.
        split; [by rewrite list_lookup_middle|]. split; [done|].
        split; [congruence | done].
    + intros (n & ln & m0 & m1 & Hn & Hm & Hb & ->).
      destruct (decide (n < length ls)) as [Hlt|Hge].
      * rewrite lookup_app_l in Hn by done.
        destruct (Hold n ln m0 m1 Hn) as [-> Ht]. rewrite Ht in Hb.
        assert (Hin : default_definition nm off ls n ln m0 m1 ∈ results).
        { apply Hres. by exists n, ln, m0, m1. }
        destruct (defaultRegex l) as [[m0' m1']|]; [|done].
        destruct (depth =? 0)%Z; [|done]. apply elem_of_app. by left.
      * assert (n = length ls) as ->.
        { apply lookup_lt_Some in Hn. rewrite length_app in Hn. simpl in Hn. lia. }
        rewrite list_lookup_middle in Hn by done. injection Hn as <-.
        rewrite Hnew in Hb. rewrite Hm.
        rewrite (proj2 (Z.eqb_eq depth 0)) by congruence.
        apply elem_of_app. right. apply list_elem_of_singleton.
        unfold default_definition. rewrite Hnew, Hcur. done.
Qed.

(** X17: the default scanner records a definition for exactly those lines
    that match its pattern and have balanced braces in front of them (depth
    zero), nothing for any other line; the definition of such a line has
    the key split at the dots as its path, and a start that counts every
    line before it with one code unit for its line break. *)
Theorem parseDefaultProps_exactly_root_level_lines (body nm : jsstring)
    (off : nat) (d : PropDefinition) :
  d ∈ parseDefaultProps body nm off <->
  exists n ln m0 m1,
    split_lines body !! n = Some ln /\ defaultRegex ln = Some (m0, m1)
    /\ brace_delta (concat (take n (split_lines body))) = 0%Z
    /\ d = default_definition nm off (split_lines body) n ln m0 m1.
Proof. apply (default_loop_state nm off (split_lines body)). Qed.

End DefaultScanMoreFacts.

(** ** The flattened tree *)

Section FlattenFacts.
Import Js PropParser.

Lemma concat_Permutation {A : Type} (l k : list (list A)) :
  l ≡ₚ k -> concat l ≡ₚ concat k.
Proof.
  induction 1 as [|x l k _ IH|x y l|l k m _ IH1 _ IH2]; simpl.
  - done.
  - by rewrite IH.
  - rewrite !app_assoc. by rewrite (Permutation_app_comm y x).
  - by rewrite IH1.
Qed.

Lemma elem_of_concat {A : Type} (x : A) (ls : list (list A)) :
  x ∈ concat ls <-> exists l, l ∈ ls /\ x ∈ l.
Proof.
  induction ls as [|l ls IH]; simpl.
  - split; [intros Hx; by apply elem_of_nil in Hx|].
    intros (l & Hl & _). by apply elem_of_nil in Hl.
  - rewrite elem_of_app, IH. split.
    + intros [Hx|(l' & Hl' & Hx)].
      * exists l. split; [apply list_elem_of_here | done].
      * exists l'. split; [by apply list_elem_of_further | done].
    + intros (l' & Hl' & Hx). apply elem_of_cons in Hl' as [->|Hl']; [by left|].
      right. by exists l'.
Qed.

Lemma insert_index_Permutation {V : Type} (e : jsstring * V) (l : JsObject.t V) :
  JsObject.insert_index e l ≡ₚ e :: l.
Proof.
  induction l as [|e' l IH]; simpl; [done|].
  destruct (N.ltb _ _); [done|]. rewrite IH. apply perm_swap.
Qed.

(** [Object.entries] lists every own property once. *)
Lemma entries_Permutation {V : Type} (o : JsObject.t V) :
  JsObject.entries o ≡ₚ o.
Proof.
  unfold JsObject.entries.
  assert (Hsort : forall (l acc : JsObject.t V),
            fold_left (fun acc e => JsObject.insert_index e acc) l acc ≡ₚ l ++ acc).
  { induction l as [|e l IH]; intros acc; simpl; [done|].
    rewrite IH, insert_index_Permutation. by rewrite Permutation_middle. }
  rewrite Hsort, app_nil_r.
  unfold JsObject.t. induction o as [|e o IH]; [done|]. rewrite !filter_cons.
  destruct (JsObject.is_array_index e.1) eqn:Ei.
  - rewrite decide_True, decide_False by done. simpl. by rewrite IH.
  - rewrite decide_False, decide_True by done.
    rewrite <- Permutation_middle. by rewrite IH.
Qed.

Lemma emit_nil (nm : jsstring) (lineOffsets : list nat) (off : nat)
    (node : StyleguideNode) :
  emit nm lineOffsets off node [] = [].
Proof. done. Qed.

Lemma emit_path (nm : jsstring) (lineOffsets : list nat) (off : nat)
    (node : StyleguideNode) (path : list jsstring) :
  path <> [] ->
  emit nm lineOffsets off node path
  = [styleguide_definition nm lineOffsets off node path].
Proof. intros Hne. unfold emit. destruct path; [done|]. done. Qed.

Lemma walk_unfold (nm : jsstring) (lineOffsets : list nat) (off : nat)
    (p : Position) (o : JsObject.t StyleguideNode) (path : list jsstring) :
  walk nm lineOffsets off (Node p (Some o)) path
  ≡ₚ emit nm lineOffsets off (Node p (Some o)) path
     ++ concat (map (fun kc : jsstring * StyleguideNode =>
                       walk nm lineOffsets off kc.2 (path ++ [kc.1])) o).
Proof.
  change (walk nm lineOffsets off (Node p (Some o)) path)
    with (emit nm lineOffsets off (Node p (Some o)) path
          ++ concat (map snd (JsObject.entries
               (map (fun kc : jsstring * StyleguideNode =>
                       (fst kc, walk nm lineOffsets off (snd kc) (path ++ [fst kc])))
                    o)))).
  apply Permutation_app_head, concat_Permutation.
  rewrite entries_Permutation. by rewrite map_map.
Qed.

Lemma get_own_elem {V : Type} (k : jsstring) (v : V) (o : JsObject.t V) :
  NoDup (map fst o) -> (JsObject.get_own k o = Some v <-> (k, v) ∈ o).
Proof.
  induction o as [|[k' v'] o IH]; simpl; intros Hnd.
  - split; [discriminate|]. intros Hin. by apply elem_of_nil in Hin.
  - apply list.NoDup_cons in Hnd as [Hk' Hnd]. rewrite elem_of_cons.
    destruct (decide (k = k')) as [->|Hne].
    + split; [intros [= ->]; by left|]. intros [[= ->]|Hin]; [done|].
      destruct Hk'. by apply (list_elem_of_fmap_2 fst) in Hin.
    + rewrite IH by done. split; [by right|]. intros [[= -> _]|Hin]; done.
Qed.

(** What [walk] pushes: one definition for every node below, and for the
    node itself unless the path is empty. *)
Lemma walk_elem (nm : jsstring) (lineOffsets : list nat) (off : nat)
    (node : StyleguideNode) :
  unique_keys node ->
  forall path d,
    d ∈ walk nm lineOffsets off node path <->
    exists q n, path ++ q <> [] /\ node_at q node = Some n
                /\ d = styleguide_definition nm lineOffsets off n (path ++ q).
Proof.
  induction node as [p|p o IH] using StyleguideNode_tree_ind; intros Huniq path d.
  - simpl. rewrite app_nil_r. split.
    + intros Hd. exists [], (Node p None). rewrite app_nil_r.
      destruct path as [|x path]; [by apply elem_of_nil in Hd|].
      rewrite emit_path in Hd by done. apply list_elem_of_singleton in Hd.
      by split.
    + intros (q & n & Hne & Hat & ->). destruct q as [|k q]; [|discriminate].
      injection Hat as <-. rewrite app_nil_r in *. rewrite emit_path by done.
      apply list_elem_of_singleton. done.
  - inversion Huniq as [|? ? Hnd Hall]; subst.
    rewrite walk_unfold, elem_of_app. split.
    + intros [Hd|Hd].
      * exists [], (Node p (Some o)). rewrite app_nil_r.
        destruct path as [|x path]; [by apply elem_of_nil in Hd|].
        rewrite emit_path in Hd by done. apply list_elem_of_singleton in Hd.
        by split.
      * apply elem_of_concat in Hd as (l & Hl & Hd).
        apply list_elem_of_fmap in Hl as ([k c] & -> & Hkc). simpl in Hd.
        rewrite list.Forall_forall in IH, Hall.
        apply (IH _ Hkc (Hall _ Hkc)) in Hd as (q & n & Hne & Hat & ->).
        exists (k :: q), n. rewrite <- app_assoc in *. simpl in *.
        split; [done|]. split; [|done].
        apply (get_own_elem k c o Hnd) in Hkc. by rewrite Hkc.
    + intros (q & n & Hne & Hat & ->). destruct q as [|k q].
      * left. injection Hat as <-. rewrite app_nil_r in *. rewrite emit_path by done.
        by apply list_elem_of_singleton.
      * right. simpl in Hat.
        destruct (JsObject.get_own k o) as [c|] eqn:Eg; [|discriminate].
        apply (get_own_elem k c o Hnd) in Eg.
        apply elem_of_concat.
        exists (walk nm lineOffsets off c (path ++ [k])). split.
        { by apply (list_elem_of_fmap_2
                      (fun kc : jsstring * StyleguideNode =>
                         walk nm lineOffsets off kc.2 (path ++ [kc.1])) _ (k, c)). }
        rewrite list.Forall_forall in IH, Hall.
        apply (IH _ Eg (Hall _ Eg)). exists q, n. rewrite <- app_assoc. simpl.
        split; [|done]. by destruct path.
Qed.

(** The paths [walk] pushes are pairwise different. *)
Lemma walk_NoDup (nm : jsstring) (lineOffsets : list nat) (off : nat)
    (node : StyleguideNode) :
  unique_keys node ->
  forall path, NoDup (map propPath (walk nm lineOffsets off node path)).
Proof.
  induction node as [p|p o IH] using StyleguideNode_tree_ind; intros Huniq path.
  - simpl. rewrite app_nil_r. unfold emit. destruct (0 <? length path); simpl.
    + apply NoDup_singleton.
    + apply NoDup_nil_2.
  - inversion Huniq as [|? ? Hnd Hall]; subst.
    rewrite walk_unfold, map_app. apply list.NoDup_app. split; [|split].
    + unfold emit. destruct (0 <? length path); simpl;
        [apply NoDup_singleton | apply NoDup_nil_2].
    + intros x Hx Hx'.
      assert (x = path) as ->.
      { unfold emit in Hx. destruct (0 <? length path); simpl in Hx.
        - by apply list_elem_of_singleton in Hx.
        - by apply elem_of_nil in Hx. }
      apply list_elem_of_fmap in Hx' as (d & Hd & Hin).
      apply elem_of_concat in Hin as (l & Hl & Hin).
      apply list_elem_of_fmap in Hl as ([k c] & -> & Hkc). simpl in Hin.
      rewrite list.Forall_forall in Hall.
      apply (walk_elem nm lineOffsets off c (Hall _ Hkc)) in Hin
        as (q & n & _ & _ & ->).
      simpl in Hd. apply (f_equal length) in Hd.
      rewrite !length_app in Hd. simpl in Hd. lia.
    + clear Huniq. induction o as [|[k c] o IHo]; simpl; [apply NoDup_nil_2|].
      apply list.NoDup_cons in Hnd as [Hk Hnd].
      inversion IH as [|? ? IHc IH']; subst. inversion Hall as [|? ? Hc Hall']; subst.
      rewrite map_app. apply list.NoDup_app. split; [by apply IHc|].
      split; [|by apply IHo].
      intros x Hx Hx'.
      apply list_elem_of_fmap in Hx as (d & -> & Hd).
      apply (walk_elem nm lineOffsets off c Hc) in Hd as (q & n & _ & _ & ->).
      apply list_elem_of_fmap in Hx' as (d' & Hd' & Hin).
      apply elem_of_concat in Hin as (l & Hl & Hin).
      apply list_elem_of_fmap in Hl as ([k' c'] & -> & Hkc). simpl in Hin.
      rewrite list.Forall_forall in Hall'.
      apply (walk_elem nm lineOffsets off c' (Hall' _ Hkc)) in Hin
        as (q' & n' & _ & _ & ->).
      simpl in Hd'. rewrite <- !app_assoc in Hd'.
      apply app_inv_head in Hd'. injection Hd' as -> _.
      apply Hk. by apply (list_elem_of_fmap_2 fst) in Hkc.
Qed.

(** X18: the flattened definitions of a parsed body are its tree laid out:
    one definition for every node below the root, with the key path of the
    node as its path, the position of the node as its start and the length
    of the last key as its extent; no path occurs twice, and every
    definition has source [styleguide]. *)
Theorem flatten_lists_each_node_once (body nm document : jsstring) (off : nat) :
  let tree := parseStyleguidePropsTree body in
  let defs := flattenStyleguideTree tree nm document off in
  (forall d, d ∈ defs <->
     exists path node,
       path <> [] /\ node_at path (tree_props tree) = Some node
       /\ d = styleguide_definition nm (line_offsets (split_lines document) 0)
                off node path)
  /\ NoDup (map propPath defs)
  /\ Forall (fun d => source d = styleguide /\ prototypeName d = nm
                      /\ end_ d = start d + length (List.last (propPath d) []))
            defs.
Proof.
  intros tree defs. pose proof (parsed_tree_unique_keys body) as Huniq.
  split; [|split].
  - intros d. exact (walk_elem _ _ _ _ Huniq [] d).
  - by apply walk_NoDup.
  - apply list.Forall_forall. intros d Hd. subst defs.
    unfold flattenStyleguideTree in Hd.
    apply (walk_elem _ _ _ _ Huniq) in Hd as (q & n & _ & _ & ->). done.
Qed.

End FlattenFacts.

(** ** More on the styleguide tree parser *)

Section TreeParserFacts.
Import Js PropParser.

(** Before the [props] line nothing is declared. *)
Lemma step_outside_props (st : state) (il : nat * jsstring) :
  inProps st = false -> root_props st = root_props init ->
  root_warnings st = [] ->
  (includes il.2 (str "@styleguide") = false \/ match_props il.2 = None) ->
  (inStyleguide st = false \/ match_props il.2 = None) ->
  inProps (step st il) = false /\ root_props (step st il) = root_props init
  /\ root_warnings (step st il) = []
  /\ (inStyleguide st = false -> includes il.2 (str "@styleguide") = false ->
      inStyleguide (step st il) = false).
Proof.
  destruct il as [index ln]. simpl. intros Hp Hr Hw Hline Hst.
  unfold step, classify. simpl. rewrite Hp.
  destruct (inStyleguide st) eqn:Es; simpl.
  - destruct Hst as [?|Hm]; [done|]. rewrite Hm. by simpl.
  - destruct (includes ln (str "@styleguide")) eqn:Ei; simpl.
    + destruct Hline as [?|Hm]; [done|]. by rewrite ?Hp, ?Es.
    + by rewrite ?Hp, ?Es.
Qed.

(** X19: without a line that holds [@styleguide], and as well without a
    line that the [props] pattern matches, the parser declares nothing: the
    tree is the empty root and there are no warnings. *)
Theorem parseStyleguidePropsTree_needs_props_block (body : jsstring) :
  Forall (fun ln => includes ln (str "@styleguide") = false) (split_on 10 body)
  \/ Forall (fun ln => match_props ln = None) (split_on 10 body) ->
  parseStyleguidePropsTree body
  = {| tree_props := Node {| pos_line := 0; pos_column := 0 |} (Some JsObject.empty);
       tree_warnings := [] |}.
Proof.
  intros Hlines. unfold parseStyleguidePropsTree.
  set (lines := split_on 10 body) in *.
  assert (Hgen : forall (ils : list (nat * jsstring)) (st : state),
            (Forall (fun il : nat * jsstring =>
                       includes il.2 (str "@styleguide") = false) ils
             /\ inStyleguide st = false
             \/ Forall (fun il : nat * jsstring => match_props il.2 = None) ils) ->
            inProps st = false -> root_props st = root_props init ->
            root_warnings st = [] ->
            root_props (fold_left step ils st) = root_props init
            /\ root_warnings (fold_left step ils st) = []).
  { induction ils as [|il ils IH]; intros st Hils Hp Hr Hw; simpl; [done|].
    destruct (step_outside_props st il Hp Hr Hw) as (Hp' & Hr' & Hw' & Hs').
    - destruct Hils as [[Hall _]|Hall]; inversion Hall; subst; [by left | by right].
    - destruct Hils as [[_ Hs]|Hall]; [by left|]. inversion Hall; subst. by right.
    - apply IH; try done.
      destruct Hils as [[Hall Hs]|Hall]; inversion Hall; subst; [left | by right].
      split; [done|]. by apply Hs'. }
  destruct (Hgen (zip (seq 0 (length lines)) lines) init) as [Hr Hw]; try done.
  - destruct Hlines as [Hall|Hall]; [left; split; [|done] | right];
      apply list.Forall_forall; intros [i ln] Hin;
      apply elem_of_zip_r in Hin; simpl;
      rewrite list.Forall_forall in Hall; by apply Hall.
  - by rewrite Hr, Hw.
Qed.

(** A body of two default assignments. *)
Lemma parseStyleguidePropsTree_needs_props_block_witness :
  parseStyleguidePropsTree body_defaults_only
  = {| tree_props := Node {| pos_line := 0; pos_column := 0 |} (Some JsObject.empty);
       tree_warnings := [] |}.
Proof.
  apply parseStyleguidePropsTree_needs_props_block.
  left. by vm_compute; repeat constructor.
Defined.

Lemma declare_warnings (st : state) (cur : noderef) (key : jsstring)
    (node : StyleguideNode) (lineNumber : nat) (push : bool) :
  root_warnings (declare st cur key node lineNumber push) = root_warnings st
  \/ root_warnings (declare st cur key node lineNumber push)
     = root_warnings st
       ++ [{| message := duplicate_message key; line := lineNumber;
              column := pos_column (position node) |}].
Proof.
  unfold declare.
  destruct (match node_at cur _ with Some _ => _ | None => false end); simpl;
    [by right | by left].
Qed.

Lemma step_warnings (st : state) (index : nat) (ln : jsstring) :
  root_warnings (step st (index, ln)) = root_warnings st
  \/ exists key column,
       declares_key ln key
       /\ root_warnings (step st (index, ln))
          = root_warnings st
            ++ [{| message := duplicate_message key; line := index + 1;
                   column := column |}].
Proof.
  unfold step, classify. simpl.
  destruct (negb (inStyleguide st) && includes ln (str "@styleguide")); simpl;
    [by left|].
  destruct (inStyleguide st && negb (inProps st)); simpl.
  { destruct (match_props ln); by left. }
  destruct (inProps st); [|by left]. destruct (current st) as [cur|]; [|by left].
  destruct (_ && closeBlockRegex ln); simpl; [by left|].
  destruct (isDirectiveLine ln) eqn:Edir; [by left|].
  destruct (openBlockRegex ln) as [[indent key]|] eqn:Eo.
  { match goal with |- context [declare ?s ?c ?k ?n ?l ?p] =>
      destruct (declare_warnings s c k n l p) as [Hw|Hw]; rewrite Hw end;
      [by left|].
    right. eexists key, _. split; [|done]. split; [done|]. left. by exists indent. }
  destruct (leafRegex ln) as [[indent key]|] eqn:El; [|by left].
  match goal with |- context [declare ?s ?c ?k ?n ?l ?p] =>
    destruct (declare_warnings s c k n l p) as [Hw|Hw]; rewrite Hw end;
    [by left|].
  right. eexists key, _. split; [|done]. split; [done|]. right. by exists indent.
Qed.

(** X20: the only warnings are duplicate warnings, each for a key that the
    line it names declares; they come in the order of the lines. *)
Theorem warnings_name_declared_keys (body : jsstring) :
  Forall (fun w =>
            exists ln key,
              split_on 10 body !! (line w - 1) = Some ln /\ 1 <= line w
              /\ declares_key ln key
              /\ message w = duplicate_message key)
         (tree_warnings (parseStyleguidePropsTree body))
  /\ forall i j w1 w2,
       i < j ->
       tree_warnings (parseStyleguidePropsTree body) !! i = Some w1 ->
       tree_warnings (parseStyleguidePropsTree body) !! j = Some w2 ->
       line w1 < line w2.
Proof.
  unfold parseStyleguidePropsTree. cbn [tree_warnings].
  set (lines := split_on 10 body).
  assert (Hgen : forall (ls : list jsstring),
            let st := fold_left step (zip (seq 0 (length ls)) ls) init in
            Forall (fun w =>
                      exists ln key,
                        ls !! (line w - 1) = Some ln /\ 1 <= line w
                        /\ declares_key ln key
                        /\ message w = duplicate_message key)
                   (root_warnings st)
            /\ forall i j w1 w2,
                 i < j -> root_warnings st !! i = Some w1 ->
                 root_warnings st !! j = Some w2 -> line w1 < line w2).
  { induction ls as [|l ls IH] using rev_ind; [by split; [constructor|]|].
    cbv zeta in IH |- *. rewrite length_app. cbn [length].
    replace (length ls + 1) with (S (length ls)) by lia.
    rewrite seq_S, zip_with_app by (by rewrite length_seq).
    cbn [zip_with]. rewrite fold_left_app. cbn [fold_left Nat.add].
    destruct IH as [Hall Hsort].
    assert (Hall' : Forall (fun w =>
                      exists ln key,
                        (ls ++ [l]) !! (line w - 1) = Some ln /\ 1 <= line w
                        /\ declares_key ln key
                        /\ message w = duplicate_message key)
                   (root_warnings
                      (fold_left step (zip (seq 0 (length ls)) ls) init))).
    { eapply list.Forall_impl; [exact Hall|]. simpl.
      intros w (ln & key & Hl & ?). exists ln, key.
      split; [by apply lookup_app_l_Some | done]. }
    destruct (step_warnings (fold_left step (zip (seq 0 (length ls)) ls) init)
                (length ls) l) as [Hw|(key & column & Hdecl & Hw)]; rewrite Hw.
    - by split.
    - split.
      + apply Forall_app. split; [done|]. apply Forall_singleton. simpl.
        exists l, key. replace (length ls + 1 - 1) with (length ls) by lia.
        split; [by rewrite list_lookup_middle|]. split; [lia | done].
      + assert (Hbound : Forall (fun w => line w < length ls + 1)
                           (root_warnings
                              (fold_left step (zip (seq 0 (length ls)) ls) init))).
        { eapply list.Forall_impl; [exact Hall|]. simpl.
          intros w (ln & _ & Hl & Hge & _). apply lookup_lt_Some in Hl. lia. }
        intros i j w1 w2 Hij H1 H2.
        assert (Hj : j < length (root_warnings
                       (fold_left step (zip (seq 0 (length ls)) ls) init))
                     \/ j = length (root_warnings
                       (fold_left step (zip (seq 0 (length ls)) ls) init))).
        { apply lookup_lt_Some in H2. rewrite length_app in H2. simpl in H2. lia. }
        destruct Hj as [Hj|Hj].
        * rewrite lookup_app_l in H1, H2 by lia. by apply (Hsort i j).
        * rewrite lookup_app_l in H1 by lia. subst j.
          rewrite list_lookup_middle in H2 by done. injection H2 as <-. simpl.
          rewrite list.Forall_forall in Hbound. apply Hbound.
          by eapply list_elem_of_lookup_2. }
  apply (Hgen lines).
Qed.

End TreeParserFacts.

(** ** The pipeline over the prototype blocks *)

Section PipelineFacts.
Import Js PropParser.

(** The lines of a text, each counted with one code unit for its line
    break, do not outrun the text. *)
Lemma split_lines_total (s : jsstring) :
  length (concat (split_lines s)) + length (split_lines s) <= S (length s).
Proof.
  induction s as [|c r IH]; [done|]. cbn [split_lines].
  pose proof (split_lines_length r) as Hlen.
  destruct (split_lines r) as [|l ls]; [discriminate|].
  destruct (eqc c 10); [simpl in *; lia|].
  destruct (eqc c 13 && starts_with [10%N] r); simpl in *; lia.
Qed.

Lemma line_end_in_text (lines : list jsstring) (n : nat) (ln : jsstring) :
  lines !! n = Some ln ->
  length (concat (take n lines)) + n + length ln + 1
  <= length (concat lines) + length lines.
Proof.
  intros Hn. rewrite <- (take_drop_middle lines n ln Hn) at 2 3.
  rewrite concat_app, !length_app. cbn [concat length]. rewrite length_app.
  rewrite length_take. apply lookup_lt_Some in Hn. lia.
Qed.

Lemma indexOf_from_bound (needle s : jsstring) (i j : nat) :
  indexOf_from needle s i = Some j -> j + length needle <= i + length s.
Proof.
  revert i. induction s as [|c r IH]; intros i; cbn [indexOf_from].
  - destruct (starts_with needle []) eqn:Es; [|discriminate].
    intros [= <-]. apply starts_with_spec in Es as [r Hr].
    apply (f_equal length) in Hr. rewrite length_app in Hr. simpl in *. lia.
  - destruct (starts_with needle (c :: r)) eqn:Es.
    + intros [= <-]. apply starts_with_spec in Es as [r' Hr].
      apply (f_equal length) in Hr. rewrite length_app in Hr. simpl in *. lia.
    + intros Hj. apply IH in Hj. simpl. lia.
Qed.

(** The whole match of the assignment pattern is a prefix of the line. *)
Lemma defaultRegex_prefix (ln m0 m1 : jsstring) :
  defaultRegex ln = Some (m0, m1) -> exists rest, ln = m0 ++ rest.
Proof.
  unfold defaultRegex. destruct (span is_blank ln) as [indent r1] eqn:Ei.
  apply span_spec in Ei as [-> _].
  assert (Hkey : forall key r2,
            match r1 with
            | [] => None
            | c :: r =>
                if is_alpha c || eqc c (ch "_")
                then let '(k, r2) := span is_path_char r in Some (c :: k, r2)
                else if is_digit c then Some (span is_digit r1) else None
            end = Some (key, r2) -> r1 = key ++ r2).
  { intros key r2. destruct r1 as [|c r]; [discriminate|].
    destruct (is_alpha c || eqc c (ch "_")).
    - destruct (span is_path_char r) as [k r2'] eqn:Ek. intros [= <- <-].
      apply span_spec in Ek as [-> _]. done.
    - destruct (is_digit c); [|discriminate]. intros Hs.
      assert (Hs' : span is_digit (c :: r) = (key, r2)) by congruence.
      by apply span_spec in Hs' as [-> _]. }
  destruct (match r1 with [] => None | c :: r => _ end) as [[key r2]|];
    [|discriminate].
  rewrite (Hkey key r2 eq_refl).
  destruct (span is_ws r2) as [w r3] eqn:Ew. apply span_spec in Ew as [-> _].
  destruct (starts_with (str "=") r3) eqn:Ee; [|discriminate].
  apply starts_with_spec in Ee as [rest ->]. intros [= <- <-].
  exists rest. by rewrite <- !app_assoc.
Qed.

(** Where the default scanner puts the key of a definition: at or behind
    the offset of the body, and with its end not behind the end of the
    body. *)
Lemma default_key_in_body (body nm : jsstring) (off : nat) (d : PropDefinition) :
  d ∈ parseDefaultProps body nm off ->
  prototypeName d = nm /\ source d = default
  /\ off <= start d /\ start d + length (dotted d) <= off + length body
  /\ 0 < length (dotted d).
Proof.
  intros Hd. apply (default_loop_state nm off (split_lines body)) in Hd
    as (n & ln & m0 & m1 & Hn & Hm & _ & ->).
  unfold default_definition, dotted. cbn [prototypeName source start propPath].
  change (str ".") with [ch "."]. rewrite join_split_on.
  pose proof (defaultRegex_longer _ _ _ Hm) as Hlonger.
  destruct (defaultRegex_prefix _ _ _ Hm) as [rest Hrest].
  apply (f_equal length) in Hrest. rewrite length_app in Hrest.
  pose proof (line_end_in_text _ _ _ Hn) as Hline.
  pose proof (split_lines_total body) as Htotal.
  assert (Hidx : match indexOf ln m1 with Some i => i | None => 0 end + length m1
                 <= length ln).
  { destruct (indexOf ln m1) as [i|] eqn:Ei; [|lia].
    apply indexOf_from_bound in Ei. lia. }
  assert (Hkey : 0 < length m1).
  { unfold defaultRegex in Hm. destruct (span is_blank ln) as [indent r1].
    destruct r1 as [|c r]; [discriminate|].
    destruct (is_alpha c || eqc c (ch "_")).
    - destruct (span is_path_char r) as [k r2].
      destruct (span is_ws r2) as [w r3].
      destruct (starts_with (str "=") r3); [|discriminate].
      injection Hm as _ <-. simpl. lia.
    - destruct (is_digit c) eqn:Ed; [|discriminate].
      cbn [span] in Hm. rewrite Ed in Hm.
      destruct (span is_digit r) as [k r2].
      destruct (span is_ws r2) as [w r3].
      destruct (starts_with (str "=") r3); [|discriminate].
      injection Hm as _ <-. simpl. lia. }
  repeat split; try done; lia.
Qed.

(** X26: every definition [parsePropDefinitions] yields belongs to one of
    the prototype blocks: it carries the name of the block, and when it is
    a default its key lies inside the body of the block, between
    [bodyStart] and [bodyEnd].  The warnings are those of the trees of the
    blocks, block after block; a text without a block gives nothing. *)
Theorem definitions_belong_to_blocks (text : jsstring) :
  Forall (fun p =>
            exists b,
              b ∈ parsePrototypeBlocks text /\ prototypeName p = name b
              /\ (source p = default ->
                  bodyStart b <= start p
                  /\ start p + length (dotted p) <= bodyEnd b))
         (props (parsePropDefinitions text))
  /\ warnings (parsePropDefinitions text)
     = concat (map (fun b =>
                      tree_warnings
                        (parseStyleguidePropsTree
                           (slice text (bodyStart b) (bodyEnd b))))
                   (parsePrototypeBlocks text))
  /\ (parsePrototypeBlocks text = [] ->
      parsePropDefinitions text = {| props := []; warnings := [] |}).
Proof.
  split; [|split].
  - unfold parsePropDefinitions. rewrite block_loop_props. cbn [props app].
    apply list.Forall_forall. intros p Hp.
    apply elem_of_concat in Hp as (l & Hl & Hp).
    apply list_elem_of_fmap in Hl as (b & -> & Hb). cbv zeta in Hp.
    exists b. split; [done|]. unfold block_props in Hp.
    apply elem_of_app in Hp as [Hp|Hp].
    + pose proof (parsed_tree_unique_keys (slice text (bodyStart b) (bodyEnd b)))
        as Huniq.
      unfold flattenStyleguideTree in Hp.
      apply (walk_elem _ _ _ _ Huniq) in Hp as (q & n & _ & _ & ->).
      split; [done|]. discriminate.
    + apply list_elem_of_filter in Hp as [_ Hp].
      apply default_key_in_body in Hp as (Hname & _ & Hstart & Hend & Hpos).
      split; [done|]. intros _. split; [done|].
      unfold slice in Hend. rewrite length_take in Hend. lia.
  - unfold parsePropDefinitions.
    generalize (parsePrototypeBlocks text) as blocks.
    assert (Hgen : forall blocks acc,
              warnings (fold_left (block_step text) blocks acc)
              = warnings acc
                ++ concat (map (fun b =>
                                  tree_warnings
                                    (parseStyleguidePropsTree
                                       (slice text (bodyStart b) (bodyEnd b))))
                               blocks)).
    { induction blocks as [|b blocks IH]; intros acc; simpl.
      - by rewrite app_nil_r.
      - rewrite IH. simpl. by rewrite <- app_assoc. }
    intros blocks. by rewrite Hgen.
  - intros Hnil. unfold parsePropDefinitions. by rewrite Hnil.
Qed.

End PipelineFacts.

(** ** More on the orchestrator *)

Section GroupFacts.
Import WorkspaceIndex.

Lemma group_by_prototype_snoc (defs : list PropParser.PropDefinition)
    (d : PropParser.PropDefinition) :
  group_by_prototype (defs ++ [d])
  = JsMap.set (PropParser.prototypeName d)
      (match JsMap.get (PropParser.prototypeName d) (group_by_prototype defs) with
       | Some l => l
       | None => []
       end ++ [d])
      (group_by_prototype defs).
Proof. unfold group_by_prototype. by rewrite fold_left_app. Qed.

(** The group of a name holds the definitions of that name, in order; a
    name without definitions has no group. *)
Lemma group_by_prototype_get (defs : list PropParser.PropDefinition)
    (nm : jsstring) :
  JsMap.get nm (group_by_prototype defs)
  = match filter (fun d => PropParser.prototypeName d = nm) defs with
    | [] => None
    | l => Some l
    end.
Proof.
  induction defs as [|d defs IH] using rev_ind; [done|].
  rewrite group_by_prototype_snoc, list.filter_app, filter_cons, filter_nil.
  destruct (decide (PropParser.prototypeName d = nm)) as [<-|Hne].
  - rewrite get_set_eq, IH.
    by destruct (filter _ defs).
  - rewrite get_set_ne by done. rewrite IH, app_nil_r. done.
Qed.

Lemma group_by_prototype_keys (defs : list PropParser.PropDefinition) :
  NoDup (JsMap.keys (group_by_prototype defs)).
Proof.
  induction defs as [|d defs IH] using rev_ind; [apply NoDup_nil_2|].
  rewrite group_by_prototype_snoc. by apply NoDup_keys_map_set.
Qed.

End GroupFacts.

Section IndexGroupsFacts.
Import PropIndex.

Lemma index_groups_keys (u : jsstring)
    (groups : list (jsstring * list PropParser.PropDefinition)) (idx : t) :
  NoDup (JsMap.keys idx) ->
  NoDup (JsMap.keys
           (fold_left (fun idx '(protoName, defs) => indexPrototype protoName defs u idx)
                      groups idx)).
Proof.
  revert idx. induction groups as [|[k defs] groups IH]; intros idx Hnd; simpl; [done|].
  apply IH. by apply NoDup_keys_map_set.
Qed.

(** The loop over the groups appends to the list of every name the
    definitions of its group that carry the name. *)
Lemma index_groups_stored (u : jsstring)
    (groups : list (jsstring * list PropParser.PropDefinition)) (idx : t)
    (nm : jsstring) :
  NoDup (JsMap.keys groups) ->
  stored (fold_left (fun idx '(protoName, defs) => indexPrototype protoName defs u idx)
                    groups idx) nm
  = stored idx nm
    ++ match JsMap.get nm groups with
       | Some defs =>
           map (as_indexed u) (filter (fun d => PropParser.prototypeName d = nm) defs)
       | None => []
       end.
Proof.
  revert idx. induction groups as [|[k defs] groups IH]; intros idx Hnd; simpl.
  - by rewrite app_nil_r.
  - unfold JsMap.keys in Hnd. simpl in Hnd. apply list.NoDup_cons in Hnd as [Hk Hnd].
    rewrite IH by done.
    destruct (decide (nm = k)) as [->|Hne].
    + rewrite indexPrototype_stored_eq.
      rewrite (proj2 (get_None_keys groups k)) by done. by rewrite app_nil_r.
    + rewrite indexPrototype_stored_ne by done. done.
Qed.

End IndexGroupsFacts.

Section IndexDocumentMoreFacts.
Import PrototypeIndex.

Lemma last_occurrence {D K : Type} `{EqDecision K} (key : D -> K) (ds : list D)
    (k : K) :
  k ∈ map key ds ->
  exists ds1 d ds2, ds = ds1 ++ d :: ds2 /\ key d = k /\ k ∉ map key ds2.
Proof.
  induction ds as [|d ds IH]; simpl; intros Hin; [by apply elem_of_nil in Hin|].
  destruct (decide (k ∈ map key ds)) as [Hl|Hl].
  - destruct (IH Hl) as (ds1 & d' & ds2 & -> & Hk & Hnot).
    by exists (d :: ds1), d', ds2.
  - apply elem_of_cons in Hin as [->|Hin]; [|done].
    by exists [], d, ds.
Qed.

(** An entry found after [indexDocument] is the entry of a declaration of
    the document, or an entry of before under a name the document does not
    declare. *)
Lemma indexDocument_get (idx : t) (u source nm : jsstring) (p : IndexedPrototype) :
  get nm (indexDocument u source idx) = Some p ->
  (exists decl, decl ∈ PrototypeParser.parsePrototypes source
                /\ PrototypeParser.name decl = nm
                /\ p = as_prototype u source decl)
  \/ ((nm ∉ map PrototypeParser.name (PrototypeParser.parsePrototypes source))
      /\ get nm idx = Some p).
Proof.
  intros Hget.
  destruct (decide (nm ∈ map PrototypeParser.name
                            (PrototypeParser.parsePrototypes source))) as [Hin|Hnot].
  - left. apply last_occurrence in Hin as (ds1 & d & ds2 & Hds & <- & Hlast).
    assert (Hlastget : get (PrototypeParser.name d) (indexDocument u source idx)
                       = Some (as_prototype u source d)).
    { unfold get, indexDocument. simpl. rewrite Hds.
      by apply (writes_last PrototypeParser.name (as_prototype u source)). }
    rewrite Hlastget in Hget. injection Hget as <-. exists d. split; [|done].
    rewrite Hds. apply elem_of_app. right. apply list_elem_of_here.
  - right. split; [done|]. by rewrite indexDocument_other in Hget.
Qed.

End IndexDocumentMoreFacts.

Section OrchestratorFacts.
Import WorkspaceIndex.
Variable host : jsstring -> option jsstring.

(** What a call of [indexFusionFile] makes of each part of the state. *)
Lemma indexFusionFile_result (st : t) (u : jsstring)
    (sourceOverride : option jsstring) (live : bool) :
  (indexFusionFile host st u sourceOverride live).1
  = match source_of host u sourceOverride with
    | None => false
    | Some source =>
        if live && (length (PropParser.props (PropParser.parsePropDefinitions source))
                    =? 0)
        then false
        else match host u with Some _ => true | None => false end
    end.
Proof.
  unfold indexFusionFile, source_of.
  destruct (match sourceOverride with Some s => Some s | None => host u end);
    [|done].
  destruct (live && _); [done|]. by destruct (host u).
Qed.

Lemma indexFusionFile_prototypeIndex (st : t) (u : jsstring)
    (sourceOverride : option jsstring) (live : bool) :
  prototypeIndex (indexFusionFile host st u sourceOverride live).2
  = let pi1 := if JsMap.has u (filePrototypeMap st)
               then PrototypeIndex.removeByUri u (prototypeIndex st)
               else prototypeIndex st in
    match source_of host u sourceOverride with
    | None => pi1
    | Some source => PrototypeIndex.indexDocument u source pi1
    end.
Proof.
  unfold indexFusionFile, source_of.
  destruct (match sourceOverride with Some s => Some s | None => host u end);
    [|by destruct (JsMap.has u (filePrototypeMap st))].
  destruct (live && _); [by destruct (JsMap.has u (filePrototypeMap st))|].
  destruct (JsMap.has u (filePrototypeMap st)); simpl;
    destruct (JsMap.has u (filePropMap st)); simpl; by destruct (host u).
Qed.

Lemma indexFusionFile_propIndex (st : t) (u : jsstring)
    (sourceOverride : option jsstring) (live : bool) :
  propIndex (indexFusionFile host st u sourceOverride live).2
  = match source_of host u sourceOverride with
    | None => propIndex st
    | Some source =>
        let defs := PropParser.props (PropParser.parsePropDefinitions source) in
        if live && (length defs =? 0) then propIndex st
        else
          let idx3 := if JsMap.has u (filePropMap st)
                      then PropIndex.removeByUri u (propIndex st)
                      else propIndex st in
          match host u with
          | None => idx3
          | Some _ =>
              fold_left
                (fun idx '(protoName, defs) =>
                   PropIndex.indexPrototype protoName defs u idx)
                (group_by_prototype defs) idx3
          end
    end.
Proof.
  unfold indexFusionFile, source_of.
  destruct (match sourceOverride with Some s => Some s | None => host u end);
    [|by destruct (JsMap.has u (filePrototypeMap st))].
  cbv zeta.
  destruct (live && _); [by destruct (JsMap.has u (filePrototypeMap st))|].
  destruct (JsMap.has u (filePrototypeMap st)); simpl;
    destruct (JsMap.has u (filePropMap st)); simpl; by destruct (host u).
Qed.

Lemma indexFusionFile_filePropMap (st : t) (u : jsstring)
    (sourceOverride : option jsstring) (live : bool) :
  filePropMap (indexFusionFile host st u sourceOverride live).2
  = match source_of host u sourceOverride with
    | None => filePropMap st
    | Some source =>
        let defs := PropParser.props (PropParser.parsePropDefinitions source) in
        if live && (length defs =? 0) then filePropMap st
        else
          let fpm3 := if JsMap.has u (filePropMap st)
                      then JsMap.delete u (filePropMap st)
                      else filePropMap st in
          match host u with
          | None => fpm3
          | Some _ =>
              JsMap.set u (concat (map snd (group_by_prototype defs))) fpm3
          end
    end.
Proof.
  unfold indexFusionFile, source_of.
  destruct (match sourceOverride with Some s => Some s | None => host u end);
    [|by destruct (JsMap.has u (filePrototypeMap st))].
  cbv zeta.
  destruct (live && _); [by destruct (JsMap.has u (filePrototypeMap st))|].
  destruct (JsMap.has u (filePrototypeMap st)); simpl;
    destruct (JsMap.has u (filePropMap st)); simpl; by destruct (host u).
Qed.

Lemma indexFusionFile_diagnostics (st : t) (u : jsstring)
    (sourceOverride : option jsstring) (live : bool) :
  diagnostics (indexFusionFile host st u sourceOverride live).2
  = match source_of host u sourceOverride with
    | None => diagnostics st
    | Some source =>
        let parsed := PropParser.parsePropDefinitions source in
        if live && (length (PropParser.props parsed) =? 0) then diagnostics st
        else
          let diag3 := if JsMap.has u (filePropMap st)
                       then JsMap.delete u (diagnostics st)
                       else diagnostics st in
          match host u with
          | None => diag3
          | Some _ =>
              JsMap.set u
                (map (diagnostic_of (PropParser.props parsed))
                     (PropParser.warnings parsed))
                diag3
          end
    end.
Proof.
  unfold indexFusionFile, source_of.
  destruct (match sourceOverride with Some s => Some s | None => host u end);
    [|by destruct (JsMap.has u (filePrototypeMap st))].
  cbv zeta.
  destruct (live && _); [by destruct (JsMap.has u (filePrototypeMap st))|].
  destruct (JsMap.has u (filePrototypeMap st)); simpl;
    destruct (JsMap.has u (filePropMap st)); simpl; by destruct (host u).
Qed.

(** The entries of the other files, which is what the guarded removal
    leaves when the index has no entry of an unrecorded file. *)
Lemma guarded_removal_stored (st : t) (u nm : jsstring) :
  props_on_record st ->
  PropIndex.stored
    (if JsMap.has u (filePropMap st)
     then PropIndex.removeByUri u (propIndex st)
     else propIndex st) nm
  = filter (fun e => PropIndex.uri e <> u) (PropIndex.stored (propIndex st) nm).
Proof.
  intros [Hnd Hrec]. unfold JsMap.has.
  destruct (JsMap.get u (filePropMap st)) as [l|] eqn:Eg.
  - by apply removeByUri_stored.
  - symmetry. apply filter_all. intros e He Hu.
    destruct (Hrec nm e He) as [_ [x Hx]]. congruence.
Qed.

Lemma indexFusionFile_props_on_record (st : t) (u : jsstring)
    (sourceOverride : option jsstring) (live : bool) :
  props_on_record st ->
  props_on_record (indexFusionFile host st u sourceOverride live).2.
Proof.
  intros Hst. pose proof Hst as [Hnd Hrec]. unfold props_on_record.
  rewrite indexFusionFile_propIndex, indexFusionFile_filePropMap.
  destruct (source_of host u sourceOverride) as [source|]; [|done].
  cbv zeta. destruct (live && _); [done|].
  assert (Hold : forall nm e,
             e ∈ PropIndex.stored
                   (if JsMap.has u (filePropMap st)
                    then PropIndex.removeByUri u (propIndex st)
                    else propIndex st) nm ->
             PropIndex.prototypeName e = nm /\ PropIndex.uri e <> u
             /\ is_Some (JsMap.get (PropIndex.uri e)
                           (if JsMap.has u (filePropMap st)
                            then JsMap.delete u (filePropMap st)
                            else filePropMap st))).
  { intros nm e He. rewrite guarded_removal_stored in He by done.
    apply list_elem_of_filter in He as [Hu He].
    destruct (Hrec nm e He) as [Hname Hsome]. split; [done|]. split; [done|].
    destruct (JsMap.has u (filePropMap st)); [|done].
    by rewrite get_delete_ne by done. }
  assert (Hnd3 : NoDup (JsMap.keys (if JsMap.has u (filePropMap st)
                                    then PropIndex.removeByUri u (propIndex st)
                                    else propIndex st))).
  { destruct (JsMap.has u (filePropMap st)); [by apply removeByUri_keys | done]. }
  destruct (host u) as [text|].
  - split; [by apply index_groups_keys|].
    intros nm e He.
    rewrite index_groups_stored in He by apply group_by_prototype_keys.
    apply elem_of_app in He as [He|He].
    + destruct (Hold nm e He) as (Hname & Hu & Hsome). split; [done|].
      by rewrite get_set_ne by done.
    + rewrite group_by_prototype_get in He.
      destruct (filter _ _) as [|d l] eqn:Ef; [by apply elem_of_nil in He|].
      apply list_elem_of_fmap in He as (d' & -> & Hd').
      apply list_elem_of_filter in Hd' as [Hname _]. split; [done|].
      simpl. by rewrite get_set_eq.
  - split; [done|]. intros nm e He. destruct (Hold nm e He) as (? & ? & ?). done.
Qed.

Lemma removeByUri_prototypes_on_record (idx : PrototypeIndex.t) (u : jsstring) :
  prototypes_on_record idx ->
  prototypes_on_record (PrototypeIndex.removeByUri u idx).
Proof.
  intros Hrec nm p Hget.
  destruct (decide (nm ∈ PrototypeIndex.getPrototypesFromDocument u idx)) as [Hin|Hnot].
  - by rewrite removeByUri_get_recorded in Hget.
  - rewrite removeByUri_get_other in Hget by done.
    destruct (Hrec nm p Hget) as [Hname Hnames]. split; [done|].
    assert (Hu : PrototypeIndex.uri p <> u) by (intros Hu; by rewrite Hu in Hnames).
    revert Hnames. unfold PrototypeIndex.getPrototypesFromDocument,
      PrototypeIndex.removeByUri.
    destruct (JsMap.get u (PrototypeIndex.filePrototypes idx)); [|done]. simpl.
    by rewrite get_delete_ne by done.
Qed.

Lemma indexDocument_prototypes_on_record (idx : PrototypeIndex.t)
    (u source : jsstring) :
  prototypes_on_record idx ->
  PrototypeIndex.getPrototypesFromDocument u idx = [] ->
  prototypes_on_record (PrototypeIndex.indexDocument u source idx).
Proof.
  intros Hrec Hnone nm p Hget.
  apply indexDocument_get in Hget as [(decl & Hdecl & <- & ->)|[Hnot Hget]].
  - split; [done|]. simpl. rewrite indexDocument_names.
    by apply (list_elem_of_fmap_2 PrototypeParser.name).
  - destruct (Hrec nm p Hget) as [Hname Hnames]. split; [done|].
    assert (Hu : u <> PrototypeIndex.uri p).
    { intros Hu. rewrite <- Hu, Hnone in Hnames. by apply elem_of_nil in Hnames. }
    revert Hnames. unfold PrototypeIndex.getPrototypesFromDocument,
      PrototypeIndex.indexDocument. simpl.
    by rewrite get_set_ne by done.
Qed.

Lemma indexFusionFile_prototypes_on_record (st : t) (u : jsstring)
    (sourceOverride : option jsstring) (live : bool) :
  names_in_sync st ->
  prototypes_on_record (prototypeIndex st) ->
  prototypes_on_record
    (prototypeIndex (indexFusionFile host st u sourceOverride live).2).
Proof.
  intros Hsync Hrec. rewrite indexFusionFile_prototypeIndex. cbv zeta.
  assert (H1 : prototypes_on_record
                 (if JsMap.has u (filePrototypeMap st)
                  then PrototypeIndex.removeByUri u (prototypeIndex st)
                  else prototypeIndex st)).
  { destruct (JsMap.has u (filePrototypeMap st));
      [by apply removeByUri_prototypes_on_record | done]. }
  destruct (source_of host u sourceOverride) as [source|]; [|done].
  apply indexDocument_prototypes_on_record; [done|].
  unfold PrototypeIndex.getPrototypesFromDocument, JsMap.has.
  specialize (Hsync u).
  destruct (JsMap.get u (filePrototypeMap st)) as [names|] eqn:Eg.
  - unfold PrototypeIndex.removeByUri. rewrite <- Hsync. simpl.
    by rewrite get_delete_eq.
  - by rewrite <- Hsync.
Qed.

Lemma indexFusionFile_consistent (st : t) (u : jsstring)
    (sourceOverride : option jsstring) (live : bool) :
  consistent st -> consistent (indexFusionFile host st u sourceOverride live).2.
Proof.
  intros (Hpaths & Hsync & Hprops & Hprotos). split; [|split; [|split]].
  - by apply indexFusionFile_paths_nonempty.
  - by apply indexFusionFile_names_in_sync.
  - by apply indexFusionFile_props_on_record.
  - by apply indexFusionFile_prototypes_on_record.
Qed.

Lemma clear_consistent (st : t) : consistent st -> consistent (clear st).
Proof.
  intros (Hpaths & Hsync & Hprops & Hprotos). split; [|split; [|split]].
  - constructor.
  - by apply names_in_sync_clear.
  - split; [apply NoDup_nil_2|]. intros nm e He. by apply elem_of_nil in He.
  - intros nm p Hget. discriminate.
Qed.

Lemma initialize_consistent (st : t) (workspaceFiles : option (list jsstring)) :
  consistent st -> consistent (initialize host st workspaceFiles).
Proof.
  intros Hst. apply clear_consistent in Hst. unfold initialize.
  destruct workspaceFiles as [files|]; [|done].
  assert (Hstart : consistent
            {| fusionFiles := fusionFiles (clear st) ++ files;
               prototypeIndex := prototypeIndex (clear st);
               propIndex := propIndex (clear st);
               filePrototypeMap := filePrototypeMap (clear st);
               filePropMap := filePropMap (clear st);
               diagnostics := diagnostics (clear st) |}) by exact Hst.
  revert Hstart. generalize (fusionFiles (clear st) ++ files) at 2.
  generalize {| fusionFiles := fusionFiles (clear st) ++ files;
                prototypeIndex := prototypeIndex (clear st);
                propIndex := propIndex (clear st);
                filePrototypeMap := filePrototypeMap (clear st);
                filePropMap := filePropMap (clear st);
                diagnostics := diagnostics (clear st) |}.
  intros st0 l. revert st0. induction l as [|f l IH]; intros st0 H0; simpl; [done|].
  by apply IH, indexFusionFile_consistent.
Qed.

(** X22: a call of [indexFusionFile] that resolves to [true] replaces the
    props of the file: afterwards the list of every prototype holds the
    entries of the other files as before, followed by the definitions
    parsed from the current text under that prototype name, owned by the
    file; the diagnostics of the file are those of the warnings of this
    text, and the file is on record. *)
Theorem successful_index_replaces_props (st : t) (u : jsstring)
    (sourceOverride : option jsstring) (live : bool) :
  props_on_record st ->
  (indexFusionFile host st u sourceOverride live).1 = true ->
  exists source,
    source_of host u sourceOverride = Some source
    /\ (forall nm,
          PropIndex.stored
            (propIndex (indexFusionFile host st u sourceOverride live).2) nm
          = filter (fun e => PropIndex.uri e <> u)
                   (PropIndex.stored (propIndex st) nm)
            ++ map (as_indexed u)
                   (filter (fun d => PropParser.prototypeName d = nm)
                           (PropParser.props (PropParser.parsePropDefinitions source))))
    /\ JsMap.get u (diagnostics (indexFusionFile host st u sourceOverride live).2)
       = Some (map (diagnostic_of
                      (PropParser.props (PropParser.parsePropDefinitions source)))
                   (PropParser.warnings (PropParser.parsePropDefinitions source)))
    /\ is_Some (JsMap.get u
                  (filePropMap (indexFusionFile host st u sourceOverride live).2)).
Proof.
  intros Hst Htrue. rewrite indexFusionFile_result in Htrue.
  rewrite indexFusionFile_propIndex, indexFusionFile_diagnostics,
    indexFusionFile_filePropMap.
  destruct (source_of host u sourceOverride) as [source|]; [|discriminate].
  exists source. split; [done|]. cbv zeta.
  destruct (live && _); [discriminate|].
  destruct (host u) as [text|]; [|discriminate].
  split; [|split].
  - intros nm. rewrite index_groups_stored by apply group_by_prototype_keys.
    rewrite guarded_removal_stored by done. f_equal.
    rewrite group_by_prototype_get.
    destruct (filter _ _) as [|d l] eqn:Ef; [done|].
    rewrite <- Ef. f_equal.
    apply filter_all. intros d' Hd'. by apply list_elem_of_filter in Hd' as [? _].
  - apply get_set_eq.
  - by rewrite get_set_eq.
Qed.

(** X23: when the document of the file cannot be opened, a re-index with a
    text that is not held back by the live guard resolves to [false] and
    takes the props of the file out of the index, without putting those of
    the given text in: the list of every prototype holds the entries of the
    other files only and the file is no longer on record.  The prototypes
    the text declares are indexed all the same. *)
Theorem unopenable_document_loses_props (st : t) (u source : jsstring)
    (live : bool) :
  props_on_record st -> host u = None ->
  live = false \/ PropParser.props (PropParser.parsePropDefinitions source) <> [] ->
  (reindexDocument host st u source live).1 = false
  /\ (forall nm,
        PropIndex.stored (propIndex (reindexDocument host st u source live).2) nm
        = filter (fun e => PropIndex.uri e <> u)
                 (PropIndex.stored (propIndex st) nm))
  /\ JsMap.get u (filePropMap (reindexDocument host st u source live).2) = None
  /\ (forall nm,
        nm ∈ map PrototypeParser.name (PrototypeParser.parsePrototypes source) ->
        PrototypeIndex.uri
          <$> PrototypeIndex.get nm
                (prototypeIndex (reindexDocument host st u source live).2)
        = Some u).
Proof.
  intros Hst Hhost Hlive. unfold reindexDocument.
  rewrite indexFusionFile_result, indexFusionFile_propIndex,
    indexFusionFile_filePropMap, indexFusionFile_prototypeIndex.
  cbn [source_of]. cbv zeta. rewrite Hhost.
  assert (Hguard : live && (length (PropParser.props
                                      (PropParser.parsePropDefinitions source)) =? 0)
                   = false).
  { destruct Hlive as [->|Hne]; [done|].
    destruct (PropParser.props _); [done|]. by rewrite andb_false_r. }
  rewrite Hguard. split; [done|]. split; [|split].
  - intros nm. by apply guarded_removal_stored.
  - unfold JsMap.has.
    destruct (JsMap.get u (filePropMap st)) eqn:Eg; [apply get_delete_eq | done].
  - intros nm Hin. by apply indexDocument_declared.
Qed.

End OrchestratorFacts.

Section ReachableFacts.
Import WorkspaceIndex.

(** X21: in every state the public methods of the orchestrator can reach,
    whatever the host answers, the Prop Index has no stale or misfiled
    entry (each is stored under its own prototype name, has a non-empty
    path and belongs to a file the orchestrator has on record), the
    Prototype Index has no stale entry (each name is among the names
    recorded for its file), and the two records of the names of a file
    agree. *)
Theorem reachable_consistent (st : t) : reachable st -> consistent st.
Proof.
  induction 1 as [|st _ IH|host st files _ IH|host st u source live _ IH].
  - split; [constructor|]. split; [apply names_in_sync_empty|]. split.
    + split; [apply NoDup_nil_2|]. intros nm e He. by apply elem_of_nil in He.
    + intros nm p Hget. discriminate.
  - by apply clear_consistent.
  - by apply initialize_consistent.
  - by apply indexFusionFile_consistent.
Qed.

(** The state after the first text of [f] was indexed. *)
Lemma reachable_consistent_witness : consistent reindexed_good.
Proof.
  apply reachable_consistent, reachable_reindexDocument, reachable_empty.
Defined.

(** The second text of [f] takes the place of the first: [bar] is the only
    prop of [X] afterwards. *)
Lemma successful_index_replaces_props_witness :
  (reindexDocument host_good reindexed_good file_f better_source false).1 = true
  /\ map PropIndex.propPath
         (PropIndex.stored
            (propIndex
               (reindexDocument host_good reindexed_good file_f better_source false).2)
            (Js.str "X"))
     = [[Js.str "bar"]].
Proof.
  assert (Htrue : (reindexDocument host_good reindexed_good file_f better_source
                     false).1 = true) by by vm_compute.
  split; [exact Htrue|].
  destruct (successful_index_replaces_props host_good reindexed_good file_f
              (Some better_source) false) as (source & Hsrc & Hstored & _).
  - apply indexFusionFile_props_on_record.
    split; [apply NoDup_nil_2|]. intros nm e He. by apply elem_of_nil in He.
  - exact Htrue.
  - injection Hsrc as <-. unfold reindexDocument. rewrite Hstored. by vm_compute.
Defined.

(** With no document to open, the same re-index takes the props of [f]
    out. *)
Lemma unopenable_document_loses_props_witness :
  (reindexDocument host_none reindexed_good file_f better_source false).1 = false
  /\ PropIndex.stored
       (propIndex
          (reindexDocument host_none reindexed_good file_f better_source false).2)
       (Js.str "X")
     = [].
Proof.
  destruct (unopenable_document_loses_props host_none reindexed_good file_f
              better_source false) as (Hfalse & Hstored & _).
  - apply indexFusionFile_props_on_record.
    split; [apply NoDup_nil_2|]. intros nm e He. by apply elem_of_nil in He.
  - done.
  - by left.
  - split; [exact Hfalse|]. rewrite Hstored. by vm_compute.
Defined.

End ReachableFacts.

(** ** Diagnostics *)

Section DiagnosticFacts.
Import Js WorkspaceIndex.

Lemma span_app_stop (p : N -> bool) (a b : jsstring) :
  Forall (fun c => p c = true) a ->
  match b with [] => True | c :: _ => p c = false end ->
  span p (a ++ b) = (a, b).
Proof.
  intros Ha Hb. induction Ha as [|c a Hc Ha IH]; simpl.
  - destruct b as [|c b]; simpl; [done|]. by rewrite Hb.
  - by rewrite Hc, IH.
Qed.

Lemma quoted_key_skip (c : N) (r : jsstring) :
  c <> 34%N -> search quoted_key (c :: r) = search quoted_key r.
Proof.
  intros Hc. cbn [search quoted_key]. unfold eqc.
  by rewrite (proj2 (N.eqb_neq c 34) Hc).
Qed.

(** The key of a duplicate warning is read back from its message, unless
    the key holds a double quote itself. *)
Lemma quoted_key_of_message (key : jsstring) :
  key <> [] -> 34%N ∉ key ->
  search quoted_key (PropParser.duplicate_message key) = Some key.
Proof.
  intros Hne Hq. unfold PropParser.duplicate_message.
  change (str "Duplicate prop ")
    with [68; 117; 112; 108; 105; 99; 97; 116; 101; 32; 112; 114; 111; 112; 32]%N.
  cbn [app]. rewrite !quoted_key_skip by done.
  cbn [search quoted_key]. change (eqc 34 34) with true. cbv iota.
  rewrite (span_app_stop _ key).
  - destruct key; [done|]. done.
  - apply list.Forall_forall. intros c Hc. apply negb_true_iff.
    unfold eqc. apply N.eqb_neq. intros ->. done.
  - done.
Qed.

Lemma last_Some_cons {A : Type} (x : A) (l : list A) :
  l <> [] -> List.last (map Some (x :: l)) None = List.last (map Some l) None.
Proof. by destruct l. Qed.

Lemma insert_by_start_not_nil (d : PropParser.PropDefinition)
    (l : list PropParser.PropDefinition) :
  insert_by_start d l <> [].
Proof. destruct l; simpl; [done|]. by destruct (_ <=? _). Qed.

Lemma insert_by_start_elem (d x : PropParser.PropDefinition)
    (l : list PropParser.PropDefinition) :
  x ∈ insert_by_start d l -> x = d \/ x ∈ l.
Proof.
  induction l as [|z l IH]; simpl.
  - intros H. apply list_elem_of_singleton in H. by left.
  - destruct (_ <=? _); intros H.
    + apply elem_of_cons in H as [->|H]; [by left | by right].
    + apply elem_of_cons in H as [->|H]; [right; apply list_elem_of_here|].
      destruct (IH H) as [->|Hl]; [by left|]. right. by apply list_elem_of_further.
Qed.

Lemma sort_by_start_elem (x : PropParser.PropDefinition)
    (l : list PropParser.PropDefinition) :
  x ∈ sort_by_start l -> x ∈ l.
Proof.
  induction l as [|y l IH]; [done|].
  change (sort_by_start (y :: l)) with (insert_by_start y (sort_by_start l)).
  intros H. apply insert_by_start_elem in H as [->|H]; [apply list_elem_of_here|].
  by apply list_elem_of_further, IH.
Qed.

Lemma last_Some_elem {A : Type} (x : A) (l : list A) :
  List.last (map Some l) None = Some x -> x ∈ l.
Proof.
  induction l as [|y l IH]; [discriminate|].
  destruct l as [|z l].
  - intros [= <-]. apply list_elem_of_here.
  - rewrite last_Some_cons by done. intros H. by apply list_elem_of_further, IH.
Qed.

(** Where [insert_by_start] puts an entry: at the end when every entry
    starts before it, and in front of the last entry otherwise. *)
Lemma insert_by_start_last (d : PropParser.PropDefinition)
    (l : list PropParser.PropDefinition) :
  (Forall (fun d' => PropParser.start d' < PropParser.start d) l
   /\ List.last (map Some (insert_by_start d l)) None = Some d)
  \/ (exists d', d' ∈ l /\ PropParser.start d <= PropParser.start d'
      /\ List.last (map Some (insert_by_start d l)) None
         = List.last (map Some l) None).
Proof.
  induction l as [|x l IH]; cbn [insert_by_start].
  - left. by split.
  - destruct (PropParser.start d <=? PropParser.start x) eqn:Ele.
    + right. exists x. apply Nat.leb_le in Ele.
      split; [apply list_elem_of_here|]. split; [done|].
      by rewrite last_Some_cons.
    + apply Nat.leb_gt in Ele.
      rewrite last_Some_cons by apply insert_by_start_not_nil.
      destruct IH as [[Hall Hlast]|(d' & Hd' & Hle & Hlast)].
      * left. split; [by constructor | done].
      * right. exists d'. split; [by apply list_elem_of_further|]. split; [done|].
        rewrite Hlast. symmetry. apply last_Some_cons.
        intros ->. by apply elem_of_nil in Hd'.
Qed.

(** The last entry of the sorted list is an entry with the greatest
    start. *)
Lemma sort_by_start_last (l : list PropParser.PropDefinition) :
  match List.last (map Some (sort_by_start l)) None with
  | Some d => d ∈ l /\ Forall (fun d' => PropParser.start d' <= PropParser.start d) l
  | None => l = []
  end.
Proof.
  induction l as [|x l IH]; [done|].
  change (sort_by_start (x :: l)) with (insert_by_start x (sort_by_start l)).
  destruct (insert_by_start_last x (sort_by_start l))
    as [[Hall Hlast]|(d' & Hd' & Hle & Hlast)]; rewrite Hlast.
  - split; [apply list_elem_of_here|]. constructor; [done|].
    destruct (List.last (map Some (sort_by_start l)) None) as [d|] eqn:El.
    + destruct IH as [Hd Hmax]. rewrite list.Forall_forall in Hall.
      specialize (Hall d (last_Some_elem _ _ El)).
      eapply list.Forall_impl; [exact Hmax|]. simpl. intros. lia.
    + subst l. constructor.
  - destruct (List.last (map Some (sort_by_start l)) None) as [d|] eqn:El.
    + destruct IH as [Hd Hmax]. split; [by apply list_elem_of_further|].
      constructor; [|done]. apply sort_by_start_elem in Hd'.
      rewrite list.Forall_forall in Hmax. specialize (Hmax d' Hd'). lia.
    + subst l. by apply elem_of_nil in Hd'.
Qed.

(** X24: the diagnostic of a duplicate warning carries the message of the
    warning.  When definitions end in the warned key, its range is the
    range of one with the greatest start among them (the duplicate, in
    source order); when none does, it is the one-character range at the
    position of the warning.  Stated for keys without a double quote, which
    the message pattern reads back whole. *)
Theorem duplicate_diagnostic_marks_last_definition
    (propDefinitions : list PropParser.PropDefinition)
    (w : PropParser.StyleguideWarning) (key : jsstring) :
  PropParser.message w = PropParser.duplicate_message key ->
  key <> [] -> 34%N ∉ key ->
  message (diagnostic_of propDefinitions w) = PropParser.message w
  /\ match range (diagnostic_of propDefinitions w) with
     | DefinitionRange s e =>
         exists d, d ∈ propDefinitions /\ last_segment_is key d
                   /\ s = PropParser.start d /\ e = PropParser.end_ d
                   /\ forall d', d' ∈ propDefinitions -> last_segment_is key d' ->
                                 PropParser.start d' <= PropParser.start d
     | WarningRange l c l' c' =>
         (forall d, d ∈ propDefinitions -> ~ last_segment_is key d)
         /\ l = PropParser.line w - 1 /\ c = PropParser.column w - 1
         /\ l' = PropParser.line w - 1 /\ c' = PropParser.column w
     end.
Proof.
  intros Hmsg Hne Hq. split; [done|].
  unfold diagnostic_of. cbn [range]. rewrite Hmsg, quoted_key_of_message by done.
  unfold last_segment_is.
  set (matches :=
         sort_by_start
           (filter (fun def => List.last (map Some (PropParser.propPath def)) None
                               = Some key) propDefinitions)).
  pose proof (sort_by_start_last
                (filter (fun def => List.last (map Some (PropParser.propPath def)) None
                                    = Some key) propDefinitions)) as Hlast.
  fold matches in Hlast.
  assert (Hpick : (if 1 <? length matches
                   then List.last (map Some matches) None
                   else matches !! 0)
                  = List.last (map Some matches) None).
  { by destruct matches as [|a [|b m]]. }
  rewrite Hpick.
  destruct (List.last (map Some matches) None) as [d|].
  - destruct Hlast as [Hd Hmax]. apply list_elem_of_filter in Hd as [Hkey Hd].
    exists d. split; [done|]. split; [done|]. split; [done|]. split; [done|].
    intros d' Hd' Hkey'. rewrite list.Forall_forall in Hmax.
    apply Hmax. by apply list_elem_of_filter.
  - split; [|done]. intros d Hd Hkey.
    assert (Hin : d ∈ filter (fun def => List.last (map Some (PropParser.propPath def))
                                           None = Some key) propDefinitions)
      by by apply list_elem_of_filter.
    rewrite Hlast in Hin. by apply elem_of_nil in Hin.
Qed.

(** Of the two definitions that end in [a], the one at 40 is marked. *)
Lemma duplicate_diagnostic_marks_last_definition_witness :
  range (diagnostic_of definitions_a warning_a) = DefinitionRange 40 41
  /\ message (diagnostic_of definitions_a warning_a)
     = PropParser.duplicate_message (str "a").
Proof.
  split; [by vm_compute|].
  apply (duplicate_diagnostic_marks_last_definition definitions_a warning_a (str "a")).
  - done.
  - done.
  - intros H. apply list_elem_of_singleton in H. discriminate.
Defined.

End DiagnosticFacts.

(** ** The enclosing prototype of a cursor *)

Section ProviderFacts.
Import Js PropParser Providers.

Lemma scan_braces_delta (text : jsstring) (endIndex : nat) (depth : Z) :
  scan_braces text endIndex depth = (depth - brace_delta (take endIndex text))%Z.
Proof.
  unfold scan_braces. generalize (take endIndex text). intros l. revert depth.
  induction l as [|c l IH]; intros depth.
  - rewrite brace_delta_nil. simpl. lia.
  - cbn [rev]. rewrite fold_left_app. cbn [fold_left]. rewrite IH, brace_delta_cons.
    destruct (eqc c (ch "}")) eqn:Ec.
    + apply eqc_spec in Ec as ->. change (eqc (ch "}") (ch "{")) with false.
      cbv iota. lia.
    + destruct (eqc c (ch "{")); lia.
Qed.

Lemma text_up_to_cursor_step (lines : list jsstring) (posLine posCharacter l : nat)
    (text : jsstring) :
  l <= posLine -> lines !! l = Some text ->
  text_up_to_cursor lines posLine posCharacter l
  = take (if l =? posLine then posCharacter else length text) text
    ++ text_up_to_cursor lines posLine posCharacter (S l).
Proof.
  intros Hle Hl. unfold text_up_to_cursor.
  destruct (decide (l = posLine)) as [->|Hne].
  - rewrite Nat.eqb_refl, Nat.sub_diag, Hl.
    replace (posLine - S posLine) with 0 by lia.
    rewrite Nat.leb_refl. replace (S posLine <=? posLine) with false
      by (symmetry; apply Nat.leb_gt; lia).
    by rewrite !take_0, app_nil_r.
  - rewrite (proj2 (Nat.eqb_neq l posLine)) by done.
    replace (posLine - l) with (S (posLine - S l)) by lia.
    rewrite (drop_S _ _ _ Hl). cbn [take concat]. rewrite firstn_all.
    replace (l <=? posLine) with true by (symmetry; apply Nat.leb_le; lia).
    replace (S l <=? posLine) with true by (symmetry; apply Nat.leb_le; lia).
    by rewrite <- app_assoc.
Qed.

(** The loop from [line] upwards: it stops at the first line, going up,
    that encloses the cursor. *)
Lemma scan_up_spec (lines : list jsstring) (posLine posCharacter line : nat)
    (depth : Z) :
  line <= posLine -> posLine < length lines ->
  depth = (- brace_delta (text_up_to_cursor lines posLine posCharacter (S line)))%Z ->
  match scan_up lines posLine posCharacter line depth with
  | Throws => False
  | Returns (Some nm) =>
      exists l, l <= line /\ encloses lines posLine posCharacter l nm
                /\ forall l' nm', l < l' <= line ->
                                  ~ encloses lines posLine posCharacter l' nm'
  | Returns None =>
      forall l nm, l <= line -> ~ encloses lines posLine posCharacter l nm
  end.
Proof.
  intros Hle Hlen. revert depth. induction line as [|line IH]; intros depth Hdepth.
  - cbn [scan_up].
    destruct (lines !! 0) as [text|] eqn:Et;
      [|apply lookup_ge_None in Et; lia].
    rewrite scan_braces_delta.
    pose proof (text_up_to_cursor_step lines posLine posCharacter 0 text Hle Et) as Hstep.
    set (piece := take (if 0 =? posLine then posCharacter else length text) text) in *.
    assert (Hd : (depth - brace_delta piece)%Z
                 = (- brace_delta (text_up_to_cursor lines posLine posCharacter 0))%Z).
    { rewrite Hstep, brace_delta_app. lia. }
    rewrite Hd.
    destruct (- brace_delta (text_up_to_cursor lines posLine posCharacter 0) <? 0)%Z
      eqn:Eneg.
    + apply Z.ltb_lt in Eneg.
      destruct (search PrototypeParser.match_prototype text) as [[nm rest]|] eqn:Es.
      * exists 0. split; [done|]. split; [|intros l' nm' Hl'; lia].
        exists text, rest. split; [done|]. split; [done|]. lia.
      * intros l nm Hl (text' & rest & Ht' & Hs & _).
        assert (l = 0) as -> by lia. congruence.
    + apply Z.ltb_ge in Eneg. intros l nm Hl (text' & rest & Ht' & _ & Hpos).
      assert (l = 0) as -> by lia. lia.
  - cbn [scan_up].
    destruct (lines !! S line) as [text|] eqn:Et;
      [|apply lookup_ge_None in Et; lia].
    rewrite scan_braces_delta.
    pose proof (text_up_to_cursor_step lines posLine posCharacter (S line) text Hle Et)
      as Hstep.
    set (piece := take (if S line =? posLine then posCharacter else length text) text)
      in *.
    assert (Hd : (depth - brace_delta piece)%Z
                 = (- brace_delta
                        (text_up_to_cursor lines posLine posCharacter (S line)))%Z).
    { rewrite Hstep, brace_delta_app. lia. }
    rewrite Hd.
    assert (Hhere : forall nm,
              encloses lines posLine posCharacter (S line) nm ->
              (- brace_delta (text_up_to_cursor lines posLine posCharacter (S line))
               <? 0)%Z = true
              /\ exists rest, search PrototypeParser.match_prototype text
                              = Some (nm, rest)).
    { intros nm (text' & rest & Ht' & Hs & Hpos).
      split; [apply Z.ltb_lt; lia|]. exists rest. congruence. }
    destruct (if (- brace_delta (text_up_to_cursor lines posLine posCharacter (S line))
                  <? 0)%Z
              then search PrototypeParser.match_prototype text
              else None) as [[nm rest]|] eqn:Ehit.
    + exists (S line). split; [done|]. split; [|intros l' nm' Hl'; lia].
      destruct (- brace_delta _ <? 0)%Z eqn:Eneg; [|discriminate].
      apply Z.ltb_lt in Eneg. exists text, rest.
      split; [done|]. split; [done|]. lia.
    + assert (Hnot : forall nm, ~ encloses lines posLine posCharacter (S line) nm).
      { intros nm Henc. destruct (Hhere nm Henc) as [Eneg [rest Hs]].
        rewrite Eneg, Hs in Ehit. discriminate. }
      specialize (IH ltac:(lia) _ eq_refl).
      destruct (scan_up lines posLine posCharacter line _) as [|[nm|]]; [done| |].
      * destruct IH as (l & Hl & Henc & Hfirst). exists l.
        split; [lia|]. split; [done|]. intros l' nm' Hl'.
        destruct (decide (l' = S line)) as [->|Hne]; [apply Hnot|].
        apply Hfirst. lia.
      * intros l nm Hl. destruct (decide (l = S line)) as [->|Hne]; [apply Hnot|].
        apply IH. lia.
Qed.

(** X25: [findEnclosingPrototype] throws exactly when the document has no
    line [position.line].  Otherwise, the cursor line being a line of the
    document, it gives the name declared on the nearest line at or above
    the cursor that declares a prototype and has an unclosed brace between
    its start and the cursor (more [{] than [}]), and nothing when there is
    no such line. *)
Theorem findEnclosingPrototype_nearest_open_declaration (lines : list jsstring)
    (posLine posCharacter : nat) :
  (findEnclosingPrototype lines posLine posCharacter = Throws
   <-> length lines <= posLine)
  /\ match findEnclosingPrototype lines posLine posCharacter with
     | Throws => length lines <= posLine
     | Returns (Some nm) =>
         posLine < length lines
         /\ exists l, l <= posLine /\ encloses lines posLine posCharacter l nm
                      /\ forall l' nm', l < l' <= posLine ->
                                        ~ encloses lines posLine posCharacter l' nm'
     | Returns None =>
         posLine < length lines
         /\ forall l nm, l <= posLine -> ~ encloses lines posLine posCharacter l nm
     end.
Proof.
  assert (Hmain :
    match findEnclosingPrototype lines posLine posCharacter with
    | Throws => length lines <= posLine
    | Returns (Some nm) =>
        posLine < length lines
        /\ exists l, l <= posLine /\ encloses lines posLine posCharacter l nm
                     /\ forall l' nm', l < l' <= posLine ->
                                       ~ encloses lines posLine posCharacter l' nm'
    | Returns None =>
        posLine < length lines
        /\ forall l nm, l <= posLine -> ~ encloses lines posLine posCharacter l nm
    end).
  { unfold findEnclosingPrototype.
    destruct (decide (posLine < length lines)) as [Hlt|Hge].
    - pose proof (scan_up_spec lines posLine posCharacter posLine 0%Z
                    ltac:(lia) Hlt) as Hspec.
      assert (H0 : 0%Z = (- brace_delta (text_up_to_cursor lines posLine posCharacter
                                           (S posLine)))%Z).
      { unfold text_up_to_cursor. replace (posLine - S posLine) with 0 by lia.
        replace (S posLine <=? posLine) with false
          by (symmetry; apply Nat.leb_gt; lia).
        by rewrite take_0. }
      specialize (Hspec H0).
      destruct (scan_up lines posLine posCharacter posLine 0) as [|[nm|]]; done.
    - assert (Hnone : lines !! posLine = None) by (apply lookup_ge_None; lia).
      destruct posLine; cbn [scan_up]; rewrite Hnone; lia. }
  split; [|exact Hmain].
  destruct (findEnclosingPrototype lines posLine posCharacter) as [|[nm|]].
  - by split.
  - destruct Hmain as [Hlt _]. split; [discriminate | lia].
  - destruct Hmain as [Hlt _]. split; [discriminate | lia].
Qed.

(** A cursor on a line the document does not have: the call throws, though
    the only line declares [X] and opens a brace. *)
Example findEnclosingPrototype_missing_line :
  findEnclosingPrototype [str "prototype(X) {"] 5 0 = Throws
  /\ findEnclosingPrototype [str "prototype(X) {"; str "  a = "] 1 6
     = Returns (Some (str "X")).
Proof. by vm_compute. Qed.

End ProviderFacts.

(** ** The nodes of the parsed tree and their positions *)

Section TreeShapeFacts.
Import Js PropParser.

Lemma get_own_alter {V : Type} (g : V -> V) (k c : jsstring) (o : JsObject.t V) :
  JsObject.get_own k (JsObject.alter g c o)
  = if decide (k = c) then g <$> JsObject.get_own c o else JsObject.get_own k o.
Proof.
  induction o as [|[k' v'] o IH]; simpl; [by case_decide|].
  destruct (decide (c = k')) as [->|Hc]; simpl.
  - by destruct (decide (k = k')).
  - destruct (decide (k = k')) as [->|Hk].
    + by rewrite decide_False by done.
    + rewrite IH. by destruct (decide (k = c)).
Qed.

Lemma get_own_set {V : Type} (k c : jsstring) (v : V) (o : JsObject.t V) :
  JsObject.get_own k (JsObject.set c v o)
  = if decide (k = c) then Some v else JsObject.get_own k o.
Proof.
  induction o as [|[k' v'] o IH]; simpl.
  - by destruct (decide (k = c)).
  - destruct (decide (c = k')) as [->|Hc]; simpl.
    + by destruct (decide (k = k')).
    + destruct (decide (k = k')) as [->|Hk].
      * by rewrite decide_False by done.
      * by rewrite IH.
Qed.

Lemma alter_id {V : Type} (g : V -> V) (c : jsstring) (v : V) (o : JsObject.t V) :
  JsObject.get_own c o = Some v -> g v = v -> JsObject.alter g c o = o.
Proof.
  intros Hget Hg. induction o as [|[k' v'] o IH]; simpl in *; [done|].
  destruct (decide (c = k')) as [->|Hc].
  - injection Hget as ->. by rewrite Hg.
  - by rewrite IH.
Qed.

Lemma node_at_app (r q : noderef) (root : StyleguideNode) :
  node_at (r ++ q) root = node_at r root ≫= node_at q.
Proof.
  revert root. induction r as [|k r IH]; intros root; simpl; [done|].
  destruct (children root) as [o|]; [|done].
  destruct (JsObject.get_own k o) as [c|]; [apply IH | done].
Qed.

(** Below the node that [update_at] changes the tree is what the change
    made of it. *)
Lemma node_at_update_at (cur q : noderef) (f : StyleguideNode -> StyleguideNode)
    (root : StyleguideNode) :
  node_at (cur ++ q) (update_at cur f root)
  = node_at cur root ≫= (fun n => node_at q (f n)).
Proof.
  revert root. induction cur as [|c cur IH]; intros root; [done|].
  destruct root as [p [o|]]; [|done]. cbn [update_at app node_at children].
  rewrite get_own_alter, decide_True by done.
  destruct (JsObject.get_own c o) as [child|]; [apply IH | done].
Qed.

(** An update is the identity on a tree whose node there stays as it
    is. *)
Lemma update_at_id (cur : noderef) (f : StyleguideNode -> StyleguideNode)
    (root n : StyleguideNode) :
  node_at cur root = Some n -> f n = n -> update_at cur f root = root.
Proof.
  revert root. induction cur as [|c cur IH]; intros root; simpl.
  - by intros [= ->].
  - destruct root as [p [o|]]; [|done]. simpl.
    destruct (JsObject.get_own c o) as [child|] eqn:Eg; [|done].
    intros Hn Hf. by rewrite (alter_id _ c child o Eg (IH child Hn Hf)).
Qed.

(** Away from the key that is written, an update of the children of a node
    leaves the shape of every node. *)
Lemma update_at_elsewhere (cur r : noderef) (key : jsstring)
    (f : StyleguideNode -> StyleguideNode) (root ncur : StyleguideNode) :
  node_at cur root = Some ncur ->
  shape (f ncur) = shape ncur ->
  (forall k q, k <> key -> node_at (k :: q) (f ncur) = node_at (k :: q) ncur) ->
  (forall q, r <> cur ++ key :: q) ->
  shape <$> node_at r (update_at cur f root) = shape <$> node_at r root.
Proof.
  revert root r. induction cur as [|c cur IH]; intros root r Hcur Hshape Hother Hr.
  - simpl in Hcur. injection Hcur as ->. simpl. destruct r as [|k q].
    + simpl. by rewrite Hshape.
    + rewrite Hother; [done|]. intros ->. by apply (Hr q).
  - destruct root as [p [o|]]; [|done]. cbn [node_at children] in Hcur.
    destruct (JsObject.get_own c o) as [child|] eqn:Eg; [|done].
    cbn [update_at]. destruct r as [|k q]; [done|].
    cbn [node_at children]. rewrite get_own_alter.
    destruct (decide (k = c)) as [->|Hk]; [|done].
    rewrite Eg. cbn [fmap option_fmap option_map].
    apply (IH child q Hcur Hshape Hother).
    intros q' ->. by apply (Hr q').
Qed.

Lemma strip_prefix_app (lit r : jsstring) : strip_prefix lit (lit ++ r) = Some r.
Proof.
  induction lit as [|a lit IH]; simpl; [done|].
  unfold eqc. by rewrite N.eqb_refl.
Qed.

Lemma indexOf_from_sound (needle s : jsstring) (i j : nat) :
  indexOf_from needle s i = Some j ->
  exists pre post, s = pre ++ needle ++ post /\ j = i + length pre.
Proof.
  revert i. induction s as [|c r IH]; intros i; cbn [indexOf_from].
  - destruct (starts_with needle []) eqn:Es; [|discriminate].
    intros [= <-]. apply starts_with_spec in Es as [post Hpost].
    exists [], post. split; [done|]. simpl. lia.
  - destruct (starts_with needle (c :: r)) eqn:Es.
    + intros [= <-]. apply starts_with_spec in Es as [post Hpost].
      exists [], post. split; [done|]. simpl. lia.
    + intros Hj. apply IH in Hj as (pre & post & -> & ->).
      exists (c :: pre), post. split; [done|]. simpl. lia.
Qed.

Lemma indexOf_from_complete (needle a b : jsstring) (i : nat) :
  is_Some (indexOf_from needle (a ++ needle ++ b) i).
Proof.
  revert i. induction a as [|c a IH]; intros i.
  - simpl. destruct (needle ++ b) as [|c r] eqn:E; cbn [indexOf_from];
      unfold starts_with; rewrite <- E, strip_prefix_app; by eexists.
  - cbn [app indexOf_from]. destruct (starts_with needle (c :: a ++ needle ++ b));
      [by eexists | apply IH].
Qed.

(** The column the parser gives a key that is part of its line. *)
Lemma key_column (ln a key b : jsstring) (fallback : nat) :
  ln = a ++ key ++ b ->
  exists pre post,
    ln = pre ++ key ++ post
    /\ match indexOf ln key with Some keyStart => keyStart + 1 | None => fallback end
       = length pre + 1.
Proof.
  intros ->. unfold indexOf.
  destruct (indexOf_from_complete key a b 0) as [i Hi]. rewrite Hi.
  apply indexOf_from_sound in Hi as (pre & post & Heq & ->).
  by exists pre, post.
Qed.

Lemma openBlockRegex_key (ln indent key : jsstring) :
  openBlockRegex ln = Some (indent, key) -> exists rest, ln = indent ++ key ++ rest.
Proof.
  unfold openBlockRegex. destruct (span is_ws ln) as [ind r1] eqn:E1.
  destruct (span is_key_char r1) as [k r2] eqn:E2.
  apply span_spec in E1 as [-> _]. apply span_spec in E2 as [-> _].
  destruct (length k =? 0); [discriminate|].
  destruct (span is_ws r2) as [w r3]. destruct r3 as [|c r4]; [discriminate|].
  destruct (eqc c (ch "{")); [intros [= <- <-]; by exists r2|].
  destruct (eqc c (ch "=")); [|discriminate].
  destruct (span _ r4) as [value r5].
  destruct (negb _ && _); [|discriminate]. intros [= <- <-]. by exists r2.
Qed.

Lemma leafRegex_key (ln indent key : jsstring) :
  leafRegex ln = Some (indent, key) -> exists rest, ln = indent ++ key ++ rest.
Proof.
  unfold leafRegex. destruct (span is_ws ln) as [ind r1] eqn:E1.
  destruct (span is_key_char r1) as [k r2] eqn:E2.
  apply span_spec in E1 as [-> _]. apply span_spec in E2 as [-> _].
  destruct (length k =? 0); [discriminate|].
  destruct (span is_ws r2) as [w r3].
  destruct (strip_prefix (str "=") r3) as [r4|]; [|discriminate].
  destruct (span is_ws r4) as [w' r5].
  destruct (existsb _ _); [|discriminate]. intros [= <- <-]. by exists r2.
Qed.

Lemma shape_block (n : StyleguideNode) (p : Position) :
  shape n = (p, true) -> exists o, n = Node p (Some o).
Proof.
  destruct n as [p' [o|]]; unfold shape; simpl; intros [= ->]; by exists o.
Qed.

Lemma block_at_shape (r : noderef) (root root' : StyleguideNode) :
  shape <$> node_at r root' = shape <$> node_at r root ->
  block_at r root -> block_at r root'.
Proof.
  intros Hshape (p & o & Hr). rewrite Hr in Hshape.
  destruct (node_at r root') as [n'|] eqn:En'; [|discriminate].
  assert (Hn' : shape n' = (p, true)).
  { change (p, true) with (shape (Node p (Some o))).
    change (Some (shape n') = Some (shape (Node p (Some o)))) in Hshape.
    congruence. }
  apply shape_block in Hn' as [o' ->]. unfold block_at. rewrite En'. by exists p, o'.
Qed.

Lemma at_key_text_shape (lines : list jsstring) (key : jsstring)
    (n n' : StyleguideNode) :
  shape n = shape n' -> at_key_text lines key n -> at_key_text lines key n'.
Proof.
  unfold shape, at_key_text. intros [= Hpos _]. by rewrite Hpos.
Qed.

Lemma last_Some_snoc {A : Type} (l : list A) (x : A) :
  List.last (map Some (l ++ [x])) None = Some x.
Proof. rewrite map_app. simpl. apply last_last. Qed.

Lemma Forall_removelast {A : Type} (P : A -> Prop) (l : list A) :
  Forall P l -> Forall P (removelast l).
Proof.
  induction 1 as [|x l Hx Hl IH]; simpl; [constructor|].
  destruct l; [constructor|]. by constructor.
Qed.

(** A key declaration keeps the invariant. *)
Lemma declare_invariant (lines : list jsstring) (st : state) (cur : noderef)
    (key : jsstring) (node : StyleguideNode) (lineNumber : nat) (push : bool) :
  parser_invariant lines st -> current st = Some cur ->
  at_key_text lines key node ->
  children node = None \/ children node = Some JsObject.empty ->
  (push = true -> children node = Some JsObject.empty) ->
  parser_invariant lines (declare st cur key node lineNumber push).
Proof.
  intros (Hcur & Hstack & Hroot & Hpos) Hc Hnode Hfresh Hpush.
  assert (Hblock : block_at cur (root_props st)).
  { rewrite Hcur in Hc. apply last_Some_elem in Hc.
    rewrite list.Forall_forall in Hstack. by apply Hstack. }
  destruct Hblock as (p & o & Hat).
  assert (Hid : update_at cur ensure_children (root_props st) = root_props st)
    by by apply (update_at_id cur _ _ _ Hat).
  unfold declare. rewrite Hid, Hat. cbn [children].
  destruct (JsObject.truthy_at key o) eqn:Epresent.
  { by split; [|split; [|split]]. }
  assert (Hown : JsObject.get_own key o = None).
  { unfold JsObject.truthy_at in Epresent. by destruct (JsObject.get_own key o). }
  set (root' := update_at cur (set_child key node) (root_props st)).
  assert (K1 : forall r, (forall q, r <> cur ++ key :: q) ->
                 shape <$> node_at r root' = shape <$> node_at r (root_props st)).
  { intros r Hr. apply (update_at_elsewhere cur r key _ _ _ Hat); [done| |done].
    intros k q Hk. cbn [set_child node_at children].
    by rewrite get_own_set, decide_False by done. }
  assert (K2 : forall q, node_at (cur ++ key :: q) root' = node_at q node).
  { intros q. unfold root'. rewrite node_at_update_at, Hat.
    cbn [mbind option_bind set_child node_at children].
    by rewrite get_own_set, decide_True by done. }
  assert (K3 : forall q, node_at (cur ++ key :: q) (root_props st) = None).
  { intros q. rewrite node_at_app, Hat. cbn [mbind option_bind node_at children].
    by rewrite Hown. }
  assert (Hkeep : forall r, block_at r (root_props st) -> block_at r root').
  { intros r Hr. apply (block_at_shape r (root_props st)); [|done].
    apply K1. intros q ->. destruct Hr as (? & ? & Hr). by rewrite K3 in Hr. }
  unfold parser_invariant. cbn [current stack root_props]. fold root'.
  split; [|split; [|split]].
  - destruct push; cbv iota; [by rewrite last_Some_snoc | done].
  - assert (Hold : Forall (fun r => block_at r root') (stack st)).
    { eapply list.Forall_impl; [exact Hstack|]. exact Hkeep. }
    destruct push; cbv iota; [|done]. apply Forall_app. split; [done|].
    apply Forall_singleton. unfold block_at. rewrite K2. simpl.
    destruct node as [pn cn]. simpl in Hpush. rewrite (Hpush eq_refl). by eexists _, _.
  - by apply Hkeep.
  - intros path k n Hn.
    destruct (decide (take (S (length cur)) (path ++ [k]) = cur ++ [key])) as [Ht|Ht].
    + rewrite <- (take_drop (S (length cur)) (path ++ [k])), Ht in Hn.
      rewrite <- app_assoc in Hn. cbn [app] in Hn. rewrite K2 in Hn.
      assert (Hq : drop (S (length cur)) (path ++ [k]) = []).
      { destruct (drop _ _) as [|k' q]; [done|]. simpl in Hn.
        destruct Hfresh as [Hf|Hf]; rewrite Hf in Hn; discriminate. }
      rewrite Hq in Hn. injection Hn as <-.
      pose proof (take_drop (S (length cur)) (path ++ [k])) as Hsplit.
      rewrite Ht, Hq, app_nil_r in Hsplit.
      apply app_inj_tail in Hsplit as [_ ->]. done.
    + assert (Hr : forall q, path ++ [k] <> cur ++ key :: q).
      { intros q Heq. apply Ht. rewrite Heq.
        change (cur ++ key :: q) with (cur ++ [key] ++ q). rewrite app_assoc.
        rewrite take_app_length'; [done|]. rewrite length_app. simpl. lia. }
      specialize (K1 _ Hr). rewrite Hn in K1. simpl in K1.
      destruct (node_at (path ++ [k]) (root_props st)) as [n0|] eqn:E0;
        [|discriminate].
      assert (K1' : shape n0 = shape n).
      { change (Some (shape n) = Some (shape n0)) in K1. congruence. }
      apply (at_key_text_shape lines k n0); [done|].
      by apply (Hpos path).
Qed.

(** A line keeps the invariant. *)
Lemma step_invariant (lines : list jsstring) (st : state) (index : nat)
    (ln : jsstring) :
  lines !! index = Some ln ->
  parser_invariant lines st -> parser_invariant lines (step st (index, ln)).
Proof.
  intros Hln Hinv. unfold step.
  set (st1 := {| inStyleguide := inStyleguide st; inProps := inProps st;
                 root_props := root_props st; root_warnings := root_warnings st;
                 stack := stack st; current := current st;
                 eelDepth := eel_scan ln (eelDepth st) |}).
  assert (Hinv1 : parser_invariant lines st1) by exact Hinv.
  clearbody st1. clear Hinv. unfold classify.
  destruct (negb (inStyleguide st1) && includes ln (str "@styleguide")); [exact Hinv1|].
  destruct (inStyleguide st1 && negb (inProps st1)).
  { destruct (match_props ln) as [indent|]; [|exact Hinv1].
    destruct Hinv1 as (Hcur & Hstack & (p & o & Hroot) & Hpos).
    simpl in Hroot. injection Hroot as Hroot.
    unfold parser_invariant. cbn [current stack root_props].
    rewrite Hroot in *. cbn [set_position].
    assert (Hsame : forall r q pos,
              node_at (r :: q) (Node pos (Some o)) = node_at (r :: q) (Node p (Some o)))
      by done.
    split; [by rewrite last_Some_snoc|]. split; [|split].
    - apply Forall_app. split; [|apply Forall_singleton; by eexists _, _].
      eapply list.Forall_impl; [exact Hstack|]. intros r (pr & or & Hr).
      destruct r as [|k q]; [by eexists _, _|]. exists pr, or. by rewrite Hsame.
    - by eexists _, _.
    - intros path k n Hn. apply (Hpos path).
      destruct path as [|k' path]; by rewrite <- Hn. }
  destruct (inProps st1); [|exact Hinv1].
  destruct (current st1) as [cur|] eqn:Ecur; [|exact Hinv1].
  destruct ((eelDepth st1 =? 0) && closeBlockRegex ln).
  { destruct Hinv1 as (Hcur & Hstack & Hroot & Hpos).
    unfold parser_invariant. cbn [current stack root_props].
    split; [done|]. split; [by apply Forall_removelast | by split]. }
  destruct (isDirectiveLine ln); [exact Hinv1|].
  destruct (openBlockRegex ln) as [[indent key]|] eqn:Eo.
  { apply openBlockRegex_key in Eo as [rest Hrest].
    destruct (key_column ln indent key rest (length indent + 1) Hrest)
      as (pre & post & Hpre & Hcol).
    apply declare_invariant; [done..| |by right|done].
    exists ln, pre, post. cbn [position pos_line pos_column].
    split; [lia|]. split; [by replace (index + 1 - 1) with index by lia|].
    by split. }
  destruct (leafRegex ln) as [[indent key]|] eqn:El; [|exact Hinv1].
  apply leafRegex_key in El as [rest Hrest].
  destruct (key_column ln indent key rest 1 Hrest) as (pre & post & Hpre & Hcol).
  apply declare_invariant; [done..| |by left|done].
  exists ln, pre, post. cbn [position pos_line pos_column].
  split; [lia|]. split; [by replace (index + 1 - 1) with index by lia|].
  by split.
Qed.

Lemma init_invariant (lines : list jsstring) : parser_invariant lines init.
Proof.
  split; [done|]. split; [constructor|]. split; [by eexists _, _|].
  intros path key n Hn. destruct path; discriminate.
Qed.

Lemma fold_step_invariant (lines : list jsstring) (ils : list (nat * jsstring))
    (st : state) :
  Forall (fun il : nat * jsstring => lines !! il.1 = Some il.2) ils ->
  parser_invariant lines st -> parser_invariant lines (fold_left step ils st).
Proof.
  intros Hils. revert st.
  induction Hils as [|[i ln] ils Hi Hils IH]; intros st Hst; simpl; [done|].
  by apply IH, step_invariant.
Qed.

Lemma numbered_lines (lines : list jsstring) :
  Forall (fun il : nat * jsstring => lines !! il.1 = Some il.2)
         (zip (seq 0 (length lines)) lines).
Proof.
  apply list.Forall_forall. intros [i ln] Hin.
  apply elem_of_lookup_zip_with_1 in Hin as (j & i' & ln' & [= -> ->] & Hseq & Hln).
  apply lookup_seq in Hseq as [-> _]. done.
Qed.

(** X27: while a body is parsed, [current] is the innermost open block and
    every open block is a node of the tree with a [children] object, so a
    key that does not read as present is stored under the block it was
    declared in; and every node below the root is positioned at the text of
    its key: its line is a line of the body that holds the key at the
    column of the node. *)
Theorem parsed_nodes_sit_at_their_keys (body : jsstring) (k : nat) :
  let lines := split_on 10 body in
  let st := fold_left step (take k (zip (seq 0 (length lines)) lines)) init in
  current st = List.last (map Some (stack st)) None
  /\ Forall (fun r => block_at r (root_props st)) (stack st)
  /\ forall path key n,
       node_at (path ++ [key]) (root_props st) = Some n ->
       at_key_text lines key n.
Proof.
  intros lines st.
  assert (Hinv : parser_invariant lines st).
  { apply fold_step_invariant; [|apply init_invariant].
    apply Forall_take, numbered_lines. }
  destruct Hinv as (Hcur & Hstack & _ & Hpos). by split; [|split].
Qed.

Lemma split_lines_no_cr (s : jsstring) :
  13%N ∉ s -> split_lines s = split_on 10 s.
Proof.
  induction s as [|c r IH]; intros Hno; [done|].
  apply not_elem_of_cons in Hno as [Hc Hr]. cbn [split_lines split_on].
  rewrite (IH Hr). destruct (split_on 10 r) as [|l ls]; [done|].
  destruct (eqc c 10); [done|].
  unfold eqc at 1. by rewrite (proj2 (N.eqb_neq c 13)) by done.
Qed.

Lemma line_offsets_lookup (lines : list jsstring) (acc i : nat) (ln : jsstring) :
  lines !! i = Some ln ->
  line_offsets lines acc !! i = Some (acc + length (concat (take i lines)) + i).
Proof.
  revert acc i. induction lines as [|l ls IH]; intros acc i Hi; [done|].
  destruct i as [|i]; simpl.
  - f_equal. lia.
  - simpl in Hi. rewrite (IH _ _ Hi), length_app. f_equal. lia.
Qed.

(** A line of a split text starts at the offset that counts the lines in
    front of it with one code unit for each separator. *)
Lemma join_drop (sep : N) (lines : list jsstring) (i : nat) (ln : jsstring) :
  lines !! i = Some ln ->
  exists rest,
    drop (length (concat (take i lines)) + i) (join [sep] lines) = ln ++ rest.
Proof.
  revert i. induction lines as [|l ls IH]; intros i Hi; [done|].
  destruct i as [|i].
  - injection Hi as ->. simpl. destruct ls; [exists []; by rewrite app_nil_r|].
    by eexists.
  - simpl in Hi. destruct (IH i Hi) as [rest Hrest]. exists rest.
    destruct ls as [|l' ls]; [done|].
    change (join [sep] (l :: l' :: ls)) with (l ++ [sep] ++ join [sep] (l' :: ls)).
    cbn [take concat]. rewrite length_app.
    replace (length l + length (concat (take i (l' :: ls))) + S i)
      with (length l + (1 + (length (concat (take i (l' :: ls))) + i))) by lia.
    rewrite drop_app_add'. 2: done.
    by rewrite <- drop_drop.
Qed.

(** X28: in a body without carriage returns the range of every styleguide
    definition is the text of its key: it starts at or behind the offset of
    the body, and the body sliced over it is the last segment of the
    path. *)
Theorem styleguide_ranges_cover_keys (body nm : jsstring) (off : nat) :
  13%N ∉ body ->
  Forall (fun d =>
            off <= start d
            /\ slice body (start d - off) (end_ d - off)
               = List.last (propPath d) [])
         (flattenStyleguideTree (parseStyleguidePropsTree body) nm body off).
Proof.
  intros Hcr. apply list.Forall_forall. intros d Hd.
  unfold flattenStyleguideTree in Hd.
  apply (walk_elem _ _ _ _ (parsed_tree_unique_keys body)) in Hd
    as (path & n & Hne & Hat & ->).
  cbn [app] in Hne, Hat |- *.
  destruct (exists_last Hne) as (q & key & ->).
  pose proof (fold_step_invariant (split_on 10 body)
                (zip (seq 0 (length (split_on 10 body))) (split_on 10 body)) init
                (numbered_lines _) (init_invariant _)) as (_ & _ & _ & Hpos).
  destruct (Hpos q key n Hat) as (ln & pre & post & Hline & Hln & Htext & Hcol).
  unfold styleguide_definition. cbn [start end_ propPath].
  rewrite split_lines_no_cr by done.
  rewrite (line_offsets_lookup _ 0 _ ln Hln), Hcol, last_last.
  split; [lia|].
  destruct (join_drop 10 _ _ _ Hln) as [rest Hrest]. rewrite join_split_on in Hrest.
  unfold slice.
  set (o := length (concat (take (pos_line (position n) - 1) (split_on 10 body)))
            + (pos_line (position n) - 1)) in *.
  replace (off + (0 + length (concat (take (pos_line (position n) - 1)
                                             (split_on 10 body)))
                  + (pos_line (position n) - 1)) + (length pre + 1) - 1 - off)
    with (o + length pre) by lia.
  replace (off + (0 + length (concat (take (pos_line (position n) - 1)
                                             (split_on 10 body)))
                  + (pos_line (position n) - 1)) + (length pre + 1) - 1
           + length key - off - (o + length pre))
    with (length key) by lia.
  rewrite <- drop_drop, Hrest, Htext, <- !app_assoc, drop_app_length.
  by rewrite take_app_length.
Qed.

(** The two keys of the example body. *)
Lemma styleguide_ranges_cover_keys_witness :
  Forall (fun d =>
            0 <= start d
            /\ slice body_nested_x (start d - 0) (end_ d - 0)
               = List.last (propPath d) [])
         (flattenStyleguideTree (parseStyleguidePropsTree body_nested_x)
            (str "X") body_nested_x 0).
Proof.
  apply styleguide_ranges_cover_keys.
  apply (bool_decide_unpack _). by vm_compute.
Defined.

End TreeShapeFacts.

(** ** Rebuilding the indexes, and finding again what was indexed *)

Section RebuildFacts.
Import WorkspaceIndex.
Variable host : jsstring -> option jsstring.





End RebuildFacts.

Section EndToEndFacts.
Import WorkspaceIndex.

Lemma resolve_finds_exact (idx : PropIndex.t) (nm : jsstring)
    (path : list jsstring) (e0 : PropIndex.IndexedProp) :
  e0 ∈ PropIndex.stored idx nm -> PropIndex.propPath e0 = path ->
  exists e, PropIndex.resolve idx nm path = Some e
            /\ PropIndex.propPath e = path /\ e ∈ PropIndex.stored idx nm.
Proof.
  unfold PropIndex.resolve, PropIndex.stored.
  destruct (JsMap.get nm idx) as [props|];
    [|intros He0; by apply elem_of_nil in He0].
  intros He0 Hpath.
  destruct (length props =? 0) eqn:El.
  { apply Nat.eqb_eq in El. destruct props; [|discriminate].
    by apply elem_of_nil in He0. }
  pose proof (find_first (fun prop => PropIndex.pathsEqual path
                                        (PropIndex.propPath prop)) props) as Hfind.
  destruct (find _ props) as [e1|].
  - destruct Hfind as (i & Hi & He1 & _). apply pathsEqual_spec in He1.
    exists e1. split; [done|]. split; [done|]. by eapply list_elem_of_lookup_2.
  - specialize (Hfind e0 He0).
    assert (PropIndex.pathsEqual path (PropIndex.propPath e0) = true)
      by by apply pathsEqual_spec.
    congruence.
Qed.

Lemma getChildren_child (idx : PropIndex.t) (nm : jsstring)
    (usagePath : list jsstring) (e : PropIndex.IndexedProp) (x : jsstring) :
  e ∈ PropIndex.stored idx nm -> child_of usagePath (PropIndex.propPath e) x ->
  x ∈ PropIndex.getChildren idx nm usagePath.
Proof.
  unfold PropIndex.getChildren, PropIndex.stored.
  destruct (JsMap.get nm idx) as [props|];
    [|intros He; by apply elem_of_nil in He].
  intros He Hc. destruct (length props =? 0) eqn:El.
  { apply Nat.eqb_eq in El. destruct props; [|discriminate].
    by apply elem_of_nil in He. }
  apply getChildren_fold. by exists e.
Qed.

(** X30: what a successful call indexes can be found again.  Every
    definition parsed from the text is stored under its prototype for the
    file; [resolve] of its own path gives an entry with exactly this path;
    and every segment of its path is listed by [getChildren] for the
    segments in front of it. *)
Theorem indexed_props_resolve (host : jsstring -> option jsstring) (st : t)
    (u : jsstring) (sourceOverride : option jsstring) (live : bool)
    (source : jsstring) (d : PropParser.PropDefinition) :
  (indexFusionFile host st u sourceOverride live).1 = true ->
  source_of host u sourceOverride = Some source ->
  d ∈ PropParser.props (PropParser.parsePropDefinitions source) ->
  as_indexed u d
    ∈ PropIndex.stored (propIndex (indexFusionFile host st u sourceOverride live).2)
        (PropParser.prototypeName d)
  /\ (exists e,
        PropIndex.resolve (propIndex (indexFusionFile host st u sourceOverride live).2)
          (PropParser.prototypeName d) (PropParser.propPath d) = Some e
        /\ PropIndex.propPath e = PropParser.propPath d)
  /\ (forall i x,
        PropParser.propPath d !! i = Some x ->
        x ∈ PropIndex.getChildren
              (propIndex (indexFusionFile host st u sourceOverride live).2)
              (PropParser.prototypeName d) (take i (PropParser.propPath d))).
Proof.
  intros Htrue Hsrc Hd.
  assert (Hstored : as_indexed u d
            ∈ PropIndex.stored
                (propIndex (indexFusionFile host st u sourceOverride live).2)
                (PropParser.prototypeName d)).
  { rewrite indexFusionFile_result in Htrue. rewrite indexFusionFile_propIndex.
    rewrite Hsrc in Htrue |- *. cbv zeta.
    destruct (live && _); [discriminate|].
    destruct (host u) as [text|]; [|discriminate].
    rewrite index_groups_stored by apply group_by_prototype_keys.
    apply elem_of_app. right. rewrite group_by_prototype_get.
    assert (Hin : d ∈ filter (fun d' => PropParser.prototypeName d'
                                        = PropParser.prototypeName d)
                             (PropParser.props (PropParser.parsePropDefinitions source)))
      by by apply list_elem_of_filter.
    destruct (filter _ _) as [|d0 l] eqn:Ef; [by apply elem_of_nil in Hin|].
    apply (list_elem_of_fmap_2 (as_indexed u)). apply list_elem_of_filter.
    split; [done|]. by rewrite <- Ef in Hin |- *;
      apply list_elem_of_filter in Hin as [_ ?]; apply list_elem_of_filter. }
  split; [exact Hstored|]. split.
  - destruct (resolve_finds_exact _ _ (PropParser.propPath d) _ Hstored eq_refl)
      as (e & He & Hpath & _).
    by exists e.
  - intros i x Hx. apply (getChildren_child _ _ _ _ _ Hstored).
    pose proof (lookup_lt_Some _ _ _ Hx) as Hlt.
    unfold child_of. cbn [as_indexed PropIndex.propPath].
    rewrite length_take, Nat.min_l by lia. split; [done|]. split; [|done].
    done.
Qed.

(** The prop [foo] of the first text of [f]. *)
Lemma indexed_props_resolve_witness :
  exists e,
    PropIndex.resolve (propIndex reindexed_good) (Js.str "X") [Js.str "foo"] = Some e
    /\ PropIndex.propPath e = [Js.str "foo"].
Proof.
  assert (Hd : {| PropParser.prototypeName := Js.str "X";
                  PropParser.propPath := [Js.str "foo"];
                  PropParser.start := 15; PropParser.end_ := 21;
                  PropParser.source := default |}
               ∈ PropParser.props (PropParser.parsePropDefinitions good_source)).
  { vm_compute. apply list_elem_of_here. }
  apply (indexed_props_resolve host_good empty file_f (Some good_source) false
           good_source _ ltac:(by vm_compute) eq_refl Hd).
Defined.

End EndToEndFacts.
